(** * OmegaCore performance layer: cache, rate limiter, embedding gateway, memory store

    A shallow embedding of
      - [lib/utils/cache.ts]         (class [LRUCache]),
      - [lib/utils/rate-limiter.ts]  (class [RateLimiter]),
      - [lib/ai/embeddings.ts]       ([hashText], [generateEmbedding], [generateEmbeddings]),
      - [lib/db/memory.ts]           ([hashQuery], [searchMemories], [fallbackTextSearch],
                                      [deleteMemory]),
    followed by the properties established about them.

    Conventions.
      - [Date.now()] is an input: every method that reads the clock takes the
        reading as [now : Z] (milliseconds).
      - Integer-valued JavaScript numbers (sizes, token counts, timestamps,
        limits) are [Z]; fractional ones (similarity scores, thresholds,
        vector components) are [Q].
      - A JavaScript [Map] is an association list in insertion order
        ([JsMap]) where the iteration order is observable (the cache), and a
        [gmap] where it is not (the limiter's buckets).
      - A rejected promise / thrown exception is the [Err] branch of
        [Result].
      - Table ["Memory"] is the list of its rows.  What the outside does
        during a call (the embedding provider, the pgvector statement, a
        failure of the store) is an input of that call ([ProviderEnv],
        [StoreEnv]); every call of the provider and every similarity
        statement is recorded in a log, so that "no provider call" and "no
        index query" can be stated.
      - The values kept in the caches are arrays, which are truthy: the
        tests [if (cached)] are tests for a hit. *)

From Stdlib Require Import ZArith QArith Lia.
From stdpp Require Import base option list sorting strings pretty gmap.

Local Open Scope Z_scope.

(** ** Outcomes of fallible code *)

Inductive Result (A : Type) : Type :=
| Ok (a : A)
| Err (msg : string).
Arguments Ok {A} a.
Arguments Err {A} msg.

(** ** JavaScript [Map], with its insertion order *)

Module JsMap.
Section JsMap.
Context {K V : Type} `{EqDecision K}.

(** [Map.prototype.get] *)
Fixpoint get (k : K) (m : list (K * V)) : option V :=
  match m with
  | [] => None
  | (k', v) :: m' => if decide (k = k') then Some v else get k m'
  end.

(** [Map.prototype.has] *)
Definition has (k : K) (m : list (K * V)) : bool :=
  match get k m with Some _ => true | None => false end.

(** [Map.prototype.delete]: the remaining keys keep their order. *)
Fixpoint delete (k : K) (m : list (K * V)) : list (K * V) :=
  match m with
  | [] => []
  | (k', v) :: m' => if decide (k = k') then delete k m' else (k', v) :: delete k m'
  end.

(** [Map.prototype.set]: an existing key keeps its position, a new key is
    appended. *)
Fixpoint set (k : K) (v : V) (m : list (K * V)) : list (K * V) :=
  match m with
  | [] => [(k, v)]
  | (k', v') :: m' => if decide (k = k') then (k, v) :: m' else (k', v') :: set k v m'
  end.

(** [Map.prototype.size] *)
Definition size (m : list (K * V)) : Z := Z.of_nat (length m).

(** [map.keys().next().value]: the oldest key, [undefined] on an empty map. *)
Definition first_key (m : list (K * V)) : option K :=
  match m with
  | [] => None
  | (k, _) :: _ => Some k
  end.

Definition keys (m : list (K * V)) : list K := m.*1.
End JsMap.
End JsMap.

(** ** [lib/utils/cache.ts] *)

Module LRUCache.

Record CacheEntry (V : Type) : Type := mkEntry {
  value : V;
  timestamp : Z;
  accessCount : Z
}.
Arguments mkEntry {V} _ _ _.
Arguments value {V} _.
Arguments timestamp {V} _.
Arguments accessCount {V} _.

Record t (K V : Type) : Type := mk {
  cache : list (K * CacheEntry V);
  maxSize : Z;
  ttl : Z
}.
Arguments mk {K V} _ _ _.
Arguments cache {K V} _.
Arguments maxSize {K V} _.
Arguments ttl {K V} _.

Section LRUCache.
Context {K V : Type} `{EqDecision K}.

(** [constructor(maxSize = 100, ttl = 3600000)]: it has no [throw]; the
    outcome is always an instance holding the two arguments as given. *)
Definition new (maxSize ttl : Z) : Result (t K V) :=
  Ok (mk [] maxSize ttl).

Definition with_cache (c : t K V) (m : list (K * CacheEntry V)) : t K V :=
  mk m (maxSize c) (ttl c).

(** [get(key)] *)
Definition get (c : t K V) (key : K) (now : Z) : option V * t K V :=
  match JsMap.get key (cache c) with
  | None => (None, c)
  | Some entry =>
      if now - timestamp entry >? ttl c then
        (None, with_cache c (JsMap.delete key (cache c)))
      else
        let entry' := mkEntry (value entry) (timestamp entry) (accessCount entry + 1) in
        (Some (value entry),
         with_cache c (JsMap.set key entry' (JsMap.delete key (cache c))))
  end.

(** [set(key, value)] *)
Definition set (c : t K V) (key : K) (v : V) (now : Z) : t K V :=
  if JsMap.has key (cache c) then
    match JsMap.get key (cache c) with
    | Some entry =>
        let entry' := mkEntry v now (accessCount entry + 1) in
        with_cache c (JsMap.set key entry' (JsMap.delete key (cache c)))
    | None => c
    end
  else
    let m :=
      if JsMap.size (cache c) >=? maxSize c then
        match JsMap.first_key (cache c) with
        | Some firstKey => JsMap.delete firstKey (cache c)
        | None => cache c
        end
      else cache c in
    with_cache c (JsMap.set key (mkEntry v now 1) m).

(** [has(key)] *)
Definition has (c : t K V) (key : K) (now : Z) : bool * t K V :=
  match JsMap.get key (cache c) with
  | None => (false, c)
  | Some entry =>
      if now - timestamp entry >? ttl c then
        (false, with_cache c (JsMap.delete key (cache c)))
      else (true, c)
  end.

(** [delete(key)] *)
Definition delete (c : t K V) (key : K) : bool * t K V :=
  (JsMap.has key (cache c), with_cache c (JsMap.delete key (cache c))).

(** [clear()] *)
Definition clear (c : t K V) : t K V := with_cache c [].

(** The keys currently held, least recently used first. *)
Definition keys (c : t K V) : list K := JsMap.keys (cache c).

(** *** Histories, for statements about recency

    An operation on the cache, and the key whose recency it refreshes
    ([get] on a live entry and every [set]; [has] does not refresh). *)
Inductive op : Type :=
| OGet (key : K) (now : Z)
| OSet (key : K) (v : V) (now : Z)
| OHas (key : K) (now : Z)
| ODelete (key : K)
| OClear.

Definition step (c : t K V) (o : op) : t K V :=
  match o with
  | OGet key now => (get c key now).2
  | OSet key v now => set c key v now
  | OHas key now => (has c key now).2
  | ODelete key => (delete c key).2
  | OClear => clear c
  end.

Definition touched (c : t K V) (o : op) : option K :=
  match o with
  | OGet key now => match (get c key now).1 with Some _ => Some key | None => None end
  | OSet key _ _ => Some key
  | _ => None
  end.

(** A cache together with, for every key, the position in the history of
    the last operation that touched it ([0]: never touched). *)
Record traced : Type := mkTraced {
  now_cache : t K V;
  ticks : nat;
  last_touch : K -> nat
}.

Definition traced_step (s : traced) (o : op) : traced :=
  let n := S (ticks s) in
  mkTraced (step (now_cache s) o) n
    (match touched (now_cache s) o with
     | Some k => fun k' => if decide (k' = k) then n else last_touch s k'
     | None => last_touch s
     end).

Definition run (c0 : t K V) (ops : list op) : traced :=
  foldl traced_step (mkTraced c0 O (fun _ => O)) ops.

(** The keys are held in the order of their last touch, oldest first, and
    no key was touched later than the last operation. *)
Definition recency_inv (s : traced) : Prop :=
  StronglySorted (fun a b => (last_touch s a < last_touch s b)%nat) (keys (now_cache s))
  /\ Forall (fun k => (last_touch s k <= ticks s)%nat) (keys (now_cache s)).
End LRUCache.
End LRUCache.

(** ** [lib/utils/rate-limiter.ts] *)

Module RateLimiter.

Record Bucket : Type := mkBucket {
  tokens : Z;
  lastRefill : Z
}.

Record t : Type := mk {
  buckets : gmap string Bucket;
  capacity : Z;
  refillRate : Z;   (* tokens per second *)
  windowMs : Z
}.

(** [constructor(capacity = 100, refillRate = 10, windowMs = 60000)]: no
    [throw]; the arguments are stored as given. *)
Definition new (capacity refillRate windowMs : Z) : Result t :=
  Ok (mk ∅ capacity refillRate windowMs).

Definition with_buckets (rl : t) (bs : gmap string Bucket) : t :=
  mk bs (capacity rl) (refillRate rl) (windowMs rl).

(** [Math.floor(((now - lastRefill) / 1000) * refillRate)], computed
    exactly ([Z.div] rounds down as [Math.floor] does). *)
Definition tokensToAdd (rl : t) (b : Bucket) (now : Z) : Z :=
  ((now - lastRefill b) * refillRate rl) / 1000.

(** [isAllowed(identifier, tokens = 1)].  The bucket object lives in the
    map and is mutated in place, so a refill is stored even when the
    request is denied. *)
Definition isAllowed (rl : t) (identifier : string) (cost : Z) (now : Z) : bool * t :=
  let bucket :=
    match buckets rl !! identifier with
    | Some b => b
    | None => mkBucket (capacity rl) now
    end in
  let toAdd := tokensToAdd rl bucket now in
  let bucket :=
    if toAdd >? 0 then mkBucket (Z.min (capacity rl) (tokens bucket + toAdd)) now
    else bucket in
  if tokens bucket >=? cost then
    (true, with_buckets rl (<[identifier := mkBucket (tokens bucket - cost) (lastRefill bucket)]> (buckets rl)))
  else
    (false, with_buckets rl (<[identifier := bucket]> (buckets rl))).

(** [getRemaining(identifier)]: reads, never writes. *)
Definition getRemaining (rl : t) (identifier : string) (now : Z) : Z :=
  match buckets rl !! identifier with
  | None => capacity rl
  | Some bucket =>
      let currentTokens := Z.min (capacity rl) (tokens bucket + tokensToAdd rl bucket now) in
      Z.max 0 currentTokens
  end.

(** [reset(identifier)] *)
Definition reset (rl : t) (identifier : string) : t :=
  with_buckets rl (base.delete identifier (buckets rl)).

(** [cleanup()] *)
Definition cleanup (rl : t) (now : Z) : t :=
  with_buckets rl
    (filter (fun kb : string * Bucket => ¬ (now - lastRefill kb.2 > windowMs rl * 2)) (buckets rl)).

(** Operations, for statements about every reachable limiter. *)
Inductive op : Type :=
| OIsAllowed (identifier : string) (cost : Z) (now : Z)
| OGetRemaining (identifier : string) (now : Z)
| OReset (identifier : string)
| OCleanup (now : Z).

Definition step (rl : t) (o : op) : t :=
  match o with
  | OIsAllowed identifier cost now => (isAllowed rl identifier cost now).2
  | OGetRemaining _ _ => rl
  | OReset identifier => reset rl identifier
  | OCleanup now => cleanup rl now
  end.

(** The costs callers pass are token counts. *)
Definition op_ok (o : op) : Prop :=
  match o with
  | OIsAllowed _ cost _ => 0 <= cost
  | _ => True
  end.

(** [n] successive [isAllowed(identifier)] calls (unit cost) at one clock
    reading: the answers in order, and the limiter afterwards. *)
Fixpoint attempts (rl : t) (identifier : string) (now : Z) (n : nat) : list bool * t :=
  match n with
  | O => ([], rl)
  | S n' =>
      let '(ok, rl') := isAllowed rl identifier 1 now in
      let '(oks, rl'') := attempts rl' identifier now n' in
      (ok :: oks, rl'')
  end.

Definition bucket_inv (rl : t) : Prop :=
  forall identifier b, buckets rl !! identifier = Some b -> 0 <= tokens b <= capacity rl.

(** The upper half alone. *)
Definition tokens_capped (rl : t) : Prop :=
  forall identifier b, buckets rl !! identifier = Some b -> tokens b <= capacity rl.

(** The bucket [isAllowed] decides on: the stored one, or a fresh full
    one, after the refill step. *)
Definition refilled (rl : t) (identifier : string) (now : Z) : Bucket :=
  let bucket :=
    match buckets rl !! identifier with
    | Some b => b
    | None => mkBucket (capacity rl) now
    end in
  if tokensToAdd rl bucket now >? 0 then
    mkBucket (Z.min (capacity rl) (tokens bucket + tokensToAdd rl bucket now)) now
  else bucket.
End RateLimiter.

(** ** Library functions the code calls

    [crypto.createHash('sha256').update(s).digest('hex')], the conversion
    of a number inside a template literal and [String.prototype.toLowerCase]
    (the case mapping of every cased letter, not of [A-Z] only) come from
    the runtime, not from this repository: they are parameters of the
    development.  A string is its UTF-8 byte sequence. *)

Class Platform : Type := {
  sha256_hex : string -> string;
  Number_toString : Q -> string;
  toLowerCase : string -> string
}.

(** What [String.prototype.toLowerCase] does to a string of ASCII
    characters: the letters [A-Z] are lowered, every other byte is kept.
    Used for the concrete runs only, all of them on ASCII strings. *)
Definition toLowerCase_ascii (c : Ascii.ascii) : Ascii.ascii :=
  let n := Ascii.nat_of_ascii c in
  if (andb (65 <=? n) (n <=? 90))%nat then Ascii.ascii_of_nat (n + 32) else c.

Fixpoint toLowerCase_ascii_string (s : string) : string :=
  match s with
  | EmptyString => EmptyString
  | String c s' => String (toLowerCase_ascii c) (toLowerCase_ascii_string s')
  end.

(** [String.prototype.includes] (on well-formed strings, containment of the
    byte sequences). *)
Fixpoint includes (s sub : string) : bool :=
  if String.prefix sub s then true
  else match s with
       | EmptyString => false
       | String _ s' => includes s' sub
       end.

(** ** [lib/ai/embeddings.ts] (the cached gateway)

    The module takes its limiter from
    [import { embeddingCache, embeddingRateLimiter } from '@/lib/utils/cache'];
    [lib/utils/cache.ts] exports [LRUCache], [embeddingCache], [memoryCache]
    and [queryCache] only (the limiter is exported by
    [lib/utils/rate-limiter.ts]).  The binding [embeddingRateLimiter] of the
    gateway is therefore [undefined], and the call
    [embeddingRateLimiter.isAllowed(...)], which both functions make outside
    their [try] block as soon as the cache has missed, raises a [TypeError];
    the code after that call (the provider call, the [set] of the cache) is
    never reached. *)

Definition Vec : Type := list Q.

(** What the process environment and the provider do during one call:
    whether [process.env.OPENAI_API_KEY] is set, and the outcome of
    [openai.embeddings.create] on a list of inputs ([Err]: the promise
    rejects).  The provider is part of the environment of every call,
    whether or not the call gets as far as asking it. *)
Record ProviderEnv : Type := mkProviderEnv {
  OPENAI_API_KEY : bool;
  embeddings_create : list string -> Result (list Vec)
}.

(** The module-level state around the gateway: the cache it imports, the
    limiter [lib/utils/rate-limiter.ts] exports under the name the gateway
    asks for (which the gateway never reaches, see above), and a log of the
    inputs of every provider call issued so far. *)
Record Gateway : Type := mkGateway {
  embeddingCache : LRUCache.t string Vec;
  embeddingRateLimiter : RateLimiter.t;
  providerCalls : list (list string)
}.

Section Embeddings.
Context `{Platform}.

(** [hashText(text)] *)
Definition hashText (text : string) : string := sha256_hex text.

(** The [TypeError] of a method call on the undefined binding. *)
Definition undefined_isAllowed : string :=
  "Cannot read properties of undefined (reading 'isAllowed')".

(** [generateEmbedding(text)]; [now] is the clock reading of the cache
    lookup.  ([later], the reading at which a provider answer would be
    cached, and the provider of [env] are never reached.) *)
Definition generateEmbedding (env : ProviderEnv) (g : Gateway) (text : string)
    (now later : Z) : Result Vec * Gateway :=
  if negb (OPENAI_API_KEY env) then
    (Err "OPENAI_API_KEY is required for embeddings", g)
  else
    let cacheKey := hashText text in
    let '(cached, ec) := LRUCache.get (embeddingCache g) cacheKey now in
    match cached with
    | Some v => (Ok v, mkGateway ec (embeddingRateLimiter g) (providerCalls g))
    | None =>
        (* [embeddingRateLimiter.isAllowed(identifier)] on [undefined] *)
        (Err undefined_isAllowed, mkGateway ec (embeddingRateLimiter g) (providerCalls g))
    end.

(** The first loop of [generateEmbeddings]: one cache [get] per text, in
    order; [results] gets the hits, [uncached] the misses with their
    indices. *)
Fixpoint lookupAll (ec : LRUCache.t string Vec) (texts : list string) (i : nat) (now : Z)
    : list (option Vec) * list (nat * string) * LRUCache.t string Vec :=
  match texts with
  | [] => ([], [], ec)
  | text :: texts' =>
      let '(cached, ec1) := LRUCache.get ec (hashText text) now in
      let '(results, uncached, ec2) := lookupAll ec1 texts' (S i) now in
      match cached with
      | Some v => (Some v :: results, uncached, ec2)
      | None => (None :: results, (i, text) :: uncached, ec2)
      end
  end.

(** [generateEmbeddings(texts)].  A slot of the returned array that was
    never assigned is [None]; when every text is cached, every slot is
    assigned. *)
Definition generateEmbeddings (env : ProviderEnv) (g : Gateway) (texts : list string)
    (now later : Z) : Result (list (option Vec)) * Gateway :=
  if negb (OPENAI_API_KEY env) then
    (Err "OPENAI_API_KEY is required for embeddings", g)
  else
    let '(results, uncached, ec) := lookupAll (embeddingCache g) texts O now in
    if (length uncached =? 0)%nat then
      (Ok results, mkGateway ec (embeddingRateLimiter g) (providerCalls g))
    else
      (* [embeddingRateLimiter.isAllowed(identifier, tokensNeeded)] on
         [undefined] *)
      (Err undefined_isAllowed, mkGateway ec (embeddingRateLimiter g) (providerCalls g)).
End Embeddings.

(** ** [lib/db/memory.ts] *)

(** A row of table ["Memory"]. *)
Record Memory : Type := mkMemory {
  id : string;
  userId : string;
  content : string;
  embedding : option Vec;
  metadata : string;
  importance : string;
  createdAt : Z;
  updatedAt : Z
}.

(** [Memory & { similarity: number }] *)
Record Scored : Type := mkScored {
  memory : Memory;
  similarity : Q
}.

(** What the outside does during one call of the store: the provider, the
    outcome of the raw pgvector statement of [searchMemories] (given the
    rows, the owner, the query vector, the threshold and the limit), and
    whether the plain statements issued through [db] (the [select] of
    [fallbackTextSearch], the [delete] of [deleteMemory]) resolve or reject
    ([Some msg]). *)
Record StoreEnv : Type := mkStoreEnv {
  provider : ProviderEnv;
  similarityQuery : list Memory -> string -> Vec -> Q -> Z -> Result (list Scored);
  dbFailure : option string
}.

Record World : Type := mkWorld {
  gateway : Gateway;
  queryCache : LRUCache.t string (list Scored);
  memoryRateLimiter : RateLimiter.t;
  memoryTable : list Memory;
  indexQueries : list (string * Vec * Q * Z)
}.

Definition with_gateway (w : World) (g : Gateway) : World :=
  mkWorld g (queryCache w) (memoryRateLimiter w) (memoryTable w) (indexQueries w).
Definition with_queryCache (w : World) (qc : LRUCache.t string (list Scored)) : World :=
  mkWorld (gateway w) qc (memoryRateLimiter w) (memoryTable w) (indexQueries w).
Definition with_memoryRateLimiter (w : World) (rl : RateLimiter.t) : World :=
  mkWorld (gateway w) (queryCache w) rl (memoryTable w) (indexQueries w).
Definition with_memoryTable (w : World) (rows : list Memory) : World :=
  mkWorld (gateway w) (queryCache w) (memoryRateLimiter w) rows (indexQueries w).
Definition with_indexQueries (w : World) (qs : list (string * Vec * Q * Z)) : World :=
  mkWorld (gateway w) (queryCache w) (memoryRateLimiter w) (memoryTable w) qs.

(** The clock readings of one [searchMemories] call: on entry, when the
    embedding is cached, when the ranked list is cached. *)
Record SearchClock : Type := mkSearchClock {
  t_start : Z;
  t_embedded : Z;
  t_ranked : Z
}.

(** [ORDER BY "createdAt" DESC]: insertion sort, newest first. *)
Fixpoint insertByCreatedAtDesc (m : Memory) (rows : list Memory) : list Memory :=
  match rows with
  | [] => [m]
  | r :: rows' =>
      if createdAt r <? createdAt m then m :: r :: rows'
      else r :: insertByCreatedAtDesc m rows'
  end.

Definition orderByCreatedAtDesc (rows : list Memory) : list Memory :=
  foldr insertByCreatedAtDesc [] rows.

(** [select().from(memory).where(eq(memory.userId, userId))
      .orderBy(desc(memory.createdAt)).limit(limit)].  Rows of equal
    [createdAt] come in an order SQL leaves open (here: table order); every
    caller passes a positive [limit]. *)
Definition selectRecent (rows : list Memory) (user : string) (limit : Z) : list Memory :=
  take (Z.to_nat limit)
    (orderByCreatedAtDesc (filter (fun m => userId m = user) rows)).

Section MemoryStore.
Context `{Platform}.

(** [hashQuery(userId, query, limit, threshold)] *)
Definition hashQuery (user query : string) (limit : Z) (threshold : Q) : string :=
  sha256_hex
    (user ++ ":" ++ query ++ ":" ++ Number_toString (inject_Z limit)
          ++ ":" ++ Number_toString threshold).

(** The score of the lexical path. *)
Definition textScore (query : string) (mem : Memory) : Scored :=
  let queryLower := toLowerCase query in
  let contentLower := toLowerCase (content mem) in
  mkScored mem (if includes contentLower queryLower then 8 # 10 else 5 # 10)%Q.

(** [fallbackTextSearch({ userId, query, limit })] *)
Definition fallbackTextSearch (env : StoreEnv) (w : World) (user query : string)
    (limit : Z) : Result (list Scored) :=
  match dbFailure env with
  | Some e => Err e
  | None => Ok (map (textScore query) (selectRecent (memoryTable w) user limit))
  end.

(** The [try] block of [searchMemories]. *)
Definition searchMemories_try (env : StoreEnv) (w : World) (user query : string)
    (limit : Z) (threshold : Q) (clk : SearchClock) : Result (list Scored) * World :=
  let '(allowed, rl) := RateLimiter.isAllowed (memoryRateLimiter w) user 1 (t_start clk) in
  let w := with_memoryRateLimiter w rl in
  if negb allowed then
    (Err "Rate limit exceeded for memory search. Please try again later.", w)
  else
    let cacheKey := hashQuery user query limit threshold in
    let '(cached, qc) := LRUCache.get (queryCache w) cacheKey (t_start clk) in
    let w := with_queryCache w qc in
    match cached with
    | Some ranked => (Ok ranked, w)
    | None =>
        let '(e, g) := generateEmbedding (provider env) (gateway w) query
                         (t_start clk) (t_embedded clk) in
        let w := with_gateway w g in
        match e with
        | Err msg => (Err msg, w)
        | Ok queryEmbedding =>
            let w := with_indexQueries w
                       (indexQueries w ++ [(user, queryEmbedding, threshold, limit)]) in
            match similarityQuery env (memoryTable w) user queryEmbedding threshold limit with
            | Err msg => (Err msg, w)
            | Ok typedResults =>
                (Ok typedResults,
                 with_queryCache w
                   (LRUCache.set (queryCache w) cacheKey typedResults (t_ranked clk)))
            end
        end
    end.

(** [searchMemories({ userId, query, limit = 5, threshold = 0.7 })]: the
    [catch] clause answers any error of the [try] block with
    [fallbackTextSearch], whose own outcome is returned as it is. *)
Definition searchMemories (env : StoreEnv) (w : World) (user query : string)
    (limit : option Z) (threshold : option Q) (clk : SearchClock)
    : Result (list Scored) * World :=
  let limit := default 5 limit in
  let threshold := default (7 # 10)%Q threshold in
  let '(r, w') := searchMemories_try env w user query limit threshold clk in
  match r with
  | Ok ranked => (Ok ranked, w')
  | Err _ => (fallbackTextSearch env w' user query limit, w')
  end.

(** [deleteMemory({ id, userId })]: [DELETE ... WHERE id = $1 AND "userId" = $2
    RETURNING *]; an error of the statement is logged and rethrown. *)
Definition deleteMemory (env : StoreEnv) (w : World) (memoryId user : string)
    : Result bool * World :=
  match dbFailure env with
  | Some e => (Err e, w)
  | None =>
      let result := filter (fun m => id m = memoryId ∧ userId m = user) (memoryTable w) in
      (Ok (0 <? length result)%nat,
       with_memoryTable w
         (filter (fun m => ¬ (id m = memoryId ∧ userId m = user)) (memoryTable w)))
  end.
End MemoryStore.

(** ** Vocabulary of the statements *)

(** What the embedding cache of [g] answers for [text] at clock reading
    [now]. *)
Definition cachedEmbedding `{Platform} (g : Gateway) (now : Z) (text : string) : option Vec :=
  (LRUCache.get (embeddingCache g) (hashText text) now).1.

(** The inputs of a batch the cache has no live entry for, in input order. *)
Definition uncachedTexts `{Platform} (g : Gateway) (now : Z) (texts : list string)
    : list string :=
  filter (fun text => cachedEmbedding g now text = None) texts.

(** The misses of a batch with their input positions (counted from [i]),
    for a cache that answers [hit]. *)
Fixpoint missesOf (hit : string -> option Vec) (texts : list string) (i : nat)
    : list (nat * string) :=
  match texts with
  | [] => []
  | text :: texts' =>
      match hit text with
      | Some _ => missesOf hit texts' (S i)
      | None => (i, text) :: missesOf hit texts' (S i)
      end
  end.

(** "The similarity path fails": embedding the query raises, or the
    embedding is obtained and the pgvector statement raises. *)
Definition similarityPathFails `{Platform} (env : StoreEnv) (w : World)
    (user query : string) (limit : Z) (threshold : Q) (clk : SearchClock) : Prop :=
  match generateEmbedding (provider env) (gateway w) query (t_start clk) (t_embedded clk) with
  | (Err _, _) => True
  | (Ok queryEmbedding, _) =>
      exists msg,
        similarityQuery env (memoryTable w) user queryEmbedding threshold limit = Err msg
  end.

(** [out] is "the [limit] most recent memories of [user]" among [rows]:
    rows of that user, newest first, at most [limit] of them, and no row of
    the user that was left out is newer than one that was taken. *)
Definition mostRecentOf (rows : list Memory) (user : string) (limit : Z)
    (out : list Memory) : Prop :=
  length out = Nat.min (Z.to_nat limit) (length (filter (fun m => userId m = user) rows))
  /\ StronglySorted (fun a b => createdAt b <= createdAt a) out
  /\ exists rest,
       out ++ rest ≡ₚ filter (fun m => userId m = user) rows
       /\ forall o r, o ∈ out -> r ∈ rest -> createdAt r <= createdAt o.

(** The two-valued score of the lexical path: 0.8 when the lower-cased
    content contains the lower-cased query, 0.5 otherwise. *)
Definition containmentScored `{Platform} (query : string) (s : Scored) : Prop :=
  (includes (toLowerCase (content (memory s))) (toLowerCase query) = true
   /\ similarity s = (8 # 10)%Q)
  \/ (includes (toLowerCase (content (memory s))) (toLowerCase query) = false
      /\ similarity s = (5 # 10)%Q).

(** The module-level singletons as they are when the modules are loaded:
    [embeddingCache = new LRUCache(500, 86400000)],
    [embeddingRateLimiter = new RateLimiter(100, 10, 60000)],
    [queryCache = new LRUCache(200, 1800000)],
    [memoryRateLimiter = new RateLimiter(200, 20, 60000)]; [rows] is the
    content of table ["Memory"]. *)
Definition initialGateway : Gateway :=
  mkGateway (LRUCache.mk [] 500 86400000) (RateLimiter.mk ∅ 100 10 60000) [].

Definition initialWorld (rows : list Memory) : World :=
  mkWorld initialGateway (LRUCache.mk [] 200 1800000) (RateLimiter.mk ∅ 200 20 60000) rows [].

(** ** A runtime for concrete runs

    Digests are kept symbolic, numbers are printed in decimal (up to six
    fractional digits), and strings are lowered as ASCII strings are. *)

Fixpoint fractionDigits (fuel : nat) (num den : Z) : string :=
  match fuel with
  | O => ""
  | S fuel' =>
      if num =? 0 then ""
      else
        let digit : string := pretty ((num * 10) / den) in
        (digit ++ fractionDigits fuel' ((num * 10) mod den) den)%string
  end.

Definition decimal (q : Q) : string :=
  let n := Z.abs (Qnum q) in
  let d := Z.pos (Qden q) in
  let fraction := fractionDigits 6 (n mod d) d in
  let sign : string := if Qnum q <? 0 then "-" else "" in
  let whole : string := pretty (n / d) in
  (sign ++ whole ++ (if String.eqb fraction "" then "" else "." ++ fraction))%string.

Definition samplePlatform : Platform :=
  {| sha256_hex := fun s => ("sha256(" ++ s ++ ")")%string;
     Number_toString := decimal;
     toLowerCase := toLowerCase_ascii_string |}.

(** ** More of [lib/utils/cache.ts]: read-only histories *)

(** The operation is a read ([get] or [has]) made no later than [now]. *)
Definition readBy {K V : Type} (now : Z) (o : @LRUCache.op K V) : Prop :=
  match o with
  | LRUCache.OGet _ t | LRUCache.OHas _ t => t <= now
  | _ => False
  end.

(** ** More of [lib/utils/rate-limiter.ts]: request sequences *)

(** Successive [isAllowed(identifier, cost)] calls, each request given by
    its cost and the clock reading at which it is made: the total cost that
    was let through, and the limiter afterwards. *)
Fixpoint admittedCost (rl : RateLimiter.t) (identifier : string) (reqs : list (Z * Z))
    : Z * RateLimiter.t :=
  match reqs with
  | [] => (0, rl)
  | (cost, now) :: reqs' =>
      let '(ok, rl') := RateLimiter.isAllowed rl identifier cost now in
      let '(total, rl'') := admittedCost rl' identifier reqs' in
      ((if ok then cost else 0) + total, rl'')
  end.

(** Clock readings that never go back, starting at [t0]. *)
Fixpoint nondecreasingFrom (t0 : Z) (reqs : list (Z * Z)) : Prop :=
  match reqs with
  | [] => True
  | (_, now) :: reqs' => t0 <= now /\ nondecreasingFrom now reqs'
  end.

Definition lastReading (t0 : Z) (reqs : list (Z * Z)) : Z :=
  match last reqs with
  | Some (_, now) => now
  | None => t0
  end.

(** ** Cold start

    The state of a process that holds no cached embedding and no cached
    ranked list, as when the modules have just been loaded. *)
Definition coldStart (w : World) : Prop :=
  LRUCache.cache (embeddingCache (gateway w)) = []
  /\ LRUCache.cache (queryCache w) = [].

(** ** The rest of [lib/db/memory.ts] *)

(** JavaScript truthiness of an optional string: [undefined] and [""] are
    falsy. *)
Definition truthy (s : option string) : option string :=
  match s with
  | Some s' => if String.eqb s' "" then None else Some s'
  | None => None
  end.

(** The [SET] clause of [updateMemory]: each field that is given replaces
    the stored one, [updatedAt] is always written. *)
Definition patchMemory (m : Memory) (newContent : option string) (embeddingArray : option Vec)
    (newMetadata newImportance : option string) (updatedNow : Z) : Memory :=
  mkMemory (id m) (userId m)
    (default (content m) newContent)
    (match embeddingArray with Some v => Some v | None => embedding m end)
    (default (metadata m) newMetadata)
    (default (importance m) newImportance)
    (createdAt m) updatedNow.

Section MemoryStoreRest.
Context `{Platform}.

(** [storeMemory({ userId, content, metadata, importance = 'medium' })].
    [newId] and [dbNow] are what the database fills in for the columns with
    defaults ([gen_random_uuid()], [now()]); [now] and [later] are the clock
    readings of the embedding call. *)
Definition storeMemory (env : StoreEnv) (w : World) (user newContent : string)
    (newMetadata newImportance : option string) (newId : string) (dbNow : Z)
    (now later : Z) : Result Memory * World :=
  let '(e, g) := generateEmbedding (provider env) (gateway w) newContent now later in
  let w := with_gateway w g in
  match e with
  | Err msg => (Err msg, w)
  | Ok embeddingVector =>
      match dbFailure env with
      | Some msg => (Err msg, w)
      | None =>
          let stored := mkMemory newId user newContent (Some embeddingVector)
                          (default "{}"%string newMetadata)
                          (default "medium"%string newImportance) dbNow dbNow in
          (Ok stored, with_memoryTable w (memoryTable w ++ [stored]))
      end
  end.

(** [getUserMemories({ userId, limit = 50 })] *)
Definition getUserMemories (env : StoreEnv) (w : World) (user : string) (limit : option Z)
    : Result (list Memory) :=
  match dbFailure env with
  | Some msg => Err msg
  | None => Ok (selectRecent (memoryTable w) user (default 50 limit))
  end.

(** [updateMemory({ id, userId, content, metadata, importance })];
    [updatedNow] is the [new Date()] written to [updatedAt].  The answer
    [None] is [null]. *)
Definition updateMemory (env : StoreEnv) (w : World) (memoryId user : string)
    (newContent newMetadata newImportance : option string) (now later updatedNow : Z)
    : Result (option Memory) * World :=
  let '(e, w) :=
    match truthy newContent with
    | Some c =>
        let '(e, g) := generateEmbedding (provider env) (gateway w) c now later in
        (match e with Ok v => Ok (Some v) | Err msg => Err msg end, with_gateway w g)
    | None => (Ok None, w)
    end in
  match e with
  | Err msg => (Err msg, w)
  | Ok embeddingArray =>
      match dbFailure env with
      | Some msg => (Err msg, w)
      | None =>
          let patch m :=
            patchMemory m (truthy newContent) embeddingArray newMetadata
              (truthy newImportance) updatedNow in
          let updated :=
            patch <$> filter (fun m => id m = memoryId /\ userId m = user) (memoryTable w) in
          (Ok (head updated),
           with_memoryTable w
             ((fun m => if decide (id m = memoryId /\ userId m = user) then patch m else m)
                <$> memoryTable w))
      end
  end.
End MemoryStoreRest.

(** ** The tools built on the store ([lib/ai/tools]) *)

(** The object a tool returns for one memory: [id], [content],
    [importance], [similarity] (search results only), [createdAt],
    [metadata]. *)
Record MemoryView : Type := mkMemoryView {
  view_id : string;
  view_content : string;
  view_importance : string;
  view_similarity : option Q;
  view_createdAt : Z;
  view_metadata : string
}.

Definition viewScored (s : Scored) : MemoryView :=
  mkMemoryView (id (memory s)) (content (memory s)) (importance (memory s))
    (Some (similarity s)) (createdAt (memory s)) (metadata (memory s)).

Definition viewMemory (m : Memory) : MemoryView :=
  mkMemoryView (id m) (content m) (importance m) None (createdAt m) (metadata m).

(** The answers of [createListMemories(...).execute]. *)
Inductive ListMemoriesResult : Type :=
| ListMemoriesOk (memories : list MemoryView) (count : nat) (query : option string)
| ListMemoriesFailed (error : string).

(** The answers of [createForget(...).execute]. *)
Inductive ForgetResult : Type :=
| ForgetDeleted (memoryId : string)
| ForgetNotFound (memoryId : string)
| ForgetNoMatch (searched : string) (suggestions : list (string * string))
| ForgetDeletedMatching (deletedCount totalFound : nat)
| ForgetNothingGiven
| ForgetFailed.


(** [Promise.all]: the values if every promise resolved, else the first
    rejection. *)
Fixpoint promiseAll {A : Type} (rs : list (Result A)) : Result (list A) :=
  match rs with
  | [] => Ok []
  | Err e :: _ => Err e
  | Ok a :: rs' =>
      match promiseAll rs' with
      | Ok l => Ok (a :: l)
      | Err e => Err e
      end
  end.

Section Tools.
Context `{Platform}.

(** [createListMemories({ userId }).execute({ query, limit = 10 })] *)
Definition createListMemories (user : string) (env : StoreEnv) (w : World)
    (query : option string) (limit : option Z) (clk : SearchClock)
    : ListMemoriesResult * World :=
  let limit := default 10 limit in
  let safeLimit := Z.min (Z.max limit 1) 50 in
  match truthy query with
  | Some q =>
      let '(r, w') := searchMemories env w user q (Some safeLimit) None clk in
      match r with
      | Ok memories =>
          (ListMemoriesOk (viewScored <$> memories) (length memories) (Some q), w')
      | Err _ => (ListMemoriesFailed "Failed to retrieve memories. Please try again.", w')
      end
  | None =>
      match getUserMemories env w user (Some safeLimit) with
      | Ok memories => (ListMemoriesOk (viewMemory <$> memories) (length memories) None, w)
      | Err _ => (ListMemoriesFailed "Failed to retrieve memories. Please try again.", w)
      end
  end.

(** [matching.map((m) => deleteMemory({ id: m.id, userId }))]: every delete
    is issued, in order. *)
Fixpoint deleteEach (env : StoreEnv) (w : World) (user : string) (ms : list Memory)
    : list (Result bool) * World :=
  match ms with
  | [] => ([], w)
  | m :: ms' =>
      let '(r, w') := deleteMemory env w (id m) user in
      let '(rs, w'') := deleteEach env w' user ms' in
      (r :: rs, w'')
  end.

(** [createForget({ userId }).execute({ memoryId, content })] *)
Definition createForget (user : string) (env : StoreEnv) (w : World)
    (memoryId searched : option string) : ForgetResult * World :=
  match truthy memoryId with
  | Some mid =>
      let '(r, w') := deleteMemory env w mid user in
      match r with
      | Ok true => (ForgetDeleted mid, w')
      | Ok false => (ForgetNotFound mid, w')
      | Err _ => (ForgetFailed, w')
      end
  | None =>
      match truthy searched with
      | Some c =>
          match getUserMemories env w user (Some 20) with
          | Err _ => (ForgetFailed, w)
          | Ok memories =>
              let matching :=
                filter (fun m => includes (toLowerCase (content m)) (toLowerCase c) = true)
                  memories in
              if (length matching =? 0)%nat then
                (ForgetNoMatch c
                   ((fun m => (id m, String.substring 0 100 (content m))) <$> take 5 memories),
                 w)
              else
                let '(rs, w') := deleteEach env w user matching in
                match promiseAll rs with
                | Ok deleted =>
                    (ForgetDeletedMatching (length (filter (fun b => b = true) deleted))
                       (length matching), w')
                | Err _ => (ForgetFailed, w')
                end
          end
      | None => (ForgetNothingGiven, w)
      end
  end.

End Tools.

(** ** [lib/security/rate-limit.ts]: the API middleware's limiter *)

(** The parts of a request [getClientId] reads: the three headers and
    [request.ip] ([None]: absent). *)
Record Request : Type := mkRequest {
  x_user_id : option string;
  x_forwarded_for : option string;
  x_real_ip : option string;
  request_ip : option string
}.

(** [s.split(',')[0]] *)
Fixpoint beforeComma (s : string) : string :=
  match s with
  | EmptyString => EmptyString
  | String c s' =>
      if String.eqb (String c EmptyString) "," then EmptyString
      else String c (beforeComma s')
  end.

(** [getClientId(request)] *)
Definition getClientId (request : Request) : string :=
  match truthy (x_user_id request) with
  | Some user => ("user:" ++ user)%string
  | None =>
      let ip :=
        match truthy (beforeComma <$> x_forwarded_for request) with
        | Some ip => ip
        | None =>
            match truthy (x_real_ip request) with
            | Some ip => ip
            | None =>
                match truthy (request_ip request) with
                | Some ip => ip
                | None => "unknown"%string
                end
            end
        end in
      ("ip:" ++ ip)%string
  end.

(** The 429 answer of [rateLimit]: [Retry-After] ([None] when the quotient
    is not finite, i.e. [refillRate] is 0), [X-RateLimit-Limit] and
    [X-RateLimit-Remaining].  ([X-RateLimit-Reset], a clock reading plus a
    fractional number of milliseconds, is left out.) *)
Record TooManyRequests : Type := mkTooManyRequests {
  retryAfter : option Z;
  rateLimitLimit : Z;
  rateLimitRemaining : Z
}.

(** [Math.ceil(a / b)] on integers. *)
Definition ceilDiv (a b : Z) : option Z :=
  if b =? 0 then None else Some (- ((- a) / b)).

Section Middleware.
Context `{Platform}.

(** [getRateLimiter(route, capacity, refillRate)] on the registry
    [apiRateLimiters]: the limiter of the key, created on first use. *)
Definition getRateLimiter (registry : gmap string RateLimiter.t) (route : string)
    (capacity refillRate : Z) : string * RateLimiter.t * gmap string RateLimiter.t :=
  let key := (route ++ ":" ++ Number_toString (inject_Z capacity)
                    ++ ":" ++ Number_toString (inject_Z refillRate))%string in
  match registry !! key with
  | Some limiter => (key, limiter, registry)
  | None =>
      match RateLimiter.new capacity refillRate 60000 with
      | Ok limiter => (key, limiter, <[key := limiter]> registry)
      | Err _ => (key, RateLimiter.mk ∅ capacity refillRate 60000, registry)
      end
  end.

(** [rateLimit(request, route, capacity = 100, refillRate = 10)]: [None] is
    the [null] that lets the request through.  [now] is the clock reading of
    [isAllowed], [now'] that of [getRemaining]. *)
Definition rateLimit (registry : gmap string RateLimiter.t) (request : Request)
    (route : string) (capacity refillRate : option Z) (now now' : Z)
    : option TooManyRequests * gmap string RateLimiter.t :=
  let capacity := default 100 capacity in
  let refillRate := default 10 refillRate in
  let '(key, limiter, registry) := getRateLimiter registry route capacity refillRate in
  let clientId := getClientId request in
  let '(allowed, limiter) := RateLimiter.isAllowed limiter clientId 1 now in
  let registry := <[key := limiter]> registry in
  if negb allowed then
    let remaining := RateLimiter.getRemaining limiter clientId now' in
    (Some (mkTooManyRequests (ceilDiv (capacity - remaining) refillRate) capacity remaining),
     registry)
  else (None, registry).
End Middleware.

(** * Properties *)

(** ** Facts about the ordered map *)

Section JsMapFacts.
Context {K V : Type} `{EqDecision K}.
Implicit Types (k : K) (v : V) (m : list (K * V)).

Lemma JsMap_get_None k m : JsMap.get k m = None <-> k ∉ JsMap.keys m.
Proof.
  unfold JsMap.keys. induction m as [|[k' v'] m IH]; simpl.
  - split; [intros _; apply not_elem_of_nil | done].
  - rewrite not_elem_of_cons. destruct (decide (k = k')); [|tauto].
    split; [done | tauto].
Qed.

Lemma JsMap_get_Some_elem k v m : JsMap.get k m = Some v -> k ∈ JsMap.keys m.
Proof.
  intros Hg. destruct (decide (k ∈ JsMap.keys m)) as [|Hn]; [done|].
  apply JsMap_get_None in Hn. congruence.
Qed.

Lemma JsMap_keys_delete k m :
  JsMap.keys (JsMap.delete k m) = filter (fun x => x ≠ k) (JsMap.keys m).
Proof.
  unfold JsMap.keys. induction m as [|[k' v'] m IH]; csimpl; [done|].
  destruct (decide (k = k')) as [->|Hne]; csimpl.
  - rewrite filter_cons_False by tauto. done.
  - rewrite filter_cons_True by congruence. by rewrite IH.
Qed.

Lemma JsMap_delete_absent k m : k ∉ JsMap.keys m -> JsMap.delete k m = m.
Proof.
  unfold JsMap.keys. induction m as [|[k' v'] m IH]; simpl; [done|].
  rewrite not_elem_of_cons. intros [Hne Hn].
  destruct (decide (k = k')); [done|]. by rewrite IH.
Qed.

Lemma JsMap_get_delete k m : JsMap.get k (JsMap.delete k m) = None.
Proof.
  apply JsMap_get_None. rewrite JsMap_keys_delete, list_elem_of_filter. tauto.
Qed.

Lemma JsMap_get_delete_ne k k' m :
  k ≠ k' -> JsMap.get k' (JsMap.delete k m) = JsMap.get k' m.
Proof.
  intros Hne. induction m as [|[k0 v0] m IH]; simpl; [done|].
  destruct (decide (k = k0)) as [->|]; simpl.
  - destruct (decide (k' = k0)); [congruence | done].
  - destruct (decide (k' = k0)); [done | apply IH].
Qed.

Lemma JsMap_set_absent k v m : JsMap.get k m = None -> JsMap.set k v m = m ++ [(k, v)].
Proof.
  induction m as [|[k' v'] m IH]; simpl; [done|].
  destruct (decide (k = k')); [done|]. intros Hg. by rewrite IH.
Qed.

Lemma JsMap_get_snoc k k' v m :
  JsMap.get k' (m ++ [(k, v)]) =
    match JsMap.get k' m with
    | Some x => Some x
    | None => if decide (k' = k) then Some v else None
    end.
Proof.
  induction m as [|[k0 v0] m IH]; simpl; [done|].
  destruct (decide (k' = k0)); [done | apply IH].
Qed.

(** Deleting a key and setting it again moves it to the end. *)
Lemma JsMap_refresh k v m :
  JsMap.set k v (JsMap.delete k m) = JsMap.delete k m ++ [(k, v)].
Proof. apply JsMap_set_absent, JsMap_get_delete. Qed.

Lemma JsMap_keys_snoc k v m : JsMap.keys (m ++ [(k, v)]) = JsMap.keys m ++ [k].
Proof. unfold JsMap.keys. by rewrite fmap_app. Qed.
End JsMapFacts.

(** ** Facts about the cache *)

Section LRUCacheFacts.
Context {K V : Type} `{EqDecision K}.
Implicit Types (c : LRUCache.t K V) (key : K) (v : V).

Lemma LRUCache_get_hit c key entry now :
  JsMap.get key (LRUCache.cache c) = Some entry ->
  now - LRUCache.timestamp entry <= LRUCache.ttl c ->
  LRUCache.get c key now =
    (Some (LRUCache.value entry),
     LRUCache.with_cache c
       (JsMap.delete key (LRUCache.cache c)
          ++ [(key, LRUCache.mkEntry (LRUCache.value entry) (LRUCache.timestamp entry)
                      (LRUCache.accessCount entry + 1))])).
Proof.
  intros Hg Hfresh. unfold LRUCache.get. rewrite Hg.
  destruct (Z.gtb_spec (now - LRUCache.timestamp entry) (LRUCache.ttl c)); [lia|].
  by rewrite JsMap_refresh.
Qed.

Lemma LRUCache_get_stale c key entry now :
  JsMap.get key (LRUCache.cache c) = Some entry ->
  LRUCache.ttl c < now - LRUCache.timestamp entry ->
  LRUCache.get c key now =
    (None, LRUCache.with_cache c (JsMap.delete key (LRUCache.cache c))).
Proof.
  intros Hg Hstale. unfold LRUCache.get. rewrite Hg.
  destruct (Z.gtb_spec (now - LRUCache.timestamp entry) (LRUCache.ttl c)); [done | lia].
Qed.

Lemma LRUCache_get_miss c key now :
  JsMap.get key (LRUCache.cache c) = None -> LRUCache.get c key now = (None, c).
Proof. intros Hg. unfold LRUCache.get. by rewrite Hg. Qed.

Lemma LRUCache_set_present c key entry v now :
  JsMap.get key (LRUCache.cache c) = Some entry ->
  LRUCache.set c key v now =
    LRUCache.with_cache c
      (JsMap.delete key (LRUCache.cache c)
         ++ [(key, LRUCache.mkEntry v now (LRUCache.accessCount entry + 1))]).
Proof.
  intros Hg. unfold LRUCache.set, JsMap.has. rewrite Hg. by rewrite JsMap_refresh.
Qed.

Lemma LRUCache_set_room c key v now :
  JsMap.get key (LRUCache.cache c) = None ->
  JsMap.size (LRUCache.cache c) < LRUCache.maxSize c ->
  LRUCache.set c key v now =
    LRUCache.with_cache c (LRUCache.cache c ++ [(key, LRUCache.mkEntry v now 1)]).
Proof.
  intros Hg Hroom. unfold LRUCache.set, JsMap.has. rewrite Hg.
  destruct (Z.geb_spec (JsMap.size (LRUCache.cache c)) (LRUCache.maxSize c)); [lia|].
  by rewrite JsMap_set_absent.
Qed.

Lemma LRUCache_set_full c key v now k0 e0 rest :
  LRUCache.cache c = (k0, e0) :: rest ->
  k0 ∉ JsMap.keys rest ->
  JsMap.get key (LRUCache.cache c) = None ->
  LRUCache.maxSize c <= JsMap.size (LRUCache.cache c) ->
  LRUCache.set c key v now =
    LRUCache.with_cache c (rest ++ [(key, LRUCache.mkEntry v now 1)]).
Proof.
  intros Hc Hk0 Hg Hfull. unfold LRUCache.set, JsMap.has. rewrite Hg.
  destruct (Z.geb_spec (JsMap.size (LRUCache.cache c)) (LRUCache.maxSize c)); [|lia].
  rewrite Hc in *. simpl JsMap.first_key. cbv iota beta.
  simpl JsMap.delete. destruct (decide (k0 = k0)); [|done].
  rewrite (JsMap_delete_absent _ _ Hk0).
  rewrite JsMap_set_absent; [done|].
  simpl in Hg. destruct (decide (key = k0)); [done | exact Hg].
Qed.
End LRUCacheFacts.

(** ** Recency order of the cache *)

Section Sortedness.
Context {A : Type}.

Lemma StronglySorted_sublist (R : A -> A -> Prop) (l' l : list A) :
  l' `sublist_of` l -> StronglySorted R l -> StronglySorted R l'.
Proof.
  induction 1 as [|x l1 l2 Hsub IH|x l1 l2 Hsub IH]; intros Hs.
  - constructor.
  - apply StronglySorted_cons in Hs as [Hx Hs]. apply StronglySorted_cons. split; [|auto].
    apply Forall_forall. intros y Hy. rewrite Forall_forall in Hx.
    apply Hx. eapply elem_of_sublist; eauto.
  - apply StronglySorted_cons in Hs as [_ Hs]. auto.
Qed.

Lemma StronglySorted_agree (R R' : A -> A -> Prop) (l : list A) :
  (forall x y, x ∈ l -> y ∈ l -> R x y -> R' x y) ->
  StronglySorted R l -> StronglySorted R' l.
Proof.
  induction l as [|x l IH]; intros Hag Hs; [constructor|].
  apply StronglySorted_cons in Hs as [Hx Hs]. apply StronglySorted_cons. split.
  - apply Forall_forall. intros y Hy. rewrite Forall_forall in Hx.
    apply Hag; [left | by right | auto].
  - apply IH; [|done]. intros y z Hy Hz. apply Hag; by right.
Qed.

Lemma StronglySorted_irrefl_NoDup (R : A -> A -> Prop) (l : list A) :
  (forall x, ¬ R x x) -> StronglySorted R l -> NoDup l.
Proof.
  intros Hirr. induction l as [|x l IH]; intros Hs; [constructor|].
  apply StronglySorted_cons in Hs as [Hx Hs]. constructor; [|auto].
  intros Hin. rewrite Forall_forall in Hx. exact (Hirr x (Hx x Hin)).
Qed.
End Sortedness.

Section Recency.
Context {K V : Type} `{EqDecision K}.
Implicit Types (c : LRUCache.t K V) (s : @LRUCache.traced K V) (o : @LRUCache.op K V).

Lemma LRUCache_keys_step c o :
  NoDup (LRUCache.keys c) ->
  match LRUCache.touched c o with
  | None => LRUCache.keys (LRUCache.step c o) `sublist_of` LRUCache.keys c
  | Some k => exists l, (l `sublist_of` LRUCache.keys c) /\ (k ∉ l)
                        /\ LRUCache.keys (LRUCache.step c o) = l ++ [k]
  end.
Proof.
  intros Hnd. unfold LRUCache.keys in *. destruct o as [key now|key v now|key now|key|]; simpl.
  - destruct (JsMap.get key (LRUCache.cache c)) as [entry|] eqn:Hg.
    + destruct (Z_le_gt_dec (now - LRUCache.timestamp entry) (LRUCache.ttl c)) as [Hf|Hst].
      * rewrite (LRUCache_get_hit _ _ _ _ Hg Hf). simpl.
        exists (filter (fun x => x ≠ key) (JsMap.keys (LRUCache.cache c))).
        split; [apply sublist_filter|]. split.
        -- rewrite list_elem_of_filter. tauto.
        -- by rewrite JsMap_keys_snoc, JsMap_keys_delete.
      * rewrite (LRUCache_get_stale _ _ _ _ Hg) by lia. simpl.
        rewrite JsMap_keys_delete. apply sublist_filter.
    + rewrite (LRUCache_get_miss _ _ _ Hg). simpl. reflexivity.
  - destruct (JsMap.get key (LRUCache.cache c)) as [entry|] eqn:Hg.
    + rewrite (LRUCache_set_present _ _ _ _ _ Hg). simpl.
      exists (filter (fun x => x ≠ key) (JsMap.keys (LRUCache.cache c))).
      split; [apply sublist_filter|]. split.
      * rewrite list_elem_of_filter. tauto.
      * by rewrite JsMap_keys_snoc, JsMap_keys_delete.
    + destruct (Z_lt_le_dec (JsMap.size (LRUCache.cache c)) (LRUCache.maxSize c)) as [Hroom|Hfull].
      * rewrite (LRUCache_set_room _ _ _ _ Hg Hroom). simpl.
        exists (JsMap.keys (LRUCache.cache c)). split; [done|]. split.
        -- by apply JsMap_get_None.
        -- apply JsMap_keys_snoc.
      * destruct (LRUCache.cache c) as [|[k0 e0] rest] eqn:Hc.
        -- exists []. split; [done|]. split; [apply not_elem_of_nil|].
           unfold LRUCache.set, JsMap.has. rewrite Hc. simpl.
           by destruct (JsMap.size [] >=? LRUCache.maxSize c).
        -- assert (Hk0 : k0 ∉ JsMap.keys rest).
           { unfold JsMap.keys in *. simpl in Hnd. by apply NoDup_cons in Hnd as [? _]. }
           rewrite <- Hc in Hg, Hfull.
           rewrite (LRUCache_set_full _ _ _ _ _ _ _ Hc Hk0 Hg Hfull). simpl.
           exists (JsMap.keys rest). split; [by apply sublist_cons|]. split.
           ++ rewrite Hc in Hg. apply JsMap_get_None in Hg.
              unfold JsMap.keys in *. simpl in Hg. apply not_elem_of_cons in Hg. tauto.
           ++ apply JsMap_keys_snoc.
  - unfold LRUCache.has. destruct (JsMap.get key (LRUCache.cache c)) as [entry|]; [|done].
    destruct (now - LRUCache.timestamp entry >? LRUCache.ttl c); simpl; [|done].
    rewrite JsMap_keys_delete. apply sublist_filter.
  - rewrite JsMap_keys_delete. apply sublist_filter.
  - apply sublist_nil_l.
Qed.

Lemma recency_inv_step s o : LRUCache.recency_inv s -> LRUCache.recency_inv (LRUCache.traced_step s o).
Proof.
  intros [Hs Hb].
  assert (Hnd : NoDup (LRUCache.keys (LRUCache.now_cache s))).
  { eapply StronglySorted_irrefl_NoDup; [|exact Hs]. intros x. simpl. lia. }
  pose proof (LRUCache_keys_step (LRUCache.now_cache s) o Hnd) as Hk.
  unfold LRUCache.recency_inv, LRUCache.traced_step. simpl.
  rewrite Forall_forall in Hb.
  destruct (LRUCache.touched (LRUCache.now_cache s) o) as [k|].
  - destruct Hk as (l & Hsub & Hnin & ->). split.
    + apply StronglySorted_app. split; [|split].
      * intros x1 x2 Hx1 ->%list_elem_of_singleton.
        destruct (decide (x1 = k)) as [->|]; [done|].
        destruct (decide (k = k)); [|done].
        pose proof (Hb x1 (elem_of_sublist _ _ _ Hx1 Hsub)). lia.
      * eapply StronglySorted_agree; [|eapply StronglySorted_sublist; eauto].
        intros x y Hx Hy Hlt. simpl in *.
        destruct (decide (x = k)) as [->|]; [done|].
        destruct (decide (y = k)) as [->|]; [done|]. exact Hlt.
      * repeat constructor.
    + apply Forall_forall. intros x Hx. apply elem_of_app in Hx as [Hx|Hx].
      * destruct (decide (x = k)) as [->|]; [done|].
        pose proof (Hb x (elem_of_sublist _ _ _ Hx Hsub)). lia.
      * apply list_elem_of_singleton in Hx as ->. destruct (decide (k = k)); [lia|done].
  - split.
    + eapply StronglySorted_sublist; eauto.
    + apply Forall_forall. intros x Hx.
      pose proof (Hb x (elem_of_sublist _ _ _ Hx Hk)). lia.
Qed.

Lemma recency_inv_run maxSize ttl c0 ops :
  LRUCache.new maxSize ttl = Ok c0 -> LRUCache.recency_inv (LRUCache.run c0 ops).
Proof.
  intros [= <-]. unfold LRUCache.run.
  assert (Hinit : LRUCache.recency_inv
            (LRUCache.mkTraced (LRUCache.mk ([] : list (K * LRUCache.CacheEntry V)) maxSize ttl)
               O (fun _ => O))).
  { split; simpl; constructor. }
  revert Hinit. generalize (LRUCache.mkTraced (LRUCache.mk ([] : list (K * LRUCache.CacheEntry V)) maxSize ttl) O (fun _ => O)).
  induction ops as [|o ops IH]; intros s Hs; simpl; [done|].
  apply IH. by apply recency_inv_step.
Qed.

(** Operations never change the configuration of the cache. *)
Lemma LRUCache_step_config c o :
  LRUCache.maxSize (LRUCache.step c o) = LRUCache.maxSize c
  /\ LRUCache.ttl (LRUCache.step c o) = LRUCache.ttl c.
Proof.
  destruct o as [key now|key v now|key now|key|]; simpl; try done.
  - unfold LRUCache.get. destruct (JsMap.get _ _); [|done]. by destruct (_ >? _).
  - unfold LRUCache.set. destruct (JsMap.has _ _); [|done]. by destruct (JsMap.get _ _).
  - unfold LRUCache.has. destruct (JsMap.get _ _); [|done]. by destruct (_ >? _).
Qed.

Lemma LRUCache_run_config maxSize ttl c0 ops :
  LRUCache.new maxSize ttl = Ok c0 ->
  LRUCache.maxSize (LRUCache.now_cache (LRUCache.run c0 ops)) = maxSize
  /\ LRUCache.ttl (LRUCache.now_cache (LRUCache.run c0 ops)) = ttl.
Proof.
  intros [= <-]. unfold LRUCache.run.
  set (s0 := LRUCache.mkTraced _ _ _).
  assert (Hinit : LRUCache.maxSize (LRUCache.now_cache s0) = maxSize
                  /\ LRUCache.ttl (LRUCache.now_cache s0) = ttl) by done.
  revert Hinit. generalize s0.
  induction ops as [|o ops IH]; intros s Hs; simpl; [done|].
  apply IH. simpl. destruct (LRUCache_step_config (LRUCache.now_cache s) o) as [-> ->]. done.
Qed.
End Recency.

Section CacheClaims.
Context {K V : Type} `{EqDecision K}.

Lemma LRUCache_has_absent (c : LRUCache.t K V) key now :
  key ∉ LRUCache.keys c -> (LRUCache.has c key now).1 = false.
Proof.
  intros Hk. apply JsMap_get_None in Hk. unfold LRUCache.has. by rewrite Hk.
Qed.

(** C3.  Capacity 2: after [set(A)], [set(B)], [get(A)] (a hit), [set(C)]
    the cache holds exactly [A] and [C], [B] is gone.  In general, after
    any history on a freshly constructed cache of capacity at least 1,
    inserting a new key into a full cache removes exactly one key, the one
    whose last touch ([set], or [get] that hit) is the oldest, and leaves
    every other entry as it was. *)
Theorem LRUCache_evicts_least_recently_touched :
  (forall (A B C : K) (vA vB vC : V) (ttl tA tB tG tC : Z) (c0 : LRUCache.t K V),
      A ≠ B -> A ≠ C -> B ≠ C ->
      tG - tA <= ttl ->
      LRUCache.new 2 ttl = Ok c0 ->
      let c1 := LRUCache.set c0 A vA tA in
      let c2 := LRUCache.set c1 B vB tB in
      let r := LRUCache.get c2 A tG in
      let c4 := LRUCache.set r.2 C vC tC in
      r.1 = Some vA
      /\ LRUCache.keys c4 = [A; C]
      /\ (forall now, (LRUCache.has c4 B now).1 = false)
      /\ (forall now, (LRUCache.get c4 B now).1 = None)
      /\ (forall now, now - tA <= ttl -> now - tC <= ttl ->
            (LRUCache.has c4 A now).1 = true /\ (LRUCache.has c4 C now).1 = true
            /\ (LRUCache.get c4 A now).1 = Some vA /\ (LRUCache.get c4 C now).1 = Some vC))
  /\
  (forall (maxSize ttl : Z) (c0 : LRUCache.t K V) (ops : list LRUCache.op)
          (key : K) (v : V) (now : Z),
      LRUCache.new maxSize ttl = Ok c0 ->
      1 <= maxSize ->
      let s := LRUCache.run c0 ops in
      let c := LRUCache.now_cache s in
      key ∉ LRUCache.keys c ->
      maxSize <= JsMap.size (LRUCache.cache c) ->
      exists victim rest,
        LRUCache.keys c = victim :: rest
        /\ LRUCache.keys (LRUCache.set c key v now) = rest ++ [key]
        /\ (forall k, k ∈ rest ->
              (LRUCache.last_touch s victim < LRUCache.last_touch s k)%nat)
        /\ (forall k, k ∈ rest ->
              JsMap.get k (LRUCache.cache (LRUCache.set c key v now))
              = JsMap.get k (LRUCache.cache c))).
Proof.
  split.
  - intros A B C vA vB vC ttl tA tB tG tC c0 HAB HAC HBC Hfresh [= <-] c1 c2 r c4.
    assert (Hc2 : c2 = LRUCache.mk [(A, LRUCache.mkEntry vA tA 1); (B, LRUCache.mkEntry vB tB 1)] 2 ttl).
    { subst c2 c1. unfold LRUCache.set, JsMap.has. simpl.
      destruct (decide (B = A)); [congruence|]. simpl.
      destruct (decide (B = A)); [congruence|]. done. }
    assert (Hr : r = (Some vA,
                      LRUCache.mk [(B, LRUCache.mkEntry vB tB 1); (A, LRUCache.mkEntry vA tA 2)] 2 ttl)).
    { subst r. rewrite Hc2. unfold LRUCache.get. simpl.
      destruct (decide (A = A)); [|done]. simpl.
      destruct (Z.gtb_spec (tG - tA) ttl); [lia|].
      destruct (decide (A = B)); [congruence|]. simpl.
      destruct (decide (A = B)); [congruence|]. done. }
    assert (Hc4 : c4 = LRUCache.mk [(A, LRUCache.mkEntry vA tA 2); (C, LRUCache.mkEntry vC tC 1)] 2 ttl).
    { subst c4. rewrite Hr. unfold LRUCache.set, JsMap.has. simpl.
      destruct (decide (C = B)); [congruence|].
      destruct (decide (C = A)); [congruence|]. simpl.
      destruct (decide (B = B)); [|done].
      destruct (decide (B = A)); [congruence|]. simpl.
      destruct (decide (C = A)); [congruence|]. done. }
    rewrite Hr, Hc4. split; [done|]. split; [done|].
    unfold LRUCache.has, LRUCache.get. simpl.
    destruct (decide (B = A)); [congruence|].
    destruct (decide (B = C)); [congruence|].
    destruct (decide (A = A)); [|done].
    destruct (decide (C = A)); [congruence|].
    destruct (decide (C = C)); [|done].
    split; [done|]. split; [done|]. intros now HA HC. simpl.
    destruct (Z.gtb_spec (now - tA) ttl); [lia|].
    destruct (Z.gtb_spec (now - tC) ttl); [lia|]. done.
  - intros maxSize ttl c0 ops key v now Hnew Hmax s c Hkey Hfull.
    destruct (recency_inv_run maxSize ttl c0 ops Hnew) as [Hsorted _].
    destruct (LRUCache_run_config maxSize ttl c0 ops Hnew) as [Hms _].
    fold s in Hsorted, Hms. fold c in Hsorted, Hms.
    unfold LRUCache.keys in *.
    destruct (LRUCache.cache c) as [|[victim e0] rest] eqn:Hc.
    { unfold JsMap.size in Hfull. simpl in Hfull. lia. }
    unfold JsMap.keys in Hsorted, Hkey. simpl in Hsorted, Hkey.
    apply StronglySorted_cons in Hsorted as [Hhead Hrest].
    assert (Hv : victim ∉ JsMap.keys rest).
    { intros Hin. rewrite Forall_forall in Hhead. specialize (Hhead _ Hin). lia. }
    assert (Hg : JsMap.get key (LRUCache.cache c) = None).
    { apply JsMap_get_None. by rewrite Hc. }
    assert (Hfull' : LRUCache.maxSize c <= JsMap.size (LRUCache.cache c)).
    { rewrite Hms, Hc. exact Hfull. }
    rewrite (LRUCache_set_full _ _ _ _ _ _ _ Hc Hv Hg Hfull'). simpl.
    exists victim, (JsMap.keys rest). split; [done|]. split; [apply JsMap_keys_snoc|]. split.
    + intros k Hk. rewrite Forall_forall in Hhead. by apply Hhead.
    + intros k Hk. rewrite JsMap_get_snoc.
      destruct (decide (k = victim)) as [->|Hne]; [done|].
      destruct (JsMap.get k rest) eqn:Hgk; [done|].
      apply JsMap_get_None in Hgk. done.
Qed.
End CacheClaims.

(** ** Facts about the rate limiter *)

Section RateLimiterFacts.
Implicit Types (rl : RateLimiter.t) (b : RateLimiter.Bucket).

Lemma RateLimiter_isAllowed_config rl identifier cost now :
  RateLimiter.capacity (RateLimiter.isAllowed rl identifier cost now).2 = RateLimiter.capacity rl
  /\ RateLimiter.refillRate (RateLimiter.isAllowed rl identifier cost now).2
     = RateLimiter.refillRate rl
  /\ RateLimiter.windowMs (RateLimiter.isAllowed rl identifier cost now).2
     = RateLimiter.windowMs rl.
Proof. unfold RateLimiter.isAllowed. by destruct (_ >=? _). Qed.

Lemma RateLimiter_step_config rl o :
  RateLimiter.capacity (RateLimiter.step rl o) = RateLimiter.capacity rl.
Proof.
  destruct o; simpl; try done. apply RateLimiter_isAllowed_config.
Qed.

Lemma RateLimiter_isAllowed_unfold rl identifier cost now :
  RateLimiter.isAllowed rl identifier cost now =
    let bucket := RateLimiter.refilled rl identifier now in
    if RateLimiter.tokens bucket >=? cost then
      (true, RateLimiter.with_buckets rl
               (<[identifier := RateLimiter.mkBucket (RateLimiter.tokens bucket - cost)
                                  (RateLimiter.lastRefill bucket)]> (RateLimiter.buckets rl)))
    else
      (false, RateLimiter.with_buckets rl (<[identifier := bucket]> (RateLimiter.buckets rl))).
Proof. reflexivity. Qed.

Lemma refilled_upper rl identifier now :
  (forall b, RateLimiter.buckets rl !! identifier = Some b ->
             RateLimiter.tokens b <= RateLimiter.capacity rl) ->
  RateLimiter.tokens (RateLimiter.refilled rl identifier now) <= RateLimiter.capacity rl.
Proof.
  intros Hb. unfold RateLimiter.refilled.
  destruct (RateLimiter.buckets rl !! identifier) as [b|].
  - specialize (Hb b eq_refl). destruct (_ >? 0); simpl; lia.
  - destruct (_ >? 0); simpl; lia.
Qed.

Lemma refilled_lower rl identifier now :
  0 <= RateLimiter.capacity rl ->
  (forall b, RateLimiter.buckets rl !! identifier = Some b -> 0 <= RateLimiter.tokens b) ->
  0 <= RateLimiter.tokens (RateLimiter.refilled rl identifier now).
Proof.
  intros Hcap Hb. unfold RateLimiter.refilled.
  destruct (RateLimiter.buckets rl !! identifier) as [b|].
  - specialize (Hb b eq_refl).
    destruct (Z.gtb_spec (RateLimiter.tokensToAdd rl b now) 0); simpl; lia.
  - destruct (Z.gtb_spec (RateLimiter.tokensToAdd rl
               (RateLimiter.mkBucket (RateLimiter.capacity rl) now) now) 0); simpl; lia.
Qed.

Lemma tokens_capped_step rl o :
  RateLimiter.op_ok o -> RateLimiter.tokens_capped rl -> RateLimiter.tokens_capped (RateLimiter.step rl o).
Proof.
  intros Hok Hinv. destruct o as [identifier cost now|identifier now|identifier|now]; simpl.
  - simpl in Hok. rewrite RateLimiter_isAllowed_unfold. cbv zeta.
    pose proof (refilled_upper rl identifier now (Hinv identifier)) as Hup.
    destruct (Z.geb_spec (RateLimiter.tokens (RateLimiter.refilled rl identifier now)) cost);
      intros i b; simpl; rewrite lookup_insert; case_decide; subst;
      try (intros [= <-]; simpl; lia); apply Hinv.
  - done.
  - intros i b. simpl. intros [_ Hl]%lookup_delete_Some. by eapply Hinv.
  - intros i b. simpl. intros Hl%map_lookup_filter_Some_1_1. by eapply Hinv.
Qed.

Lemma bucket_inv_step rl o :
  0 <= RateLimiter.capacity rl ->
  RateLimiter.op_ok o -> RateLimiter.bucket_inv rl -> RateLimiter.bucket_inv (RateLimiter.step rl o).
Proof.
  intros Hcap Hok Hinv. destruct o as [identifier cost now|identifier now|identifier|now]; simpl.
  - simpl in Hok. rewrite RateLimiter_isAllowed_unfold. cbv zeta.
    pose proof (refilled_upper rl identifier now
                  (fun b Hb => proj2 (Hinv identifier b Hb))) as Hup.
    pose proof (refilled_lower rl identifier now Hcap
                  (fun b Hb => proj1 (Hinv identifier b Hb))) as Hlo.
    destruct (Z.geb_spec (RateLimiter.tokens (RateLimiter.refilled rl identifier now)) cost);
      intros i b; simpl; rewrite lookup_insert; case_decide; subst;
      try (intros [= <-]; simpl; lia); apply Hinv.
  - done.
  - intros i b. simpl. intros [_ Hl]%lookup_delete_Some. by eapply Hinv.
  - intros i b. simpl. intros Hl%map_lookup_filter_Some_1_1. by eapply Hinv.
Qed.

Lemma bucket_inv_run rl ops :
  0 <= RateLimiter.capacity rl ->
  Forall RateLimiter.op_ok ops ->
  RateLimiter.bucket_inv rl ->
  RateLimiter.bucket_inv (foldl RateLimiter.step rl ops)
  /\ RateLimiter.capacity (foldl RateLimiter.step rl ops) = RateLimiter.capacity rl.
Proof.
  intros Hcap Hops. revert rl Hcap.
  induction Hops as [|o ops Ho Hops IH]; intros rl Hcap Hinv; simpl; [done|].
  destruct (IH (RateLimiter.step rl o)) as [IH1 IH2].
  - by rewrite RateLimiter_step_config.
  - by apply bucket_inv_step.
  - split; [done|]. by rewrite IH2, RateLimiter_step_config.
Qed.

Lemma tokens_capped_run rl ops :
  Forall RateLimiter.op_ok ops ->
  RateLimiter.tokens_capped rl ->
  RateLimiter.tokens_capped (foldl RateLimiter.step rl ops)
  /\ RateLimiter.capacity (foldl RateLimiter.step rl ops) = RateLimiter.capacity rl.
Proof.
  intros Hops. revert rl.
  induction Hops as [|o ops Ho Hops IH]; intros rl Hinv; simpl; [done|].
  destruct (IH (RateLimiter.step rl o)) as [IH1 IH2].
  - by apply tokens_capped_step.
  - split; [done|]. by rewrite IH2, RateLimiter_step_config.
Qed.

Lemma RateLimiter_getRemaining_bounds rl identifier now :
  0 <= RateLimiter.capacity rl ->
  0 <= RateLimiter.getRemaining rl identifier now <= RateLimiter.capacity rl.
Proof.
  intros Hcap. unfold RateLimiter.getRemaining.
  destruct (RateLimiter.buckets rl !! identifier); lia.
Qed.
End RateLimiterFacts.

Section RateLimiterScenario.
Implicit Types (rl : RateLimiter.t).

Lemma refilled_same_instant rl identifier j now :
  RateLimiter.buckets rl !! identifier = Some (RateLimiter.mkBucket j now) ->
  RateLimiter.refilled rl identifier now = RateLimiter.mkBucket j now.
Proof.
  intros Hb. unfold RateLimiter.refilled, RateLimiter.tokensToAdd. rewrite Hb. simpl.
  by rewrite Z.sub_diag, Z.mul_0_l.
Qed.

(** Unit requests at the clock reading of the last refill: the bucket's
    [j] tokens let the first [j] of them pass. *)
Lemma RateLimiter_attempts_same_instant n :
  forall rl identifier now j,
    RateLimiter.buckets rl !! identifier = Some (RateLimiter.mkBucket j now) ->
    0 <= j ->
    (RateLimiter.attempts rl identifier now n).1
      = repeat true (Nat.min n (Z.to_nat j)) ++ repeat false (n - Z.to_nat j)
    /\ RateLimiter.buckets (RateLimiter.attempts rl identifier now n).2 !! identifier
       = Some (RateLimiter.mkBucket (j - Z.of_nat (Nat.min n (Z.to_nat j))) now)
    /\ RateLimiter.capacity (RateLimiter.attempts rl identifier now n).2
       = RateLimiter.capacity rl
    /\ RateLimiter.refillRate (RateLimiter.attempts rl identifier now n).2
       = RateLimiter.refillRate rl.
Proof.
  induction n as [|n IH]; intros rl identifier now j Hb Hj.
  - simpl. rewrite Hb. repeat split. f_equal. f_equal. lia.
  - simpl. rewrite RateLimiter_isAllowed_unfold, (refilled_same_instant _ _ _ _ Hb).
    cbv zeta. simpl RateLimiter.tokens. simpl RateLimiter.lastRefill.
    destruct (Z.geb_spec j 1) as [Hge|Hlt].
    + set (rl' := RateLimiter.with_buckets rl _).
      destruct (IH rl' identifier now (j - 1)) as (IH1 & IH2 & IH3 & IH4).
      { subst rl'. simpl. apply lookup_insert_eq. }
      { lia. }
      destruct (RateLimiter.attempts rl' identifier now n) as [oks rl''].
      simpl in *. rewrite IH1, IH2, IH3, IH4.
      replace (Z.to_nat j) with (S (Z.to_nat (j - 1))) by lia.
      simpl. repeat split. f_equal. f_equal. lia.
    + assert (j = 0) as -> by lia.
      set (rl' := RateLimiter.with_buckets rl _).
      destruct (IH rl' identifier now 0) as (IH1 & IH2 & IH3 & IH4).
      { subst rl'. simpl. apply lookup_insert_eq. }
      { lia. }
      destruct (RateLimiter.attempts rl' identifier now n) as [oks rl''].
      simpl in *. rewrite IH1, IH2, IH3, IH4.
      rewrite Nat.min_0_r, Nat.sub_0_r. simpl. repeat split.
Qed.

(** C4 (amended).  For a limiter of non-negative capacity and requests of
    non-negative cost, every bucket keeps [0 <= tokens <= capacity] through
    any sequence of [isAllowed], [getRemaining], [reset] and [cleanup], and
    [getRemaining] answers within the same bounds.  For capacity 10 and
    1 token per second, on an identifier without a bucket: ten immediate
    unit requests are admitted and the eleventh is denied; [t] whole
    seconds later, of [n] unit requests exactly the first [min t 10] are
    admitted, however large [t] is. *)
Theorem RateLimiter_tokens_bounded_and_refill_capped :
  (forall (capacity refillRate windowMs : Z) (rl0 : RateLimiter.t)
          (ops : list RateLimiter.op),
      0 <= capacity ->
      RateLimiter.new capacity refillRate windowMs = Ok rl0 ->
      Forall RateLimiter.op_ok ops ->
      RateLimiter.bucket_inv (foldl RateLimiter.step rl0 ops)
      /\ forall identifier now,
           0 <= RateLimiter.getRemaining (foldl RateLimiter.step rl0 ops) identifier now
             <= capacity)
  /\
  (forall (rl : RateLimiter.t) (identifier : string) (t0 t : Z) (n : nat),
      RateLimiter.capacity rl = 10 ->
      RateLimiter.refillRate rl = 1 ->
      RateLimiter.buckets rl !! identifier = None ->
      0 <= t ->
      let burst := RateLimiter.attempts rl identifier t0 11 in
      burst.1 = repeat true 10 ++ [false]
      /\ (RateLimiter.attempts burst.2 identifier (t0 + 1000 * t) n).1
         = repeat true (Nat.min n (Z.to_nat (Z.min t 10)))
             ++ repeat false (n - Z.to_nat (Z.min t 10))).
Proof.
  split.
  - intros capacity refillRate windowMs rl0 ops Hcap [= <-] Hops.
    destruct (bucket_inv_run (RateLimiter.mk ∅ capacity refillRate windowMs) ops)
      as [Hinv Hc]; [done | done | |].
    { intros i b. simpl. by rewrite lookup_empty. }
    split; [done|]. intros identifier now.
    pose proof (RateLimiter_getRemaining_bounds
                  (foldl RateLimiter.step (RateLimiter.mk ∅ capacity refillRate windowMs) ops)
                  identifier now) as Hg.
    simpl in Hc. rewrite Hc in Hg. by apply Hg.
  - intros rl identifier t0 t n Hcap Hrate Hnone Ht burst.
    (* the first request creates the bucket and takes one of its 10 tokens *)
    assert (Hfirst : RateLimiter.isAllowed rl identifier 1 t0
              = (true, RateLimiter.with_buckets rl
                         (<[identifier := RateLimiter.mkBucket 9 t0]> (RateLimiter.buckets rl)))).
    { rewrite RateLimiter_isAllowed_unfold.
      unfold RateLimiter.refilled, RateLimiter.tokensToAdd. rewrite Hnone, Hcap. simpl.
      by rewrite Z.sub_diag, Z.mul_0_l. }
    set (rl1 := RateLimiter.with_buckets rl _) in Hfirst.
    destruct (RateLimiter_attempts_same_instant 10 rl1 identifier t0 9)
      as (Hb1 & Hb2 & Hb3 & Hb4).
    { subst rl1. simpl. apply lookup_insert_eq. }
    { lia. }
    assert (Hburst : burst = (true :: (RateLimiter.attempts rl1 identifier t0 10).1,
                              (RateLimiter.attempts rl1 identifier t0 10).2)).
    { subst burst. change (RateLimiter.attempts rl identifier t0 11)
        with (let '(ok, rl') := RateLimiter.isAllowed rl identifier 1 t0 in
              let '(oks, rl'') := RateLimiter.attempts rl' identifier t0 10 in
              (ok :: oks, rl'')).
      rewrite Hfirst. by destruct (RateLimiter.attempts rl1 identifier t0 10). }
    rewrite Hburst. cbn [fst snd]. split.
    { rewrite Hb1. reflexivity. }
    set (rl2 := (RateLimiter.attempts rl1 identifier t0 10).2) in *.
    change (9 - Z.of_nat (Nat.min 10 (Z.to_nat 9))) with 0 in Hb2.
    assert (Hcap2 : RateLimiter.capacity rl2 = 10) by (rewrite Hb3; subst rl1; done).
    assert (Hrate2 : RateLimiter.refillRate rl2 = 1) by (rewrite Hb4; subst rl1; done).
    destruct (decide (t = 0)) as [->|Hpos].
    + rewrite Z.mul_0_r, Z.add_0_r.
      destruct (RateLimiter_attempts_same_instant n rl2 identifier t0 0 Hb2) as (Hr & _);
        [lia|]. exact Hr.
    + destruct n as [|n]; [done|].
      assert (Hrefill : RateLimiter.refilled rl2 identifier (t0 + 1000 * t)
                        = RateLimiter.mkBucket (Z.min 10 t) (t0 + 1000 * t)).
      { unfold RateLimiter.refilled, RateLimiter.tokensToAdd. rewrite Hb2, Hcap2, Hrate2.
        simpl RateLimiter.lastRefill. simpl RateLimiter.tokens.
        replace ((t0 + 1000 * t - t0) * 1) with (t * 1000) by lia.
        rewrite Z.div_mul by lia.
        destruct (Z.gtb_spec t 0); [|lia]. by rewrite Z.add_0_l. }
      simpl RateLimiter.attempts.
      rewrite RateLimiter_isAllowed_unfold, Hrefill. cbv zeta.
      simpl RateLimiter.tokens. simpl RateLimiter.lastRefill.
      destruct (Z.geb_spec (Z.min 10 t) 1); [|lia].
      set (rl3 := RateLimiter.with_buckets rl2 _).
      destruct (RateLimiter_attempts_same_instant n rl3 identifier (t0 + 1000 * t)
                  (Z.min 10 t - 1)) as (Hr & _).
      { subst rl3. simpl. apply lookup_insert_eq. }
      { lia. }
      destruct (RateLimiter.attempts rl3 identifier (t0 + 1000 * t) n) as [oks rl4].
      simpl in Hr. simpl. rewrite Hr.
      replace (Z.to_nat (Z.min t 10)) with (S (Z.to_nat (Z.min 10 t - 1))) by lia.
      reflexivity.
Qed.
End RateLimiterScenario.

(** C4: [isAllowed] does not check the sign of its argument, and the
    constructor does not check the capacity.  A request of cost [-5] on a
    fresh limiter of capacity 10 is "admitted" and leaves 15 tokens in the
    bucket; a limiter of capacity [-1] creates its buckets with [-1]
    tokens. *)
Lemma RateLimiter_negative_cost_breaks_the_bounds :
  (exists rl0, RateLimiter.new 10 1 60000 = Ok rl0
     /\ (RateLimiter.isAllowed rl0 "u" (-5) 0).1 = true
     /\ RateLimiter.buckets (RateLimiter.step rl0 (RateLimiter.OIsAllowed "u" (-5) 0)) !! "u"
        = Some (RateLimiter.mkBucket 15 0)
     /\ ¬ RateLimiter.bucket_inv (RateLimiter.step rl0 (RateLimiter.OIsAllowed "u" (-5) 0)))
  /\ (exists rl0, RateLimiter.new (-1) 1 60000 = Ok rl0
       /\ RateLimiter.buckets (RateLimiter.step rl0 (RateLimiter.OIsAllowed "u" 1 0)) !! "u"
          = Some (RateLimiter.mkBucket (-1) 0)
       /\ ¬ RateLimiter.bucket_inv (RateLimiter.step rl0 (RateLimiter.OIsAllowed "u" 1 0))).
Proof.
  split.
  - exists (RateLimiter.mk ∅ 10 1 60000). split; [reflexivity|]. split; [reflexivity|].
    split; [reflexivity|]. intros Hinv.
    destruct (Hinv "u"%string (RateLimiter.mkBucket 15 0) eq_refl) as [_ Hle].
    vm_compute in Hle. by apply Hle.
  - exists (RateLimiter.mk ∅ (-1) 1 60000). split; [reflexivity|]. split; [reflexivity|].
    intros Hinv.
    destruct (Hinv "u"%string (RateLimiter.mkBucket (-1) 0) eq_refl) as [Hle _].
    vm_compute in Hle. by apply Hle.
Qed.

(** ** Staleness and degenerate configurations *)

Section CacheStaleness.
Context {K V : Type} `{EqDecision K}.
Implicit Types (c : LRUCache.t K V) (key : K) (v : V).

Lemma LRUCache_set_lookup c key v t :
  LRUCache.ttl (LRUCache.set c key v t) = LRUCache.ttl c
  /\ exists n, JsMap.get key (LRUCache.cache (LRUCache.set c key v t))
               = Some (LRUCache.mkEntry v t n).
Proof.
  unfold LRUCache.set, JsMap.has.
  destruct (JsMap.get key (LRUCache.cache c)) as [entry|] eqn:Hg; simpl.
  - split; [done|]. exists (LRUCache.accessCount entry + 1).
    rewrite JsMap_refresh, JsMap_get_snoc, JsMap_get_delete.
    by destruct (decide (key = key)).
  - split; [done|]. exists 1.
    set (m := if _ >=? _ then _ else _).
    assert (Hm : JsMap.get key m = None).
    { subst m. destruct (_ >=? _); [|done].
      destruct (JsMap.first_key (LRUCache.cache c)) as [k0|]; [|done].
      destruct (decide (k0 = key)) as [->|Hne]; [apply JsMap_get_delete|].
      by rewrite JsMap_get_delete_ne. }
    rewrite (JsMap_set_absent _ _ _ Hm), JsMap_get_snoc, Hm.
    by destruct (decide (key = key)).
Qed.

(** Reading a key right after it was set: it is there unless more than
    [ttl] milliseconds have passed. *)
Lemma LRUCache_read_after_set c key v t now :
  (LRUCache.get (LRUCache.set c key v t) key now).1
    = (if now - t >? LRUCache.ttl c then None else Some v)
  /\ (LRUCache.has (LRUCache.set c key v t) key now).1
    = negb (now - t >? LRUCache.ttl c).
Proof.
  destruct (LRUCache_set_lookup c key v t) as [Httl [n Hg]].
  unfold LRUCache.get, LRUCache.has. rewrite Hg, Httl. simpl.
  by destruct (now - t >? LRUCache.ttl c).
Qed.

Lemma LRUCache_run_invariant (P : LRUCache.t K V -> Prop) c0 (ops : list LRUCache.op) :
  P c0 -> (forall c o, P c -> P (LRUCache.step c o)) ->
  P (LRUCache.now_cache (LRUCache.run c0 ops)).
Proof.
  intros H0 Hstep. unfold LRUCache.run.
  set (s0 := LRUCache.mkTraced _ _ _).
  assert (Hinit : P (LRUCache.now_cache s0)) by done.
  revert Hinit. generalize s0.
  induction ops as [|o ops IH]; intros s Hs; simpl; [done|].
  apply IH. simpl. by apply Hstep.
Qed.


End CacheStaleness.

Section DegenerateConfigurations.
Context {K V : Type} `{EqDecision K}.

(** C10 (amended).  In a cache with [ttl = 0], a [get] or [has] of a key
    at a clock reading later than the reading of its [set] reports the key
    absent; at the very reading of the [set] the entry is still served. *)
Theorem LRUCache_ttl_zero_stale_from_next_millisecond :
  forall (c : LRUCache.t K V) (key : K) (v : V) (t_set now : Z),
    LRUCache.ttl c = 0 ->
    (t_set < now ->
       (LRUCache.get (LRUCache.set c key v t_set) key now).1 = None
       /\ (LRUCache.has (LRUCache.set c key v t_set) key now).1 = false)
    /\ (now = t_set ->
          (LRUCache.get (LRUCache.set c key v t_set) key now).1 = Some v
          /\ (LRUCache.has (LRUCache.set c key v t_set) key now).1 = true).
Proof.
  intros c key v t_set now Httl.
  destruct (LRUCache_read_after_set c key v t_set now) as [-> ->]. rewrite Httl.
  split; intros Ht; destruct (Z.gtb_spec (now - t_set) 0); try lia; done.
Qed.

End DegenerateConfigurations.

(** ** Concrete runs of the cache and the limiter *)

(** C3, on keys ["A"], ["B"], ["C"]. *)
Lemma LRUCache_evicts_least_recently_touched_witness :
  (let c0 : LRUCache.t string Z := LRUCache.mk [] 2 3600000 in
   let c2 := LRUCache.set (LRUCache.set c0 "A" 1 1000) "B" 2 1001 in
   let c4 := LRUCache.set (LRUCache.get c2 "A" 1002).2 "C" 3 1003 in
   LRUCache.keys c4 = ["A"; "C"])
  /\ (let s := LRUCache.run (LRUCache.mk [] 2 3600000)
                 [LRUCache.OSet "A" 1 1000; LRUCache.OSet "B" 2 1001; LRUCache.OGet "A" 1002] in
      exists victim rest,
        LRUCache.keys (LRUCache.now_cache s) = victim :: rest
        /\ LRUCache.keys (LRUCache.set (LRUCache.now_cache s) "C" 3 1003) = rest ++ ["C"]).
Proof.
  destruct (@LRUCache_evicts_least_recently_touched string Z _) as [Hscenario Hgeneral].
  split.
  - apply (Hscenario "A" "B" "C" 1 2 3 3600000 1000 1001 1002 1003
             (LRUCache.mk [] 2 3600000)); [done | done | done | lia | reflexivity].
  - destruct (Hgeneral 2 3600000 (LRUCache.mk [] 2 3600000)
                [LRUCache.OSet "A" 1 1000; LRUCache.OSet "B" 2 1001; LRUCache.OGet "A" 1002]
                "C" 3 1003) as (victim & rest & Hk & Hk' & _).
    + reflexivity.
    + lia.
    + apply (bool_decide_unpack _). vm_compute. exact I.
    + vm_compute. discriminate.
    + exists victim, rest. split; [exact Hk | exact Hk'].
Defined.

(** C4, at capacity 10, one token per second, after a wait of 100 seconds. *)
Lemma RateLimiter_tokens_bounded_and_refill_capped_witness :
  RateLimiter.bucket_inv
    (foldl RateLimiter.step (RateLimiter.mk ∅ 10 1 60000)
       [RateLimiter.OIsAllowed "u" 3 0; RateLimiter.OCleanup 5; RateLimiter.OIsAllowed "u" 1 70000])
  /\ (RateLimiter.attempts
        (RateLimiter.attempts (RateLimiter.mk ∅ 10 1 60000) "u" 0 11).2 "u" (0 + 1000 * 100) 12).1
     = repeat true 10 ++ repeat false 2.
Proof.
  destruct RateLimiter_tokens_bounded_and_refill_capped as [Hinv Hscenario].
  split.
  - apply (Hinv 10 1 60000 (RateLimiter.mk ∅ 10 1 60000)); [lia | reflexivity |].
    repeat constructor; simpl; lia.
  - apply (Hscenario (RateLimiter.mk ∅ 10 1 60000) "u" 0 100 12%nat);
      [reflexivity | reflexivity | reflexivity | lia].
Defined.

(** C10: with [ttl = 0], a read in the millisecond of the [set] is a hit. *)
Lemma LRUCache_ttl_zero_same_millisecond_hit :
  exists c0 : LRUCache.t string Z,
    LRUCache.new 100 0 = Ok c0
    /\ (LRUCache.get (LRUCache.set c0 "k" 7 1000) "k" 1000).1 = Some 7
    /\ (LRUCache.has (LRUCache.set c0 "k" 7 1000) "k" 1000).1 = true.
Proof. exists (LRUCache.mk [] 100 0). repeat split. Qed.

Lemma LRUCache_ttl_zero_stale_from_next_millisecond_witness :
  LRUCache.ttl (LRUCache.mk ([] : list (string * LRUCache.CacheEntry Z)) 100 0) = 0
  /\ 1000 < 1001
  /\ (LRUCache.get (LRUCache.set (LRUCache.mk [] 100 0) "k" 7 1000) "k" 1001).1 = None.
Proof.
  split; [reflexivity|]. split; [lia|].
  destruct (LRUCache_ttl_zero_stale_from_next_millisecond
              (LRUCache.mk ([] : list (string * LRUCache.CacheEntry Z)) 100 0) "k" 7 1000 1001
              eq_refl) as [Hlater _].
  apply Hlater. lia.
Defined.



Example decimal_examples :
  decimal (inject_Z 5) = "5" /\ decimal (7 # 10) = "0.7" /\ decimal (-3 # 4) = "-0.75".
Proof. vm_compute. repeat split. Qed.

Example hashQuery_preimage :
  @hashQuery samplePlatform "u1" "foo" 5 (7 # 10) = "sha256(u1:foo:5:0.7)".
Proof. vm_compute. reflexivity. Qed.

Example includes_examples :
  includes "hello world" "lo w" = true /\ includes "abc" "" = true
  /\ includes "abc" "abcd" = false /\ includes "abc" "d" = false
  /\ @toLowerCase samplePlatform "Call FOO tomorrow" = "call foo tomorrow"%string.
Proof. vm_compute. repeat split. Qed.

(** ** Owner isolation of [deleteMemory] *)

Lemma NoDup_fmap_eq {A B : Type} (f : A -> B) (l : list A) (x y : A) :
  NoDup (f <$> l) -> x ∈ l -> y ∈ l -> f x = f y -> x = y.
Proof.
  induction l as [|a l IH]; csimpl; intros Hnd Hx Hy Hf.
  - by apply elem_of_nil in Hx.
  - apply NoDup_cons in Hnd as [Ha Hnd].
    apply elem_of_cons in Hx as [->|Hx]; apply elem_of_cons in Hy as [->|Hy]; auto.
    + exfalso. apply Ha. rewrite Hf. by apply list_elem_of_fmap_2.
    + exfalso. apply Ha. rewrite <- Hf. by apply list_elem_of_fmap_2.
Qed.

Lemma filter_all {A : Type} (P : A -> Prop) `{forall x, Decision (P x)} (l : list A) :
  Forall P l -> filter P l = l.
Proof.
  induction 1 as [|x l Hx Hl IH]; [done|].
  rewrite filter_cons_True by done. by rewrite IH.
Qed.

Lemma filter_none {A : Type} (P : A -> Prop) `{forall x, Decision (P x)} (l : list A) :
  Forall (fun x => ¬ P x) l -> filter P l = [].
Proof.
  induction 1 as [|x l Hx Hl IH]; [done|].
  rewrite filter_cons_False by done. exact IH.
Qed.

Lemma with_memoryTable_same (w : World) : with_memoryTable w (memoryTable w) = w.
Proof. by destruct w. Qed.

(** C2.  In a table whose ids are unique (the primary key), deleting a row's
    id on behalf of another user changes nothing, never answers [true], and
    answers [false] whenever the statement runs; the caller gets the very
    answer it would get if the row did not exist. *)
Theorem deleteMemory_foreign_row_is_not_found :
  forall (env : StoreEnv) (w : World) (row : Memory) (other : string),
    NoDup (id <$> memoryTable w) ->
    row ∈ memoryTable w ->
    userId row ≠ other ->
    let without :=
      with_memoryTable w (filter (fun m => id m ≠ id row) (memoryTable w)) in
    (deleteMemory env w (id row) other).2 = w
    /\ (dbFailure env = None -> (deleteMemory env w (id row) other).1 = Ok false)
    /\ (deleteMemory env w (id row) other).1 ≠ Ok true
    /\ (deleteMemory env w (id row) other).1 = (deleteMemory env without (id row) other).1.
Proof.
  intros env w row other Hpk Hrow Howner without.
  assert (Hnone : Forall (fun m => ¬ (id m = id row /\ userId m = other)) (memoryTable w)).
  { apply Forall_forall. intros m Hm [Hid Hu].
    assert (m = row) as -> by (eapply NoDup_fmap_eq; eauto). done. }
  assert (Hnone' : Forall (fun m => ¬ (id m = id row /\ userId m = other))
                     (memoryTable without)).
  { subst without. simpl. apply Forall_forall. intros m Hm [Hid _].
    apply list_elem_of_filter in Hm as [Hne _]. done. }
  unfold deleteMemory. destruct (dbFailure env) as [e|]; simpl.
  - repeat split; done.
  - rewrite (filter_all _ _ Hnone), (filter_none _ _ Hnone), with_memoryTable_same.
    rewrite (filter_none _ _ Hnone'). repeat split; done.
Qed.

Lemma deleteMemory_foreign_row_is_not_found_witness :
  let victimRow := mkMemory "m1" "victim" "my secret" None "{}" "medium" 100 100 in
  let w := initialWorld
             [victimRow; mkMemory "m2" "attacker" "mine" None "{}" "medium" 200 200] in
  let env := mkStoreEnv (mkProviderEnv true (fun _ => Err "unused"))
                        (fun _ _ _ _ _ => Err "unused") None in
  (deleteMemory env w "m1" "attacker").1 = Ok false
  /\ (deleteMemory env w "m1" "attacker").2 = w.
Proof.
  intros victimRow w env.
  destruct (deleteMemory_foreign_row_is_not_found env w victimRow "attacker")
    as (Hw & Hfalse & _).
  - apply (bool_decide_unpack _). vm_compute. exact I.
  - simpl. left.
  - simpl. discriminate.
  - split; [exact (Hfalse eq_refl) | exact Hw].
Defined.

(** ** The lexical fallback *)

Lemma insertByCreatedAtDesc_perm (m : Memory) (rows : list Memory) :
  insertByCreatedAtDesc m rows ≡ₚ m :: rows.
Proof.
  induction rows as [|r rows IH]; simpl; [done|].
  destruct (createdAt r <? createdAt m); [done|].
  rewrite IH. apply Permutation_swap.
Qed.

Lemma orderByCreatedAtDesc_perm (rows : list Memory) : orderByCreatedAtDesc rows ≡ₚ rows.
Proof.
  unfold orderByCreatedAtDesc. induction rows as [|r rows IH]; simpl; [done|].
  by rewrite insertByCreatedAtDesc_perm, IH.
Qed.

Lemma insertByCreatedAtDesc_sorted (m : Memory) (rows : list Memory) :
  StronglySorted (fun a b => createdAt b <= createdAt a) rows ->
  StronglySorted (fun a b => createdAt b <= createdAt a) (insertByCreatedAtDesc m rows).
Proof.
  induction rows as [|r rows IH]; simpl; intros Hs.
  - repeat constructor.
  - apply StronglySorted_cons in Hs as [Hr Hs].
    destruct (Z.ltb_spec (createdAt r) (createdAt m)) as [Hlt|Hge].
    + apply StronglySorted_cons. split.
      * constructor; [lia|]. eapply Forall_impl; [exact Hr|]. simpl. intros; lia.
      * apply StronglySorted_cons. done.
    + apply StronglySorted_cons. split; [|auto].
      rewrite insertByCreatedAtDesc_perm. constructor; [lia | done].
Qed.

Lemma orderByCreatedAtDesc_sorted (rows : list Memory) :
  StronglySorted (fun a b => createdAt b <= createdAt a) (orderByCreatedAtDesc rows).
Proof.
  unfold orderByCreatedAtDesc. induction rows as [|r rows IH]; simpl; [constructor|].
  by apply insertByCreatedAtDesc_sorted.
Qed.

Lemma selectRecent_mostRecentOf (rows : list Memory) (user : string) (limit : Z) :
  mostRecentOf rows user limit (selectRecent rows user limit).
Proof.
  unfold mostRecentOf, selectRecent.
  set (mine := filter (fun m => userId m = user) rows).
  set (n := Z.to_nat limit).
  pose proof (orderByCreatedAtDesc_sorted mine) as Hs.
  pose proof (orderByCreatedAtDesc_perm mine) as Hp.
  rewrite <- (take_drop n (orderByCreatedAtDesc mine)) in Hs.
  split; [|split].
  - rewrite length_take. by rewrite (Permutation_length Hp).
  - by apply StronglySorted_app_1_l in Hs.
  - exists (drop n (orderByCreatedAtDesc mine)). split.
    + by rewrite take_drop.
    + intros o r Ho Hr.
      exact (StronglySorted_app_1_elem_of _ _ _ _ _ Hs Ho Hr).
Qed.

Lemma textScore_containmentScored `{Platform} (query : string) (m : Memory) :
  memory (textScore query m) = m /\ containmentScored query (textScore query m).
Proof.
  unfold containmentScored, textScore. simpl. split; [done|].
  destruct (includes (toLowerCase (content m)) (toLowerCase query)); auto.
Qed.

Lemma textScore_memory `{Platform} (query : string) (rows : list Memory) :
  memory <$> map (textScore query) rows = rows.
Proof. induction rows as [|m rows IH]; csimpl; [done|]. by rewrite IH. Qed.

(** What the fallback answers when its own [select] runs. *)
Lemma fallbackTextSearch_served `{Platform} (env : StoreEnv) (w : World)
    (user query : string) (limit : Z) :
  dbFailure env = None ->
  exists ranked,
    fallbackTextSearch env w user query limit = Ok ranked
    /\ mostRecentOf (memoryTable w) user limit (memory <$> ranked)
    /\ Forall (containmentScored query) ranked.
Proof.
  intros Hdb. unfold fallbackTextSearch. rewrite Hdb.
  eexists. split; [reflexivity|]. split.
  - rewrite textScore_memory. apply selectRecent_mostRecentOf.
  - apply Forall_fmap, Forall_forall. intros m _. apply textScore_containmentScored.
Qed.

Lemma fallbackTextSearch_rejected `{Platform} (env : StoreEnv) (w : World)
    (user query : string) (limit : Z) (e : string) :
  dbFailure env = Some e -> fallbackTextSearch env w user query limit = Err e.
Proof. intros Hdb. unfold fallbackTextSearch. by rewrite Hdb. Qed.

(** ** The paths through [searchMemories] *)

Section SearchPaths.
Context `{Platform}.
Implicit Types (env : StoreEnv) (w : World) (clk : SearchClock).

Lemma searchMemories_try_denied env w user query limit threshold clk :
  (RateLimiter.isAllowed (memoryRateLimiter w) user 1 (t_start clk)).1 = false ->
  searchMemories_try env w user query limit threshold clk
  = (Err "Rate limit exceeded for memory search. Please try again later.",
     with_memoryRateLimiter w
       (RateLimiter.isAllowed (memoryRateLimiter w) user 1 (t_start clk)).2).
Proof.
  intros Hdenied. unfold searchMemories_try.
  destruct (RateLimiter.isAllowed (memoryRateLimiter w) user 1 (t_start clk)) as [allowed rl].
  simpl in Hdenied. by subst.
Qed.

Lemma searchMemories_try_hit env w user query limit threshold clk ranked :
  (RateLimiter.isAllowed (memoryRateLimiter w) user 1 (t_start clk)).1 = true ->
  (LRUCache.get (queryCache w) (hashQuery user query limit threshold) (t_start clk)).1
  = Some ranked ->
  searchMemories_try env w user query limit threshold clk
  = (Ok ranked,
     with_queryCache
       (with_memoryRateLimiter w
          (RateLimiter.isAllowed (memoryRateLimiter w) user 1 (t_start clk)).2)
       (LRUCache.get (queryCache w) (hashQuery user query limit threshold) (t_start clk)).2).
Proof.
  intros Hallowed Hhit. unfold searchMemories_try.
  destruct (RateLimiter.isAllowed (memoryRateLimiter w) user 1 (t_start clk)) as [allowed rl].
  simpl in Hallowed. subst allowed. simpl.
  destruct (LRUCache.get (queryCache w) (hashQuery user query limit threshold) (t_start clk))
    as [cached qc].
  simpl in Hhit. by subst.
Qed.

Lemma searchMemories_try_miss env w user query limit threshold clk :
  (RateLimiter.isAllowed (memoryRateLimiter w) user 1 (t_start clk)).1 = true ->
  (LRUCache.get (queryCache w) (hashQuery user query limit threshold) (t_start clk)).1
  = None ->
  searchMemories_try env w user query limit threshold clk
  = let cacheKey := hashQuery user query limit threshold in
    let qc := (LRUCache.get (queryCache w) cacheKey (t_start clk)).2 in
    let w2 := with_queryCache
                (with_memoryRateLimiter w
                   (RateLimiter.isAllowed (memoryRateLimiter w) user 1 (t_start clk)).2) qc in
    let eg := generateEmbedding (provider env) (gateway w) query
                (t_start clk) (t_embedded clk) in
    match eg.1 with
    | Err msg => (Err msg, with_gateway w2 eg.2)
    | Ok queryEmbedding =>
        let w4 := with_indexQueries (with_gateway w2 eg.2)
                    (indexQueries w ++ [(user, queryEmbedding, threshold, limit)]) in
        match similarityQuery env (memoryTable w) user queryEmbedding threshold limit with
        | Err msg => (Err msg, w4)
        | Ok typedResults =>
            (Ok typedResults,
             with_queryCache w4 (LRUCache.set qc cacheKey typedResults (t_ranked clk)))
        end
    end.
Proof.
  intros Hallowed Hmiss. unfold searchMemories_try.
  destruct (RateLimiter.isAllowed (memoryRateLimiter w) user 1 (t_start clk)) as [allowed rl].
  simpl in Hallowed. subst allowed. simpl.
  destruct (LRUCache.get (queryCache w) (hashQuery user query limit threshold) (t_start clk))
    as [cached qc].
  simpl in Hmiss. subst cached. simpl.
  destruct (generateEmbedding (provider env) (gateway w) query (t_start clk) (t_embedded clk))
    as [[queryEmbedding|msg] g]; simpl; [|done].
  by destruct (similarityQuery env (memoryTable w) user queryEmbedding threshold limit).
Qed.

Lemma fallbackTextSearch_table env w w' user query limit :
  memoryTable w' = memoryTable w ->
  fallbackTextSearch env w' user query limit = fallbackTextSearch env w user query limit.
Proof. intros Ht. unfold fallbackTextSearch. by rewrite Ht. Qed.

(** A cache hit, once the limiter has admitted the call. *)
Lemma searchMemories_hit env w user query limit threshold clk ranked :
  (RateLimiter.isAllowed (memoryRateLimiter w) user 1 (t_start clk)).1 = true ->
  (LRUCache.get (queryCache w)
     (hashQuery user query (default 5 limit) (default (7 # 10)%Q threshold)) (t_start clk)).1
  = Some ranked ->
  searchMemories env w user query limit threshold clk
  = (Ok ranked,
     with_queryCache
       (with_memoryRateLimiter w
          (RateLimiter.isAllowed (memoryRateLimiter w) user 1 (t_start clk)).2)
       (LRUCache.get (queryCache w)
          (hashQuery user query (default 5 limit) (default (7 # 10)%Q threshold))
          (t_start clk)).2).
Proof.
  intros Hallowed Hhit. unfold searchMemories.
  by rewrite (searchMemories_try_hit _ _ _ _ _ _ _ _ Hallowed Hhit).
Qed.

(** A denial by the limiter. *)
Lemma searchMemories_denied env w user query limit threshold clk :
  (RateLimiter.isAllowed (memoryRateLimiter w) user 1 (t_start clk)).1 = false ->
  searchMemories env w user query limit threshold clk
  = (fallbackTextSearch env w user query (default 5 limit),
     with_memoryRateLimiter w
       (RateLimiter.isAllowed (memoryRateLimiter w) user 1 (t_start clk)).2).
Proof.
  intros Hdenied. unfold searchMemories.
  rewrite (searchMemories_try_denied _ _ _ _ _ _ _ Hdenied). f_equal.
Qed.

Lemma RateLimiter_isAllowed_debit rl identifier cost now :
  (RateLimiter.isAllowed rl identifier cost now).1 = true ->
  RateLimiter.buckets (RateLimiter.isAllowed rl identifier cost now).2 !! identifier
  = Some (RateLimiter.mkBucket
            (RateLimiter.tokens (RateLimiter.refilled rl identifier now) - cost)
            (RateLimiter.lastRefill (RateLimiter.refilled rl identifier now)))
  /\ cost <= RateLimiter.tokens (RateLimiter.refilled rl identifier now).
Proof.
  rewrite RateLimiter_isAllowed_unfold. cbv zeta.
  destruct (Z.geb_spec (RateLimiter.tokens (RateLimiter.refilled rl identifier now)) cost);
    simpl; [|done].
  intros _. split; [apply lookup_insert_eq | lia].
Qed.

Lemma RateLimiter_isAllowed_denied rl identifier cost now :
  (RateLimiter.isAllowed rl identifier cost now).1 = false ->
  RateLimiter.buckets (RateLimiter.isAllowed rl identifier cost now).2 !! identifier
  = Some (RateLimiter.refilled rl identifier now)
  /\ RateLimiter.tokens (RateLimiter.refilled rl identifier now) < cost.
Proof.
  rewrite RateLimiter_isAllowed_unfold. cbv zeta.
  destruct (Z.geb_spec (RateLimiter.tokens (RateLimiter.refilled rl identifier now)) cost);
    simpl; [done|].
  intros _. split; [apply lookup_insert_eq | lia].
Qed.

(** C1 (amended).  When the key of the call is live in the query cache and
    the per-user memory limiter admits the call, [searchMemories] returns the
    cached list; the gateway (embedding cache, embedding limiter, provider
    log), the index log and the table are untouched.  The limiter is
    consulted before the cache: its state afterwards is the one [isAllowed]
    leaves, with one token taken from the user's bucket. *)
Theorem searchMemories_cache_hit_after_admission :
  forall env w (user query : string) (limit : option Z) (threshold : option Q) clk
         (entry : LRUCache.CacheEntry (list Scored)),
    let cacheKey := hashQuery user query (default 5 limit) (default (7 # 10)%Q threshold) in
    let admission := RateLimiter.isAllowed (memoryRateLimiter w) user 1 (t_start clk) in
    JsMap.get cacheKey (LRUCache.cache (queryCache w)) = Some entry ->
    t_start clk - LRUCache.timestamp entry <= LRUCache.ttl (queryCache w) ->
    admission.1 = true ->
    let r := searchMemories env w user query limit threshold clk in
    r.1 = Ok (LRUCache.value entry)
    /\ gateway r.2 = gateway w
    /\ indexQueries r.2 = indexQueries w
    /\ memoryTable r.2 = memoryTable w
    /\ memoryRateLimiter r.2 = admission.2
    /\ RateLimiter.buckets (memoryRateLimiter r.2) !! user
       = Some (RateLimiter.mkBucket
                 (RateLimiter.tokens
                    (RateLimiter.refilled (memoryRateLimiter w) user (t_start clk)) - 1)
                 (RateLimiter.lastRefill
                    (RateLimiter.refilled (memoryRateLimiter w) user (t_start clk)))).
Proof.
  intros env w user query limit threshold clk entry cacheKey admission Hentry Hlive Hgranted r.
  assert (Hhit : (LRUCache.get (queryCache w) cacheKey (t_start clk)).1
                 = Some (LRUCache.value entry)).
  { by rewrite (LRUCache_get_hit _ _ _ _ Hentry Hlive). }
  subst r. rewrite (searchMemories_hit env w user query limit threshold clk _ Hgranted Hhit).
  simpl. repeat split.
  by destruct (RateLimiter_isAllowed_debit _ _ _ _ Hgranted).
Qed.

(** C8.  When the memory limiter denies the user, [searchMemories] answers
    with the outcome of [fallbackTextSearch], not with the quota error and
    not with what the query cache holds: the world changes in the limiter
    only, the answer is the same whatever the query cache contains, and when
    the fallback's [select] runs it is the user's most recent memories with
    the two containment scores. *)
Theorem searchMemories_denied_by_limiter_falls_back :
  forall env w (user query : string) (limit : option Z) (threshold : option Q) clk,
    let admission := RateLimiter.isAllowed (memoryRateLimiter w) user 1 (t_start clk) in
    admission.1 = false ->
    let r := searchMemories env w user query limit threshold clk in
    r.1 = fallbackTextSearch env w user query (default 5 limit)
    /\ r.2 = with_memoryRateLimiter w admission.2
    /\ (dbFailure env = None ->
        exists ranked,
          r.1 = Ok ranked
          /\ mostRecentOf (memoryTable w) user (default 5 limit) (memory <$> ranked)
          /\ Forall (containmentScored query) ranked)
    /\ (forall qc : LRUCache.t string (list Scored),
          (searchMemories env (with_queryCache w qc) user query limit threshold clk).1 = r.1
          /\ queryCache
               (searchMemories env (with_queryCache w qc) user query limit threshold clk).2
             = qc).
Proof.
  intros env w user query limit threshold clk admission Hdenied r.
  subst r. rewrite (searchMemories_denied _ _ _ _ _ _ _ Hdenied). simpl.
  split; [done|]. split; [done|]. split.
  - intros Hdb. destruct (fallbackTextSearch_served env w user query (default 5 limit) Hdb)
      as (ranked & Hr & Hrest). by exists ranked.
  - intros qc. rewrite (searchMemories_denied env (with_queryCache w qc)); [|exact Hdenied].
    simpl. split; [|done]. by apply fallbackTextSearch_table.
Qed.
End SearchPaths.

Section SearchFailures.
Context `{Platform}.
Implicit Types (env : StoreEnv) (w : World) (clk : SearchClock).

Lemma LRUCache_get_miss_absent {V : Type} (c : LRUCache.t string V) (key : string) (now : Z) :
  (LRUCache.get c key now).1 = None ->
  JsMap.get key (LRUCache.cache (LRUCache.get c key now).2) = None.
Proof.
  unfold LRUCache.get. destruct (JsMap.get key (LRUCache.cache c)) as [entry|] eqn:Hg.
  - destruct (_ >? _); simpl; [|done]. intros _. apply JsMap_get_delete.
  - done.
Qed.

(** The [try] block raises when the similarity path fails. *)
Lemma searchMemories_similarity_failure env w user query limit threshold clk :
  (RateLimiter.isAllowed (memoryRateLimiter w) user 1 (t_start clk)).1 = true ->
  (LRUCache.get (queryCache w)
     (hashQuery user query (default 5 limit) (default (7 # 10)%Q threshold)) (t_start clk)).1
  = None ->
  similarityPathFails env w user query (default 5 limit) (default (7 # 10)%Q threshold) clk ->
  (searchMemories env w user query limit threshold clk).1
  = fallbackTextSearch env w user query (default 5 limit)
  /\ queryCache (searchMemories env w user query limit threshold clk).2
     = (LRUCache.get (queryCache w)
          (hashQuery user query (default 5 limit) (default (7 # 10)%Q threshold))
          (t_start clk)).2
  /\ memoryTable (searchMemories env w user query limit threshold clk).2 = memoryTable w.
Proof.
  intros Hallowed Hmiss Hfails. unfold searchMemories.
  rewrite (searchMemories_try_miss _ _ _ _ _ _ _ Hallowed Hmiss). cbv zeta.
  unfold similarityPathFails in Hfails.
  destruct (generateEmbedding (provider env) (gateway w) query (t_start clk) (t_embedded clk))
    as [[queryEmbedding|msg] g]; simpl.
  - destruct Hfails as [msg Hq]. rewrite Hq. simpl. done.
  - done.
Qed.

(** C6 (amended).  When the similarity path fails (the query cannot be
    embedded, or the pgvector statement raises), [searchMemories] answers
    with the outcome of [fallbackTextSearch]: if the fallback's own [select]
    runs, the user's most recent memories, at most [limit], each scored 0.8
    or 0.5 by case-insensitive containment of the query; if that [select]
    raises as well, its error reaches the caller.  Nothing is written to the
    query cache: the key of the call is absent afterwards. *)
Theorem searchMemories_similarity_failure_falls_back :
  forall env w (user query : string) (limit : option Z) (threshold : option Q) clk,
    let cacheKey := hashQuery user query (default 5 limit) (default (7 # 10)%Q threshold) in
    (RateLimiter.isAllowed (memoryRateLimiter w) user 1 (t_start clk)).1 = true ->
    (LRUCache.get (queryCache w) cacheKey (t_start clk)).1 = None ->
    similarityPathFails env w user query (default 5 limit) (default (7 # 10)%Q threshold) clk ->
    let r := searchMemories env w user query limit threshold clk in
    r.1 = fallbackTextSearch env w user query (default 5 limit)
    /\ (dbFailure env = None ->
        exists ranked,
          r.1 = Ok ranked
          /\ mostRecentOf (memoryTable w) user (default 5 limit) (memory <$> ranked)
          /\ (length ranked <= Z.to_nat (default 5%Z limit))%nat
          /\ Forall (containmentScored query) ranked)
    /\ (forall e, dbFailure env = Some e -> r.1 = Err e)
    /\ queryCache r.2 = (LRUCache.get (queryCache w) cacheKey (t_start clk)).2
    /\ JsMap.get cacheKey (LRUCache.cache (queryCache r.2)) = None.
Proof.
  intros env w user query limit threshold clk cacheKey Hallowed Hmiss Hfails r.
  destruct (searchMemories_similarity_failure env w user query limit threshold clk
              Hallowed Hmiss Hfails) as (Hr & Hqc & _).
  subst r. rewrite Hr, Hqc. split; [done|]. split; [|split; [|split]].
  - intros Hdb. destruct (fallbackTextSearch_served env w user query (default 5 limit) Hdb)
      as (ranked & Hok & Hrecent & Hscores).
    exists ranked. split; [done|]. split; [done|]. split; [|done].
    destruct Hrecent as (Hlen & _). rewrite length_fmap in Hlen. lia.
  - intros e Hdb. by apply fallbackTextSearch_rejected.
  - done.
  - by apply LRUCache_get_miss_absent.
Qed.

(** ** Colliding cache keys *)

Lemma string_app_assoc (a b c : string) : ((a ++ b) ++ c = a ++ (b ++ c))%string.
Proof.
  induction a as [|x a IH]; [done|].
  change (String x ((a ++ b) ++ c) = String x (a ++ (b ++ c)))%string. by rewrite IH.
Qed.

Lemma hashQuery_separator user rest query limit threshold :
  hashQuery user (rest ++ ":" ++ query) limit threshold
  = hashQuery (user ++ ":" ++ rest) query limit threshold.
Proof. unfold hashQuery. f_equal. by rewrite !string_app_assoc. Qed.

Lemma LRUCache_get_config {V : Type} (c : LRUCache.t string V) (key : string) (now : Z) :
  LRUCache.ttl (LRUCache.get c key now).2 = LRUCache.ttl c.
Proof.
  unfold LRUCache.get. destruct (JsMap.get _ _); [|done]. by destruct (_ >? _).
Qed.

(** C7.  [hashQuery] joins its arguments with [":"] before hashing, so the
    pair (user, ["rest:query"]) and the pair (["user:rest"], query) get the
    same key although the users differ.  Consequently, once a search of the
    first user has stored its ranked list, a search of the second user with
    the colliding arguments (admitted by the limiter, within the ttl) is
    answered with that list, without embedding anything and without an
    index query. *)
Theorem hashQuery_collision_shares_cached_results :
  (forall (user rest query : string) (limit : Z) (threshold : Q),
      hashQuery user (rest ++ ":" ++ query) limit threshold
      = hashQuery (user ++ ":" ++ rest) query limit threshold)
  /\ (exists (user1 query1 user2 query2 : string) (limit : Z) (threshold : Q),
        user1 ≠ user2 /\ query1 ≠ query2
        /\ hashQuery user1 query1 limit threshold = hashQuery user2 query2 limit threshold)
  /\ (forall env1 env2 w clk1 clk2 (user rest query : string)
             (limit : option Z) (threshold : option Q)
             (queryEmbedding : Vec) (g : Gateway) (ranked : list Scored),
        let user2 := (user ++ ":" ++ rest)%string in
        let query1 := (rest ++ ":" ++ query)%string in
        let L := default 5 limit in
        let T := default (7 # 10)%Q threshold in
        (RateLimiter.isAllowed (memoryRateLimiter w) user 1 (t_start clk1)).1 = true ->
        (LRUCache.get (queryCache w) (hashQuery user query1 L T) (t_start clk1)).1 = None ->
        generateEmbedding (provider env1) (gateway w) query1 (t_start clk1) (t_embedded clk1)
        = (Ok queryEmbedding, g) ->
        similarityQuery env1 (memoryTable w) user queryEmbedding T L = Ok ranked ->
        let first := searchMemories env1 w user query1 limit threshold clk1 in
        (RateLimiter.isAllowed (memoryRateLimiter first.2) user2 1 (t_start clk2)).1 = true ->
        t_start clk2 - t_ranked clk1 <= LRUCache.ttl (queryCache w) ->
        let second := searchMemories env2 first.2 user2 query limit threshold clk2 in
        first.1 = Ok ranked
        /\ second.1 = Ok ranked
        /\ gateway second.2 = gateway first.2
        /\ indexQueries second.2 = indexQueries first.2).
Proof.
  split; [exact hashQuery_separator|]. split.
  { exists "a"%string, "b:c"%string, "a:b"%string, "c"%string, 5, (7 # 10)%Q.
    split; [done|]. split; [done|]. exact (hashQuery_separator "a" "b" "c" 5 (7 # 10)%Q). }
  intros env1 env2 w clk1 clk2 user rest query limit threshold queryEmbedding g ranked
         user2 query1 L T Hallowed Hmiss Hembed Hquery first Hallowed2 Hlive second.
  assert (Hfirst : first
            = (Ok ranked,
               with_queryCache
                 (with_indexQueries
                    (with_gateway
                       (with_queryCache
                          (with_memoryRateLimiter w
                             (RateLimiter.isAllowed (memoryRateLimiter w) user 1
                                (t_start clk1)).2)
                          (LRUCache.get (queryCache w) (hashQuery user query1 L T)
                             (t_start clk1)).2) g)
                    (indexQueries w ++ [(user, queryEmbedding, T, L)]))
                 (LRUCache.set
                    (LRUCache.get (queryCache w) (hashQuery user query1 L T) (t_start clk1)).2
                    (hashQuery user query1 L T) ranked (t_ranked clk1)))).
  { subst first. unfold searchMemories. fold L T.
    rewrite (searchMemories_try_miss _ _ _ _ _ _ _ Hallowed Hmiss). cbv zeta.
    rewrite Hembed. simpl. rewrite Hquery. done. }
  split; [by rewrite Hfirst|].
  destruct (LRUCache_set_lookup
              (LRUCache.get (queryCache w) (hashQuery user query1 L T) (t_start clk1)).2
              (hashQuery user query1 L T) ranked (t_ranked clk1)) as [Httl [n Hentry]].
  rewrite LRUCache_get_config in Httl.
  assert (Hhit : (LRUCache.get (queryCache first.2) (hashQuery user2 query L T)
                    (t_start clk2)).1 = Some ranked).
  { rewrite Hfirst. simpl. subst user2 query1. rewrite <- hashQuery_separator.
    rewrite (LRUCache_get_hit _ _ _ _ Hentry); [done|]. simpl. rewrite Httl. exact Hlive. }
  subst second.
  rewrite (searchMemories_hit env2 first.2 user2 query limit threshold clk2 ranked
             Hallowed2 Hhit).
  done.
Qed.
End SearchFailures.

(** ** The batch gateway *)

Section BatchGateway.
Context `{Platform}.
Implicit Types (ec : LRUCache.t string Vec) (texts : list string) (data : list Vec).

Lemma LRUCache_get_answer {V : Type} (c : LRUCache.t string V) (key : string) (now : Z) :
  (LRUCache.get c key now).1
  = match JsMap.get key (LRUCache.cache c) with
    | Some entry =>
        if now - LRUCache.timestamp entry >? LRUCache.ttl c then None
        else Some (LRUCache.value entry)
    | None => None
    end.
Proof.
  unfold LRUCache.get. destruct (JsMap.get key (LRUCache.cache c)); [|done].
  by destruct (_ >? _).
Qed.

(** A [get] does not change what the cache answers, at the same clock
    reading, for any key. *)
Lemma LRUCache_get_get {V : Type} (c : LRUCache.t string V) (k1 k2 : string) (now : Z) :
  (LRUCache.get (LRUCache.get c k1 now).2 k2 now).1 = (LRUCache.get c k2 now).1.
Proof.
  rewrite !LRUCache_get_answer, LRUCache_get_config.
  unfold LRUCache.get at 1.
  destruct (JsMap.get k1 (LRUCache.cache c)) as [e1|] eqn:Hg1; [|done].
  destruct (Z.gtb_spec (now - LRUCache.timestamp e1) (LRUCache.ttl c)) as [Hstale|Hlive]; simpl.
  - destruct (decide (k1 = k2)) as [->|Hne].
    + rewrite JsMap_get_delete, Hg1.
      destruct (Z.gtb_spec (now - LRUCache.timestamp e1) (LRUCache.ttl c)); [done | lia].
    + by rewrite JsMap_get_delete_ne.
  - rewrite JsMap_refresh, JsMap_get_snoc.
    destruct (decide (k2 = k1)) as [->|Hne].
    + rewrite JsMap_get_delete, Hg1. simpl. done.
    + rewrite JsMap_get_delete_ne by done. by destruct (JsMap.get k2 (LRUCache.cache c)).
Qed.

Lemma lookupAll_spec (ans : string -> option Vec) (now : Z) texts :
  forall ec (i : nat),
    (forall key, (LRUCache.get ec key now).1 = ans key) ->
    (lookupAll ec texts i now).1.1 = map (fun text => ans (hashText text)) texts
    /\ (lookupAll ec texts i now).1.2 = missesOf (fun text => ans (hashText text)) texts i
    /\ (forall key, (LRUCache.get (lookupAll ec texts i now).2 key now).1 = ans key).
Proof.
  induction texts as [|text texts IH]; intros ec i Hans; simpl; [done|].
  destruct (LRUCache.get ec (hashText text) now) as [cached ec1] eqn:Hget.
  assert (Hcached : cached = ans (hashText text)).
  { rewrite <- Hans, Hget. done. }
  assert (Hans1 : forall key, (LRUCache.get ec1 key now).1 = ans key).
  { intros key. rewrite <- Hans.
    replace ec1 with (LRUCache.get ec (hashText text) now).2 by (by rewrite Hget).
    apply LRUCache_get_get. }
  destruct (IH ec1 (S i) Hans1) as (IH1 & IH2 & IH3).
  destruct (lookupAll ec1 texts (S i) now) as [[results uncached] ec2].
  simpl in IH1, IH2, IH3. rewrite <- Hcached.
  destruct cached; simpl; rewrite IH1, IH2; done.
Qed.

Lemma missesOf_texts (hit : string -> option Vec) texts (i : nat) :
  (missesOf hit texts i).*2 = filter (fun text => hit text = None) texts.
Proof.
  revert i. induction texts as [|text texts IH]; intros i; simpl; [done|].
  destruct (hit text) eqn:Hh.
  - rewrite filter_cons_False by (rewrite Hh; done). apply IH.
  - rewrite filter_cons_True by done. csimpl. by rewrite IH.
Qed.

Lemma all_cached_complete (hit : string -> option Vec) texts :
  filter (fun text => hit text = None) texts = [] -> Forall is_Some (map hit texts).
Proof.
  induction texts as [|text texts IH]; simpl; [constructor|].
  destruct (hit text) as [v|] eqn:Hh.
  - rewrite filter_cons_False by (rewrite Hh; done). intros Hnone.
    constructor; [by eexists | by apply IH].
  - by rewrite filter_cons_True by done.
Qed.

Lemma generateEmbeddings_lookup (g : Gateway) (texts : list string) (now : Z) :
  exists ec,
    lookupAll (embeddingCache g) texts O now
    = (map (cachedEmbedding g now) texts, missesOf (cachedEmbedding g now) texts O, ec).
Proof.
  destruct (lookupAll_spec (fun key => (LRUCache.get (embeddingCache g) key now).1) now texts
              (embeddingCache g) O) as (H1 & H2 & _); [done|].
  destruct (lookupAll (embeddingCache g) texts O now) as [[results uncached] ec].
  simpl in H1, H2. exists ec. by rewrite H1, H2.
Qed.
End BatchGateway.

Section BatchClaim.
Context `{Platform}.

(** C5 (what the code does).  With the API key configured,
    [generateEmbeddings] never reaches the limiter object or the provider:
    the limiter and the provider log are as before the call.  When every
    input has a live cache entry it returns their vectors, one per input, in
    input order.  As soon as one input is uncached it raises the [TypeError]
    of [embeddingRateLimiter.isAllowed] on the undefined binding: no
    provider call is made for the uncached inputs, nothing is debited, and no
    vector list is returned. *)
Theorem generateEmbeddings_uncached_batch_raises_TypeError :
  forall (env : ProviderEnv) (g : Gateway) (texts : list string) (now later : Z),
    OPENAI_API_KEY env = true ->
    let misses := uncachedTexts g now texts in
    let r := generateEmbeddings env g texts now later in
    embeddingRateLimiter r.2 = embeddingRateLimiter g
    /\ providerCalls r.2 = providerCalls g
    /\ (misses = [] ->
          r.1 = Ok (map (cachedEmbedding g now) texts)
          /\ length (map (cachedEmbedding g now) texts) = length texts
          /\ Forall is_Some (map (cachedEmbedding g now) texts))
    /\ (misses ≠ [] -> r.1 = Err undefined_isAllowed).
Proof.
  intros env g texts now later Hkey misses r.
  destruct (generateEmbeddings_lookup g texts now) as [ec Hlookup].
  assert (Hmisses : (missesOf (cachedEmbedding g now) texts O).*2 = misses).
  { apply missesOf_texts. }
  assert (Hcount : length (missesOf (cachedEmbedding g now) texts O) = length misses).
  { by rewrite <- Hmisses, length_fmap. }
  subst r. unfold generateEmbeddings. rewrite Hkey, Hlookup. simpl negb. cbv iota.
  rewrite Hcount.
  destruct (Nat.eqb_spec (length misses) 0) as [Hz|Hnz]; simpl.
  - split; [done|]. split; [done|]. split.
    + intros Hnone. split; [done|]. split; [apply length_map|].
      apply all_cached_complete. fold (uncachedTexts g now texts). by fold misses.
    + intros Hsome. destruct misses; [done | discriminate].
  - split; [done|]. split; [done|]. split; [|done].
    intros Hnone. rewrite Hnone in Hnz. done.
Qed.
End BatchClaim.

(** ** Concrete runs of the gateway and the store *)

(** C5: five inputs, three of them cached, the provider ready to answer for
    the other two: the call raises the [TypeError]; no provider call, no
    debit, no vectors. *)
Lemma generateEmbeddings_uncached_batch_raises_TypeError_witness :
  let va : Vec := [1 # 1]%Q in
  let vb : Vec := [2 # 1]%Q in
  let vc : Vec := [3 # 1]%Q in
  let vd : Vec := [4 # 1]%Q in
  let ve : Vec := [5 # 1]%Q in
  let g := mkGateway
             (LRUCache.mk [(@hashText samplePlatform "a", LRUCache.mkEntry va 0 1);
                           (@hashText samplePlatform "c", LRUCache.mkEntry vc 0 1);
                           (@hashText samplePlatform "e", LRUCache.mkEntry ve 0 1)]
                500 86400000)
             (RateLimiter.mk ∅ 100 10 60000) [] in
  let env := mkProviderEnv true (fun _ => Ok [vb; vd]) in
  let r := @generateEmbeddings samplePlatform env g ["a"; "b"; "c"; "d"; "e"]%string 1000 1500 in
  @uncachedTexts samplePlatform g 1000 ["a"; "b"; "c"; "d"; "e"]%string = ["b"; "d"]%string
  /\ r.1 = Err "Cannot read properties of undefined (reading 'isAllowed')"
  /\ providerCalls r.2 = []
  /\ embeddingRateLimiter r.2 = RateLimiter.mk ∅ 100 10 60000.
Proof.
  intros va vb vc vd ve g env r.
  destruct (@generateEmbeddings_uncached_batch_raises_TypeError samplePlatform env g
              ["a"; "b"; "c"; "d"; "e"]%string 1000 1500 eq_refl)
    as (Hlimiter & Hcalls & _ & Hraises).
  split; [vm_compute; reflexivity|].
  split; [apply Hraises; vm_compute; discriminate|].
  split; [exact Hcalls | exact Hlimiter].
Defined.

(** C1: the key is live in the query cache, and yet the call goes through
    the limiter, which creates and debits the user's bucket; with the bucket
    empty, the cached list is not returned at all. *)
Lemma searchMemories_cache_hit_still_consults_the_limiter :
  let row := mkMemory "m1" "u1" "Foo bar" None "{}" "medium" 100 100 in
  let cachedList := [mkScored row (9 # 10)%Q] in
  let cacheKey := @hashQuery samplePlatform "u1" "foo" 5 (7 # 10)%Q in
  let w := with_queryCache (initialWorld [row])
             (LRUCache.mk [(cacheKey, LRUCache.mkEntry cachedList 1000 1)] 200 1800000) in
  let env := mkStoreEnv (mkProviderEnv true (fun _ => Err "unused"))
                        (fun _ _ _ _ _ => Err "unused") None in
  let clk := mkSearchClock 2000 2000 2000 in
  let r := @searchMemories samplePlatform env w "u1" "foo" None None clk in
  let exhausted :=
    with_memoryRateLimiter w
      (RateLimiter.mk (<["u1"%string := RateLimiter.mkBucket 0 2000]> ∅) 200 20 60000) in
  (LRUCache.has (queryCache w) cacheKey 2000).1 = true
  /\ r.1 = Ok cachedList
  /\ RateLimiter.buckets (memoryRateLimiter w) !! "u1" = None
  /\ RateLimiter.buckets (memoryRateLimiter r.2) !! "u1" = Some (RateLimiter.mkBucket 199 2000)
  /\ memoryRateLimiter r.2 ≠ memoryRateLimiter w
  /\ (LRUCache.has (queryCache exhausted) cacheKey 2000).1 = true
  /\ (@searchMemories samplePlatform env exhausted "u1" "foo" None None clk).1
     = Ok [mkScored row (8 # 10)%Q].
Proof.
  vm_compute. repeat split; discriminate.
Qed.

Lemma searchMemories_cache_hit_after_admission_witness :
  let row := mkMemory "m1" "u1" "Foo bar" None "{}" "medium" 100 100 in
  let cachedList := [mkScored row (9 # 10)%Q] in
  let cacheKey := @hashQuery samplePlatform "u1" "foo" 5 (7 # 10)%Q in
  let w := with_queryCache (initialWorld [row])
             (LRUCache.mk [(cacheKey, LRUCache.mkEntry cachedList 1000 1)] 200 1800000) in
  let env := mkStoreEnv (mkProviderEnv true (fun _ => Err "unused"))
                        (fun _ _ _ _ _ => Err "unused") None in
  let r := @searchMemories samplePlatform env w "u1" "foo" None None
             (mkSearchClock 2000 2000 2000) in
  r.1 = Ok cachedList /\ gateway r.2 = gateway w /\ indexQueries r.2 = indexQueries w.
Proof.
  intros row cachedList cacheKey w env r.
  destruct (@searchMemories_cache_hit_after_admission samplePlatform env w "u1" "foo"
              None None (mkSearchClock 2000 2000 2000) (LRUCache.mkEntry cachedList 1000 1))
    as (Hr & Hg & Hi & _).
  - vm_compute. reflexivity.
  - vm_compute. discriminate.
  - vm_compute. reflexivity.
  - split; [exact Hr|]. split; [exact Hg | exact Hi].
Defined.

(** C8: an empty bucket; the answer is the lexical one. *)
Lemma searchMemories_denied_by_limiter_falls_back_witness :
  let old := mkMemory "m1" "u1" "Buy milk" None "{}" "medium" 100 100 in
  let new := mkMemory "m2" "u1" "Call FOO tomorrow" None "{}" "high" 200 200 in
  let w := with_memoryRateLimiter (initialWorld [old; new])
             (RateLimiter.mk (<["u1"%string := RateLimiter.mkBucket 0 5000]> ∅) 200 20 60000) in
  let env := mkStoreEnv (mkProviderEnv true (fun _ => Err "unused"))
                        (fun _ _ _ _ _ => Err "unused") None in
  (@searchMemories samplePlatform env w "u1" "foo" None None (mkSearchClock 5000 5000 5000)).1
  = Ok [mkScored new (8 # 10)%Q; mkScored old (5 # 10)%Q].
Proof.
  intros old new w env.
  destruct (@searchMemories_denied_by_limiter_falls_back samplePlatform env w "u1" "foo"
              None None (mkSearchClock 5000 5000 5000)) as (Hr & _).
  - vm_compute. reflexivity.
  - exact Hr.
Defined.

(** C6: the store refuses every statement: the similarity statement raises,
    and so does the [select] of the fallback, whose error reaches the
    caller. *)
Lemma searchMemories_raises_when_the_fallback_select_raises :
  let env := mkStoreEnv (mkProviderEnv true (fun _ => Ok [[1 # 2]%Q]))
                        (fun _ _ _ _ _ => Err "connect ECONNREFUSED")
                        (Some "connect ECONNREFUSED"%string) in
  let w := initialWorld [mkMemory "m1" "u1" "Foo bar" None "{}" "medium" 100 100] in
  let clk := mkSearchClock 1000 1001 1002 in
  (RateLimiter.isAllowed (memoryRateLimiter w) "u1" 1 (t_start clk)).1 = true
  /\ @similarityPathFails samplePlatform env w "u1" "foo" 5 (7 # 10)%Q clk
  /\ (@searchMemories samplePlatform env w "u1" "foo" None None clk).1
     = Err "connect ECONNREFUSED".
Proof.
  split; [reflexivity|]. split.
  - vm_compute. by eexists.
  - vm_compute. reflexivity.
Qed.

Lemma searchMemories_similarity_failure_falls_back_witness :
  let old := mkMemory "m1" "u1" "Buy milk" None "{}" "medium" 100 100 in
  let new := mkMemory "m2" "u1" "Call FOO tomorrow" None "{}" "high" 200 200 in
  let other := mkMemory "m3" "u2" "foo of somebody else" None "{}" "low" 300 300 in
  let env := mkStoreEnv (mkProviderEnv true (fun _ => Ok [[1 # 2]%Q]))
                        (fun _ _ _ _ _ => Err "type vector does not exist") None in
  let w := initialWorld [old; other; new] in
  let r := @searchMemories samplePlatform env w "u1" "foo" None None
             (mkSearchClock 1000 1001 1002) in
  r.1 = Ok [mkScored new (8 # 10)%Q; mkScored old (5 # 10)%Q]
  /\ LRUCache.cache (queryCache r.2) = [].
Proof.
  intros old new other env w r.
  destruct (@searchMemories_similarity_failure_falls_back samplePlatform env w "u1" "foo"
              None None (mkSearchClock 1000 1001 1002)) as (Hr & _ & _ & Hqc & _).
  - vm_compute. reflexivity.
  - vm_compute. reflexivity.
  - vm_compute. by eexists.
  - split; [exact Hr|]. fold r in Hqc. rewrite Hqc. reflexivity.
Defined.

(** C7: the embedding of ["x:foo"] is in the embedding cache.  User ["123"]
    searches ["x:foo"]; user ["123:x"] then searches ["foo"] and is served
    the first user's list, whatever the index would have answered. *)
Lemma hashQuery_collision_shares_cached_results_witness :
  let row := mkMemory "m1" "123" "x:foo is private" None "{}" "high" 100 100 in
  let ranked := [mkScored row (95 # 100)%Q] in
  let embedded :=
    mkGateway
      (LRUCache.mk [(@hashText samplePlatform "x:foo", LRUCache.mkEntry [1 # 2]%Q 0 1)]
         500 86400000)
      (RateLimiter.mk ∅ 100 10 60000) [] in
  let w := with_gateway (initialWorld [row]) embedded in
  let env1 := mkStoreEnv (mkProviderEnv true (fun _ => Err "unused"))
                         (fun _ _ _ _ _ => Ok ranked) None in
  let env2 := mkStoreEnv (mkProviderEnv false (fun _ => Err "unused"))
                         (fun _ _ _ _ _ => Ok []) None in
  let first := @searchMemories samplePlatform env1 w "123" "x:foo"
                 None None (mkSearchClock 1000 1001 1002) in
  let second := @searchMemories samplePlatform env2 first.2 "123:x" "foo"
                  None None (mkSearchClock 2000 2001 2002) in
  first.1 = Ok ranked /\ second.1 = Ok ranked.
Proof.
  intros row ranked embedded w env1 env2 first second.
  destruct (@hashQuery_collision_shares_cached_results samplePlatform) as (_ & _ & Hshare).
  destruct (Hshare env1 env2 w (mkSearchClock 1000 1001 1002)
              (mkSearchClock 2000 2001 2002) "123"%string "x"%string "foo"%string
              None None [1 # 2]%Q
              (@generateEmbedding samplePlatform (provider env1) (gateway w)
                 "x:foo" 1000 1001).2
              ranked) as (H1 & H2 & _).
  - vm_compute. reflexivity.
  - vm_compute. reflexivity.
  - vm_compute. reflexivity.
  - reflexivity.
  - vm_compute. reflexivity.
  - vm_compute. discriminate.
  - split; [exact H1 | exact H2].
Defined.

(** * Further properties of the code *)

(** ** The cache: size, round trips, reads *)

Section CacheMore.
Context {K V : Type} `{EqDecision K}.
Implicit Types (c : LRUCache.t K V) (key : K) (v : V).

Lemma JsMap_delete_length_le key (m : list (K * LRUCache.CacheEntry V)) :
  (length (JsMap.delete key m) <= length m)%nat.
Proof.
  induction m as [|[k' e'] m IH]; simpl; [lia|].
  destruct (decide (key = k')); simpl; lia.
Qed.

Lemma JsMap_delete_length_present key (m : list (K * LRUCache.CacheEntry V)) entry :
  JsMap.get key m = Some entry ->
  (S (length (JsMap.delete key m)) <= length m)%nat.
Proof.
  induction m as [|[k' e'] m IH]; simpl; [done|].
  destruct (decide (key = k')); simpl.
  - intros _. pose proof (JsMap_delete_length_le key m). lia.
  - intros Hg. specialize (IH Hg). lia.
Qed.

Lemma LRUCache_get_first c key now :
  (LRUCache.get c key now).1
  = match JsMap.get key (LRUCache.cache c) with
    | Some entry =>
        if now - LRUCache.timestamp entry >? LRUCache.ttl c then None
        else Some (LRUCache.value entry)
    | None => None
    end.
Proof.
  unfold LRUCache.get. destruct (JsMap.get key (LRUCache.cache c)); [|done].
  by destruct (_ >? _).
Qed.

Lemma LRUCache_has_first c key now :
  (LRUCache.has c key now).1
  = match JsMap.get key (LRUCache.cache c) with
    | Some entry => negb (now - LRUCache.timestamp entry >? LRUCache.ttl c)
    | None => false
    end.
Proof.
  unfold LRUCache.has. destruct (JsMap.get key (LRUCache.cache c)); [|done].
  by destruct (_ >? _).
Qed.

Lemma LRUCache_step_size c (o : LRUCache.op) :
  (length (LRUCache.cache c) <= Z.to_nat (LRUCache.maxSize c))%nat ->
  1 <= LRUCache.maxSize c ->
  (length (LRUCache.cache (LRUCache.step c o)) <= Z.to_nat (LRUCache.maxSize c))%nat.
Proof.
  intros Hsize Hmax. destruct o as [key now|key v now|key now|key|]; simpl.
  - unfold LRUCache.get. destruct (JsMap.get key (LRUCache.cache c)) as [entry|] eqn:Hg; [|done].
    pose proof (JsMap_delete_length_present _ _ _ Hg).
    destruct (_ >? _); simpl; [lia|].
    rewrite JsMap_refresh, length_app. simpl. lia.
  - unfold LRUCache.set, JsMap.has.
    destruct (JsMap.get key (LRUCache.cache c)) as [entry|] eqn:Hg; simpl.
    + pose proof (JsMap_delete_length_present _ _ _ Hg).
      rewrite JsMap_refresh, length_app. simpl. lia.
    + set (m := if _ >=? _ then _ else _).
      assert (Hm : JsMap.get key m = None /\ (S (length m) <= Z.to_nat (LRUCache.maxSize c))%nat).
      { subst m. unfold JsMap.size.
        destruct (Z.geb_spec (Z.of_nat (length (LRUCache.cache c))) (LRUCache.maxSize c)).
        - destruct (LRUCache.cache c) as [|[k0 e0] rest] eqn:Hc; simpl in *; [lia|].
          destruct (decide (k0 = k0)); [|done].
          destruct (decide (key = k0)); [done|]. split.
          + destruct (decide (k0 = key)) as [->|]; [done|]. by rewrite JsMap_get_delete_ne.
          + pose proof (JsMap_delete_length_le k0 rest). lia.
        - split; [done | lia]. }
      destruct Hm as [Hm Hlen]. rewrite (JsMap_set_absent _ _ _ Hm), length_app. simpl. lia.
  - unfold LRUCache.has. destruct (JsMap.get key (LRUCache.cache c)) as [entry|]; [|done].
    destruct (_ >? _); simpl; [|done].
    pose proof (JsMap_delete_length_le key (LRUCache.cache c)). lia.
  - pose proof (JsMap_delete_length_le key (LRUCache.cache c)). lia.
  - lia.
Qed.

Lemma LRUCache_step_NoDup c (o : LRUCache.op) :
  NoDup (LRUCache.keys c) -> NoDup (LRUCache.keys (LRUCache.step c o)).
Proof.
  intros Hnd. pose proof (LRUCache_keys_step c o Hnd) as Hk.
  destruct (LRUCache.touched c o) as [k|].
  - destruct Hk as (l & Hsub & Hnin & ->). apply NoDup_app. split; [|split].
    + eapply sublist_NoDup; eauto.
    + intros x Hx ->%list_elem_of_singleton. done.
    + apply NoDup_singleton.
  - eapply sublist_NoDup; eauto.
Qed.

(** X1.  Whatever sequence of [get], [set], [has], [delete] and [clear] is
    run on a cache constructed with [maxSize >= 1], it never holds more
    than [maxSize] entries and never holds a key twice. *)
Theorem LRUCache_never_exceeds_maxSize :
  forall (maxSize ttl : Z) (c0 : LRUCache.t K V) (ops : list LRUCache.op),
    LRUCache.new maxSize ttl = Ok c0 ->
    1 <= maxSize ->
    JsMap.size (LRUCache.cache (LRUCache.now_cache (LRUCache.run c0 ops))) <= maxSize
    /\ NoDup (LRUCache.keys (LRUCache.now_cache (LRUCache.run c0 ops))).
Proof.
  intros maxSize ttl c0 ops Hnew Hmax.
  assert (Hinv : LRUCache.maxSize (LRUCache.now_cache (LRUCache.run c0 ops)) = maxSize
                 /\ (length (LRUCache.cache (LRUCache.now_cache (LRUCache.run c0 ops)))
                     <= Z.to_nat maxSize)%nat
                 /\ NoDup (LRUCache.keys (LRUCache.now_cache (LRUCache.run c0 ops)))).
  { apply (LRUCache_run_invariant
             (fun c => LRUCache.maxSize c = maxSize
                       /\ (length (LRUCache.cache c) <= Z.to_nat maxSize)%nat
                       /\ NoDup (LRUCache.keys c))).
    - injection Hnew as <-. simpl. split; [done|]. split; [lia | constructor].
    - intros c o (Hm & Hlen & Hnd). split; [|split].
      + by destruct (LRUCache_step_config c o) as [-> _].
      + rewrite <- Hm. apply LRUCache_step_size; rewrite Hm; done.
      + by apply LRUCache_step_NoDup. }
  destruct Hinv as (_ & Hlen & Hnd). split; [|done]. unfold JsMap.size. lia.
Qed.

(** X2.  Round trip: a [get] (or [has]) of a key after its [set] finds the
    value set exactly when at most [ttl] milliseconds have passed since the
    [set], whatever the cache held before (also when the [set] had to evict,
    and when it overwrote). *)
Theorem LRUCache_get_after_set_within_ttl :
  forall c key v (t_set now : Z),
    (now - t_set <= LRUCache.ttl c ->
       (LRUCache.get (LRUCache.set c key v t_set) key now).1 = Some v
       /\ (LRUCache.has (LRUCache.set c key v t_set) key now).1 = true)
    /\ (LRUCache.ttl c < now - t_set ->
          (LRUCache.get (LRUCache.set c key v t_set) key now).1 = None
          /\ (LRUCache.has (LRUCache.set c key v t_set) key now).1 = false).
Proof.
  intros c key v t_set now.
  destruct (LRUCache_read_after_set c key v t_set now) as [-> ->].
  split; intros Ht; destruct (Z.gtb_spec (now - t_set) (LRUCache.ttl c)); try lia; done.
Qed.

Lemma LRUCache_get_ttl c key now :
  LRUCache.ttl (LRUCache.get c key now).2 = LRUCache.ttl c.
Proof.
  unfold LRUCache.get. destruct (JsMap.get _ _); [|done]. by destruct (_ >? _).
Qed.

Lemma LRUCache_has_ttl c key now :
  LRUCache.ttl (LRUCache.has c key now).2 = LRUCache.ttl c.
Proof.
  unfold LRUCache.has. destruct (JsMap.get _ _); [|done]. by destruct (_ >? _).
Qed.

Lemma LRUCache_get_after_read c (k1 k2 : K) (t1 now : Z) :
  t1 <= now ->
  (LRUCache.get (LRUCache.get c k1 t1).2 k2 now).1 = (LRUCache.get c k2 now).1
  /\ (LRUCache.get (LRUCache.has c k1 t1).2 k2 now).1 = (LRUCache.get c k2 now).1.
Proof.
  intros Ht. rewrite !LRUCache_get_first, LRUCache_get_ttl, LRUCache_has_ttl.
  split.
  - unfold LRUCache.get at 1.
    destruct (JsMap.get k1 (LRUCache.cache c)) as [e1|] eqn:Hg1; [|done].
    destruct (Z.gtb_spec (t1 - LRUCache.timestamp e1) (LRUCache.ttl c)) as [Hstale|Hlive]; simpl.
    + destruct (decide (k1 = k2)) as [->|Hne].
      * rewrite JsMap_get_delete, Hg1.
        destruct (Z.gtb_spec (now - LRUCache.timestamp e1) (LRUCache.ttl c)); [done | lia].
      * by rewrite JsMap_get_delete_ne.
    + rewrite JsMap_refresh, JsMap_get_snoc.
      destruct (decide (k2 = k1)) as [->|Hne].
      * rewrite JsMap_get_delete, Hg1. simpl. done.
      * rewrite JsMap_get_delete_ne by done. by destruct (JsMap.get k2 (LRUCache.cache c)).
  - unfold LRUCache.has at 1.
    destruct (JsMap.get k1 (LRUCache.cache c)) as [e1|] eqn:Hg1; [|done].
    destruct (Z.gtb_spec (t1 - LRUCache.timestamp e1) (LRUCache.ttl c)) as [Hstale|Hlive];
      simpl; [|done].
    destruct (decide (k1 = k2)) as [->|Hne].
    + rewrite JsMap_get_delete, Hg1.
      destruct (Z.gtb_spec (now - LRUCache.timestamp e1) (LRUCache.ttl c)); [done | lia].
    + by rewrite JsMap_get_delete_ne.
Qed.

Lemma LRUCache_has_of_get c key (now : Z) :
  (LRUCache.has c key now).1
  = match (LRUCache.get c key now).1 with Some _ => true | None => false end.
Proof.
  rewrite LRUCache_has_first, LRUCache_get_first.
  destruct (JsMap.get key (LRUCache.cache c)); [|done]. by destruct (_ >? _).
Qed.

Lemma LRUCache_get_after_reads (reads : list LRUCache.op) (k : K) (now : Z) :
  forall c,
    Forall (readBy now) reads ->
    (LRUCache.get (foldl LRUCache.step c reads) k now).1 = (LRUCache.get c k now).1.
Proof.
  induction reads as [|o reads IH]; intros c Hreads; simpl; [done|].
  apply Forall_cons in Hreads as [Ho Hreads]. rewrite (IH _ Hreads).
  destruct o as [k1 t1| | k1 t1 | |]; simpl in Ho; try done; simpl.
  - by destruct (LRUCache_get_after_read c k1 k t1 now Ho).
  - by destruct (LRUCache_get_after_read c k1 k t1 now Ho).
Qed.

(** X3.  Reads alone do not change what later reads return: after any
    sequence of [get] and [has] calls, each made no later than [now], a
    [get] or [has] of any key at [now] answers as it would have without
    them.  In particular a hit does not extend an entry's life: the ttl
    counts from the last [set].  Reads do change the eviction order, so this
    does not carry across a [set]: in a full cache of capacity 2 holding [A]
    and [B], after [get(A)], [set(C)] a [get(A)] is a hit, whereas after
    [set(C)] alone it is a miss. *)
Theorem LRUCache_reads_do_not_change_later_answers :
  (forall c (reads : list LRUCache.op) (k : K) (now : Z),
      Forall (readBy now) reads ->
      (LRUCache.get (foldl LRUCache.step c reads) k now).1 = (LRUCache.get c k now).1
      /\ (LRUCache.has (foldl LRUCache.step c reads) k now).1 = (LRUCache.has c k now).1)
  /\ (forall (A B C : K) (vA vB vC : V) (ttl t : Z),
        A ≠ B -> A ≠ C -> B ≠ C ->
        0 <= ttl ->
        let c := LRUCache.mk [(A, LRUCache.mkEntry vA t 1); (B, LRUCache.mkEntry vB t 1)] 2 ttl in
        (LRUCache.get (LRUCache.set (LRUCache.get c A t).2 C vC t) A t).1 = Some vA
        /\ (LRUCache.get (LRUCache.set c C vC t) A t).1 = None).
Proof.
  split.
  - intros c reads k now Hreads.
    pose proof (LRUCache_get_after_reads reads k now c Hreads) as Hget.
    split; [exact Hget|]. by rewrite !LRUCache_has_of_get, Hget.
  - intros A B C vA vB vC ttl t HAB HAC HBC Httl c. subst c.
    assert (Hlive : (t - t >? ttl) = false).
    { rewrite Z.sub_diag. destruct (Z.gtb_spec 0 ttl); [lia | done]. }
    split.
    + unfold LRUCache.get, LRUCache.set, JsMap.has.
      repeat (progress (simpl; rewrite ?Hlive; try case_decide; try congruence)).
    + unfold LRUCache.get, LRUCache.set, JsMap.has.
      repeat (progress (simpl; rewrite ?Hlive; try case_decide; try congruence)).
Qed.
End CacheMore.

Section CacheMore2.
Context {K V : Type} `{EqDecision K}.
Implicit Types (c : LRUCache.t K V) (key : K) (v : V).

(** X4.  [has] answers as [get] does, but it does not count as a use: on a
    live key it leaves the cache exactly as it was.  So in a cache of
    capacity 2, after [set(A)], [set(B)], [has(A)], [set(C)] it is [A] that
    is evicted, where a [get(A)] would have saved it. *)
Theorem LRUCache_has_does_not_refresh_recency :
  (forall c key (now : Z),
      (LRUCache.has c key now).1
      = match (LRUCache.get c key now).1 with Some _ => true | None => false end)
  /\ (forall c key (now : Z),
        (LRUCache.has c key now).1 = true -> (LRUCache.has c key now).2 = c)
  /\ (forall (A B C : K) (vA vB vC : V) (ttl tA tB tH tC : Z) (c0 : LRUCache.t K V),
        A ≠ B -> A ≠ C -> B ≠ C ->
        tH - tA <= ttl ->
        LRUCache.new 2 ttl = Ok c0 ->
        let c2 := LRUCache.set (LRUCache.set c0 A vA tA) B vB tB in
        let asked := LRUCache.has c2 A tH in
        asked.1 = true
        /\ LRUCache.keys (LRUCache.set asked.2 C vC tC) = [B; C]).
Proof.
  split; [|split].
  - intros c key now. rewrite LRUCache_has_first, LRUCache_get_first.
    destruct (JsMap.get key (LRUCache.cache c)); [|done]. by destruct (_ >? _).
  - intros c key now. unfold LRUCache.has.
    destruct (JsMap.get key (LRUCache.cache c)); [|done]. by destruct (_ >? _).
  - intros A B C vA vB vC ttl tA tB tH tC c0 HAB HAC HBC Hlive [= <-] c2 asked.
    assert (Hc2 : c2 = LRUCache.mk [(A, LRUCache.mkEntry vA tA 1); (B, LRUCache.mkEntry vB tB 1)] 2 ttl).
    { subst c2. unfold LRUCache.set, JsMap.has. simpl.
      destruct (decide (B = A)); [congruence|]. simpl.
      destruct (decide (B = A)); [congruence|]. done. }
    assert (Hasked : asked = (true, c2)).
    { subst asked. rewrite Hc2. unfold LRUCache.has. simpl.
      destruct (decide (A = A)); [|done]. simpl.
      destruct (Z.gtb_spec (tH - tA) ttl); [lia | done]. }
    rewrite Hasked. split; [done|]. simpl. rewrite Hc2.
    unfold LRUCache.keys, LRUCache.set, JsMap.has. simpl.
    destruct (decide (C = A)); [congruence|].
    destruct (decide (C = B)); [congruence|]. simpl.
    destruct (decide (A = A)); [|done].
    destruct (decide (A = B)); [congruence|]. simpl.
    destruct (decide (C = B)); [congruence|]. done.
Qed.

(** X5.  [delete] removes exactly the given key: it answers whether the key
    was held (live or expired); afterwards the key is absent, every other
    entry (value, timestamp and access count) is as it was, the remaining
    keys are in the order they had, every other key is answered as before,
    and deleting again answers [false]. *)
Theorem LRUCache_delete_removes_only_that_key :
  forall c key,
    ((LRUCache.delete c key).1 = true <-> key ∈ LRUCache.keys c)
    /\ (forall now : Z,
          (LRUCache.get (LRUCache.delete c key).2 key now).1 = None
          /\ (LRUCache.has (LRUCache.delete c key).2 key now).1 = false)
    /\ (forall (other : K) (now : Z),
          other ≠ key ->
          (LRUCache.get (LRUCache.delete c key).2 other now).1 = (LRUCache.get c other now).1)
    /\ (LRUCache.delete (LRUCache.delete c key).2 key).1 = false
    /\ LRUCache.keys (LRUCache.delete c key).2
       = filter (fun k => k ≠ key) (LRUCache.keys c)
    /\ (forall other : K,
          other ≠ key ->
          JsMap.get other (LRUCache.cache (LRUCache.delete c key).2)
          = JsMap.get other (LRUCache.cache c))
    /\ JsMap.get key (LRUCache.cache (LRUCache.delete c key).2) = None.
Proof.
  intros c key. unfold LRUCache.delete. simpl. split; [|split; [|split; [|split]]].
  - unfold JsMap.has. destruct (JsMap.get key (LRUCache.cache c)) as [e|] eqn:Hg.
    + split; [intros _ | done]. by eapply JsMap_get_Some_elem.
    + apply JsMap_get_None in Hg. split; [done | intros Hin; by destruct Hg].
  - intros now. rewrite LRUCache_get_first, LRUCache_has_first. simpl.
    by rewrite JsMap_get_delete.
  - intros other now Hne. rewrite !LRUCache_get_first. simpl.
    by rewrite JsMap_get_delete_ne.
  - unfold JsMap.has. by rewrite JsMap_get_delete.
  - split; [|split].
    + unfold LRUCache.keys. simpl. apply JsMap_keys_delete.
    + intros other Hne. by apply JsMap_get_delete_ne.
    + apply JsMap_get_delete.
Qed.

Lemma JsMap_delete_length_NoDup key (m : list (K * LRUCache.CacheEntry V)) entry :
  NoDup (JsMap.keys m) -> JsMap.get key m = Some entry ->
  S (length (JsMap.delete key m)) = length m.
Proof.
  unfold JsMap.keys. induction m as [|[k' e'] m IH]; csimpl; [done|].
  intros [Hk' Hnd]%NoDup_cons. destruct (decide (key = k')) as [->|Hne]; simpl.
  - intros _. by rewrite (JsMap_delete_absent _ _ Hk').
  - intros Hg. by rewrite (IH Hnd Hg).
Qed.

(** X6.  Overwriting a key that is held never evicts: the key gets the new
    value and timestamp and one more access and becomes the most recent
    key (the last in the eviction order), every other entry stays as it was
    and the other keys keep their order, and the number of entries is
    unchanged, also in a full cache. *)
Theorem LRUCache_overwrite_keeps_other_entries :
  forall c key (entry : LRUCache.CacheEntry V) v (now : Z),
    JsMap.get key (LRUCache.cache c) = Some entry ->
    (forall k' : K,
        JsMap.get k' (LRUCache.cache (LRUCache.set c key v now))
        = if decide (k' = key)
          then Some (LRUCache.mkEntry v now (LRUCache.accessCount entry + 1))
          else JsMap.get k' (LRUCache.cache c))
    /\ (NoDup (LRUCache.keys c) ->
        length (LRUCache.cache (LRUCache.set c key v now)) = length (LRUCache.cache c))
    /\ LRUCache.keys (LRUCache.set c key v now)
       = filter (fun k => k ≠ key) (LRUCache.keys c) ++ [key]
    /\ last (LRUCache.keys (LRUCache.set c key v now)) = Some key.
Proof.
  intros c key entry v now Hg. rewrite (LRUCache_set_present _ _ _ _ _ Hg). simpl.
  assert (Hkeys : LRUCache.keys
                    (LRUCache.with_cache c
                       (JsMap.delete key (LRUCache.cache c)
                          ++ [(key, LRUCache.mkEntry v now (LRUCache.accessCount entry + 1))]))
                  = filter (fun k => k ≠ key) (LRUCache.keys c) ++ [key]).
  { unfold LRUCache.keys. simpl. by rewrite JsMap_keys_snoc, JsMap_keys_delete. }
  split; [|split; [|split]].
  - intros k'. rewrite JsMap_get_snoc. destruct (decide (k' = key)) as [->|Hne].
    + by rewrite JsMap_get_delete.
    + rewrite JsMap_get_delete_ne by done. by destruct (JsMap.get k' (LRUCache.cache c)).
  - intros Hnd. rewrite length_app. simpl.
    pose proof (JsMap_delete_length_NoDup _ _ _ Hnd Hg). lia.
  - exact Hkeys.
  - rewrite Hkeys. apply last_snoc.
Qed.
End CacheMore2.

Lemma LRUCache_never_exceeds_maxSize_witness :
  JsMap.size
    (LRUCache.cache
       (LRUCache.now_cache
          (LRUCache.run (LRUCache.mk ([] : list (string * LRUCache.CacheEntry Z)) 2 1000)
             [LRUCache.OSet "a" 1 0; LRUCache.OSet "b" 2 1; LRUCache.OSet "c" 3 2;
              LRUCache.OGet "b" 3; LRUCache.OSet "d" 4 4]))) <= 2.
Proof.
  apply (@LRUCache_never_exceeds_maxSize string Z _ 2 1000
           (LRUCache.mk [] 2 1000)); [reflexivity | lia].
Defined.

Lemma LRUCache_get_after_set_within_ttl_witness :
  let c : LRUCache.t string Z := LRUCache.mk [("old", LRUCache.mkEntry 0 0 1)] 1 100 in
  (LRUCache.get (LRUCache.set c "k" 7 1000) "k" 1100).1 = Some 7
  /\ (LRUCache.get (LRUCache.set c "k" 7 1000) "k" 1101).1 = None.
Proof.
  intros c.
  destruct (@LRUCache_get_after_set_within_ttl string Z _ c "k" 7 1000 1100) as [Hlive _].
  destruct (@LRUCache_get_after_set_within_ttl string Z _ c "k" 7 1000 1101) as [_ Hstale].
  split.
  - apply Hlive. simpl. lia.
  - apply Hstale. simpl. lia.
Defined.

Lemma LRUCache_reads_do_not_change_later_answers_witness :
  let c : LRUCache.t string Z :=
    LRUCache.mk [("k", LRUCache.mkEntry 7 0 1); ("j", LRUCache.mkEntry 8 50 1)] 10 100 in
  (LRUCache.get
     (foldl LRUCache.step c [LRUCache.OGet "k" 90; LRUCache.OHas "j" 95; LRUCache.OGet "j" 101])
     "k" 101).1
  = (LRUCache.get c "k" 101).1.
Proof.
  intros c.
  destruct (@LRUCache_reads_do_not_change_later_answers string Z _) as [Hreads _].
  destruct (Hreads c [LRUCache.OGet "k" 90; LRUCache.OHas "j" 95; LRUCache.OGet "j" 101]
              "k" 101) as [Hget _]; [|exact Hget].
  repeat constructor; simpl; lia.
Defined.

Lemma LRUCache_has_does_not_refresh_recency_witness :
  let c2 := LRUCache.set (LRUCache.set (LRUCache.mk ([] : list (string * LRUCache.CacheEntry Z)) 2 1000)
                            "A" 1 0) "B" 2 1 in
  LRUCache.keys (LRUCache.set (LRUCache.has c2 "A" 2).2 "C" 3 3) = ["B"; "C"].
Proof.
  destruct (@LRUCache_has_does_not_refresh_recency string Z _) as (_ & _ & Hscenario).
  apply (Hscenario "A" "B" "C" 1 2 3 1000 0 1 2 3 (LRUCache.mk [] 2 1000));
    [done | done | done | lia | reflexivity].
Defined.

Lemma LRUCache_delete_removes_only_that_key_witness :
  let c : LRUCache.t string Z :=
    LRUCache.mk [("a", LRUCache.mkEntry 1 0 1); ("b", LRUCache.mkEntry 2 0 1)] 10 100 in
  "b" ≠ "a"
  /\ (LRUCache.get (LRUCache.delete c "a").2 "b" 50).1 = (LRUCache.get c "b" 50).1
  /\ JsMap.get "b" (LRUCache.cache (LRUCache.delete c "a").2) = JsMap.get "b" (LRUCache.cache c).
Proof.
  intros c. split; [done|].
  destruct (@LRUCache_delete_removes_only_that_key string Z _ c "a")
    as (_ & _ & Hother & _ & _ & Hentry & _).
  split; [by apply Hother | by apply Hentry].
Defined.

Lemma LRUCache_overwrite_keeps_other_entries_witness :
  let c : LRUCache.t string Z :=
    LRUCache.mk [("a", LRUCache.mkEntry 1 0 1); ("b", LRUCache.mkEntry 2 0 1)] 2 100 in
  JsMap.get "a" (LRUCache.cache c) = Some (LRUCache.mkEntry 1 0 1)
  /\ length (LRUCache.cache (LRUCache.set c "a" 9 50)) = 2%nat
  /\ LRUCache.keys (LRUCache.set c "a" 9 50) = ["b"; "a"].
Proof.
  intros c.
  assert (Hheld : JsMap.get "a" (LRUCache.cache c) = Some (LRUCache.mkEntry 1 0 1)).
  { vm_compute. reflexivity. }
  split; [exact Hheld|].
  destruct (@LRUCache_overwrite_keeps_other_entries string Z _ c "a" (LRUCache.mkEntry 1 0 1)
              9 50 Hheld) as (_ & Hlen & Hkeys & _).
  split; [|exact Hkeys].
  apply Hlen. apply (bool_decide_unpack _). vm_compute. exact I.
Defined.

(** ** The rate limiter: identifiers, remaining tokens, cleanup, conservation *)

Section RateLimiterMore.
Implicit Types (rl : RateLimiter.t).

Lemma refilled_same_bucket rl rl' identifier now :
  RateLimiter.buckets rl' !! identifier = RateLimiter.buckets rl !! identifier ->
  RateLimiter.capacity rl' = RateLimiter.capacity rl ->
  RateLimiter.refillRate rl' = RateLimiter.refillRate rl ->
  RateLimiter.refilled rl' identifier now = RateLimiter.refilled rl identifier now.
Proof.
  intros Hb Hc Hr. unfold RateLimiter.refilled, RateLimiter.tokensToAdd.
  by rewrite Hb, Hc, Hr.
Qed.

Lemma RateLimiter_isAllowed_other rl a b cost now :
  a ≠ b ->
  RateLimiter.buckets (RateLimiter.isAllowed rl a cost now).2 !! b
  = RateLimiter.buckets rl !! b.
Proof.
  intros Hne. rewrite RateLimiter_isAllowed_unfold. cbv zeta.
  destruct (_ >=? _); simpl; by rewrite lookup_insert_ne.
Qed.

Lemma RateLimiter_isAllowed_decision rl identifier cost now :
  (RateLimiter.isAllowed rl identifier cost now).1
  = (RateLimiter.tokens (RateLimiter.refilled rl identifier now) >=? cost).
Proof. rewrite RateLimiter_isAllowed_unfold. cbv zeta. by destruct (_ >=? _). Qed.

Lemma RateLimiter_getRemaining_same_bucket rl rl' identifier now :
  RateLimiter.buckets rl' !! identifier = RateLimiter.buckets rl !! identifier ->
  RateLimiter.capacity rl' = RateLimiter.capacity rl ->
  RateLimiter.refillRate rl' = RateLimiter.refillRate rl ->
  RateLimiter.getRemaining rl' identifier now = RateLimiter.getRemaining rl identifier now.
Proof.
  intros Hb Hc Hr. unfold RateLimiter.getRemaining, RateLimiter.tokensToAdd.
  by rewrite Hb, Hc, Hr.
Qed.

(** X7.  Identifiers do not affect each other: an [isAllowed] or a [reset]
    for one identifier leaves the bucket of every other identifier as it
    was, and with it every later decision and every [getRemaining] for that
    other identifier. *)
Theorem RateLimiter_identifiers_are_independent :
  forall rl (a b : string) (cost_a cost_b t_a t_b : Z),
    a ≠ b ->
    RateLimiter.buckets (RateLimiter.isAllowed rl a cost_a t_a).2 !! b
    = RateLimiter.buckets rl !! b
    /\ (RateLimiter.isAllowed (RateLimiter.isAllowed rl a cost_a t_a).2 b cost_b t_b).1
       = (RateLimiter.isAllowed rl b cost_b t_b).1
    /\ RateLimiter.getRemaining (RateLimiter.isAllowed rl a cost_a t_a).2 b t_b
       = RateLimiter.getRemaining rl b t_b
    /\ (RateLimiter.isAllowed (RateLimiter.reset rl a) b cost_b t_b).1
       = (RateLimiter.isAllowed rl b cost_b t_b).1
    /\ RateLimiter.getRemaining (RateLimiter.reset rl a) b t_b
       = RateLimiter.getRemaining rl b t_b.
Proof.
  intros rl a b cost_a cost_b t_a t_b Hne.
  pose proof (RateLimiter_isAllowed_other rl a b cost_a t_a Hne) as Hb.
  destruct (RateLimiter_isAllowed_config rl a cost_a t_a) as (Hc & Hr & _).
  assert (Hreset : RateLimiter.buckets (RateLimiter.reset rl a) !! b
                   = RateLimiter.buckets rl !! b).
  { simpl. by rewrite lookup_delete_ne. }
  split; [exact Hb|]. split; [|split; [|split]].
  - rewrite !RateLimiter_isAllowed_decision. by rewrite (refilled_same_bucket _ _ _ _ Hb Hc Hr).
  - by apply RateLimiter_getRemaining_same_bucket.
  - rewrite !RateLimiter_isAllowed_decision.
    by rewrite (refilled_same_bucket rl (RateLimiter.reset rl a) b t_b Hreset).
  - by apply RateLimiter_getRemaining_same_bucket.
Qed.

Lemma RateLimiter_getRemaining_refilled rl identifier now :
  0 <= RateLimiter.capacity rl ->
  0 <= RateLimiter.refillRate rl ->
  (forall b, RateLimiter.buckets rl !! identifier = Some b ->
             0 <= RateLimiter.tokens b <= RateLimiter.capacity rl
             /\ RateLimiter.lastRefill b <= now) ->
  RateLimiter.getRemaining rl identifier now
  = RateLimiter.tokens (RateLimiter.refilled rl identifier now).
Proof.
  intros Hcap Hrate Hb. unfold RateLimiter.getRemaining, RateLimiter.refilled.
  destruct (RateLimiter.buckets rl !! identifier) as [b|].
  - destruct (Hb b eq_refl) as [Htok Hlast].
    assert (Hadd : 0 <= RateLimiter.tokensToAdd rl b now).
    { unfold RateLimiter.tokensToAdd. apply Z.div_pos; [|lia]. apply Z.mul_nonneg_nonneg; lia. }
    destruct (Z.gtb_spec (RateLimiter.tokensToAdd rl b now) 0); simpl; lia.
  - unfold RateLimiter.tokensToAdd. simpl. by rewrite Z.sub_diag, Z.mul_0_l.
Qed.

Lemma tokensToAdd_with_buckets rl bs b now :
  RateLimiter.tokensToAdd (RateLimiter.with_buckets rl bs) b now
  = RateLimiter.tokensToAdd rl b now.
Proof. reflexivity. Qed.

Lemma refilled_no_more rl identifier now tok :
  0 <= RateLimiter.refillRate rl ->
  (forall b, RateLimiter.buckets rl !! identifier = Some b -> RateLimiter.lastRefill b <= now) ->
  RateLimiter.tokensToAdd rl
    (RateLimiter.mkBucket tok (RateLimiter.lastRefill (RateLimiter.refilled rl identifier now))) now
  = 0.
Proof.
  intros Hrate Hb. unfold RateLimiter.refilled.
  assert (Hnow : forall tok', RateLimiter.tokensToAdd rl (RateLimiter.mkBucket tok' now) now = 0).
  { intros tok'. unfold RateLimiter.tokensToAdd. simpl. by rewrite Z.sub_diag, Z.mul_0_l. }
  destruct (RateLimiter.buckets rl !! identifier) as [b|] eqn:Hl.
  - destruct (Z.gtb_spec (RateLimiter.tokensToAdd rl b now) 0) as [Hpos|Hle]; simpl.
    + apply Hnow.
    + pose proof (Hb b eq_refl) as Hlast.
      unfold RateLimiter.tokensToAdd in *. simpl.
      assert (0 <= (now - RateLimiter.lastRefill b) * RateLimiter.refillRate rl / 1000).
      { apply Z.div_pos; [|lia]. apply Z.mul_nonneg_nonneg; lia. }
      lia.
  - rewrite Hnow. simpl. apply Hnow.
Qed.

(** X8.  [getRemaining] tells what [isAllowed] will decide: for a limiter
    of non-negative capacity and refill rate whose bucket for the identifier
    is within bounds and was not refilled in the future, a request is
    let through exactly when its cost is at most [getRemaining]; afterwards
    [getRemaining] (at the same clock reading) has gone down by that cost,
    and a denied request leaves it unchanged. *)
Theorem RateLimiter_getRemaining_predicts_isAllowed :
  forall rl (identifier : string) (cost now : Z),
    0 <= RateLimiter.capacity rl ->
    0 <= RateLimiter.refillRate rl ->
    0 <= cost ->
    (forall b, RateLimiter.buckets rl !! identifier = Some b ->
               0 <= RateLimiter.tokens b <= RateLimiter.capacity rl
               /\ RateLimiter.lastRefill b <= now) ->
    let r := RateLimiter.isAllowed rl identifier cost now in
    (r.1 = true <-> cost <= RateLimiter.getRemaining rl identifier now)
    /\ RateLimiter.getRemaining r.2 identifier now
       = RateLimiter.getRemaining rl identifier now - (if r.1 then cost else 0).
Proof.
  intros rl identifier cost now Hcap Hrate Hcost Hb r.
  rewrite (RateLimiter_getRemaining_refilled rl identifier now Hcap Hrate Hb).
  pose proof (refilled_upper rl identifier now
                (fun b Hl => proj2 (proj1 (Hb b Hl)))) as Hup.
  pose proof (refilled_lower rl identifier now Hcap
                (fun b Hl => proj1 (proj1 (Hb b Hl)))) as Hlo.
  pose proof (fun tok => refilled_no_more rl identifier now tok Hrate
                (fun b Hl => proj2 (Hb b Hl))) as Hmore.
  subst r. rewrite RateLimiter_isAllowed_decision. split.
  - destruct (Z.geb_spec (RateLimiter.tokens (RateLimiter.refilled rl identifier now)) cost);
      split; (done || lia).
  - rewrite RateLimiter_isAllowed_unfold. cbv zeta.
    destruct (Z.geb_spec (RateLimiter.tokens (RateLimiter.refilled rl identifier now)) cost);
      unfold RateLimiter.getRemaining; simpl; rewrite lookup_insert_eq.
    + rewrite tokensToAdd_with_buckets, Hmore. simpl. lia.
    + rewrite tokensToAdd_with_buckets.
      destruct (RateLimiter.refilled rl identifier now) as [tok last] eqn:Hbucket.
      simpl in *. rewrite Hmore. lia.
Qed.

(** X9.  A request costing more than the capacity is never let through, in
    whatever state the limiter is after any sequence of operations (of
    non-negative costs). *)
Theorem RateLimiter_cost_above_capacity_is_always_denied :
  forall (capacity refillRate windowMs : Z) (rl0 : RateLimiter.t)
         (ops : list RateLimiter.op) (identifier : string) (cost now : Z),
    RateLimiter.new capacity refillRate windowMs = Ok rl0 ->
    Forall RateLimiter.op_ok ops ->
    capacity < cost ->
    (RateLimiter.isAllowed (foldl RateLimiter.step rl0 ops) identifier cost now).1 = false.
Proof.
  intros capacity refillRate windowMs rl0 ops identifier cost now [= <-] Hops Hcost.
  destruct (tokens_capped_run (RateLimiter.mk ∅ capacity refillRate windowMs) ops Hops)
    as [Hinv Hc].
  { intros i b. simpl. by rewrite lookup_empty. }
  set (rl := foldl RateLimiter.step _ ops) in *. simpl in Hc.
  rewrite RateLimiter_isAllowed_decision.
  pose proof (refilled_upper rl identifier now (Hinv identifier)) as Hup.
  destruct (Z.geb_spec (RateLimiter.tokens (RateLimiter.refilled rl identifier now)) cost);
    [lia | done].
Qed.
End RateLimiterMore.

Section RateLimiterMore2.
Implicit Types (rl : RateLimiter.t).

Lemma cleanup_lookup_kept rl tc identifier b :
  RateLimiter.buckets rl !! identifier = Some b ->
  ¬ (tc - RateLimiter.lastRefill b > RateLimiter.windowMs rl * 2) ->
  RateLimiter.buckets (RateLimiter.cleanup rl tc) !! identifier = Some b.
Proof. intros Hl Hkeep. simpl. by apply map_lookup_filter_Some. Qed.

Lemma cleanup_lookup_removed rl tc identifier b :
  RateLimiter.buckets rl !! identifier = Some b ->
  tc - RateLimiter.lastRefill b > RateLimiter.windowMs rl * 2 ->
  RateLimiter.buckets (RateLimiter.cleanup rl tc) !! identifier = None.
Proof.
  intros Hl Hold. simpl. apply map_lookup_filter_None. right.
  intros b' Hl' Hkeep. simpl in Hkeep. rewrite Hl in Hl'. injection Hl' as <-. lia.
Qed.

Lemma cleanup_lookup_absent rl tc identifier :
  RateLimiter.buckets rl !! identifier = None ->
  RateLimiter.buckets (RateLimiter.cleanup rl tc) !! identifier = None.
Proof. intros Hl. simpl. apply map_lookup_filter_None. by left. Qed.

Lemma full_refill_after_two_windows rl b tc now :
  0 <= RateLimiter.refillRate rl ->
  1000 * RateLimiter.capacity rl <= RateLimiter.refillRate rl * (RateLimiter.windowMs rl * 2) ->
  tc - RateLimiter.lastRefill b > RateLimiter.windowMs rl * 2 ->
  tc <= now ->
  RateLimiter.capacity rl <= RateLimiter.tokensToAdd rl b now.
Proof.
  intros Hrate Hfull Hold Hnow. unfold RateLimiter.tokensToAdd.
  apply Z.div_le_lower_bound; [lia|]. nia.
Qed.

Lemma cleanup_refilled rl tc identifier now :
  1 <= RateLimiter.capacity rl ->
  0 <= RateLimiter.refillRate rl ->
  1000 * RateLimiter.capacity rl <= RateLimiter.refillRate rl * (RateLimiter.windowMs rl * 2) ->
  (forall b, RateLimiter.buckets rl !! identifier = Some b -> 0 <= RateLimiter.tokens b) ->
  tc <= now ->
  RateLimiter.refilled (RateLimiter.cleanup rl tc) identifier now
  = RateLimiter.refilled rl identifier now.
Proof.
  intros Hcap Hrate Hfull Htok Hnow.
  destruct (RateLimiter.buckets rl !! identifier) as [b|] eqn:Hl.
  - destruct (decide (tc - RateLimiter.lastRefill b > RateLimiter.windowMs rl * 2)) as [Hold|Hkeep].
    + pose proof (cleanup_lookup_removed rl tc identifier b Hl Hold) as Hgone.
      pose proof (full_refill_after_two_windows rl b tc now Hrate Hfull Hold Hnow) as Hadd.
      specialize (Htok b eq_refl).
      unfold RateLimiter.refilled. rewrite Hgone, Hl.
      assert (Hzero : RateLimiter.tokensToAdd (RateLimiter.cleanup rl tc)
                        (RateLimiter.mkBucket (RateLimiter.capacity (RateLimiter.cleanup rl tc)) now)
                        now = 0).
      { unfold RateLimiter.tokensToAdd. simpl. by rewrite Z.sub_diag, Z.mul_0_l. }
      rewrite Hzero. simpl.
      destruct (Z.gtb_spec (RateLimiter.tokensToAdd rl b now) 0); [|lia].
      f_equal. lia.
    + apply refilled_same_bucket; [|done|done].
      rewrite Hl. by apply cleanup_lookup_kept.
  - apply refilled_same_bucket; [|done|done].
    rewrite Hl. by apply cleanup_lookup_absent.
Qed.

(** X10.  [cleanup] cannot be observed when a bucket refills completely
    within two windows: for a limiter with capacity >= 1, refill rate >= 0
    and [capacity <= refillRate * (2 * windowMs) / 1000] (true of the three
    global limiters and of the middleware's), whose bucket for an identifier
    is not negative, a [cleanup] at [tc] changes neither the decision of an
    [isAllowed] at any later reading, nor the bucket that call leaves, nor
    [getRemaining]. *)
Theorem RateLimiter_cleanup_is_not_observable :
  forall rl (tc : Z) (identifier : string) (cost now : Z),
    1 <= RateLimiter.capacity rl ->
    0 <= RateLimiter.refillRate rl ->
    1000 * RateLimiter.capacity rl <= RateLimiter.refillRate rl * (RateLimiter.windowMs rl * 2) ->
    (forall b, RateLimiter.buckets rl !! identifier = Some b -> 0 <= RateLimiter.tokens b) ->
    tc <= now ->
    (RateLimiter.isAllowed (RateLimiter.cleanup rl tc) identifier cost now).1
    = (RateLimiter.isAllowed rl identifier cost now).1
    /\ RateLimiter.buckets (RateLimiter.isAllowed (RateLimiter.cleanup rl tc) identifier cost now).2
         !! identifier
       = RateLimiter.buckets (RateLimiter.isAllowed rl identifier cost now).2 !! identifier
    /\ RateLimiter.getRemaining (RateLimiter.cleanup rl tc) identifier now
       = RateLimiter.getRemaining rl identifier now.
Proof.
  intros rl tc identifier cost now Hcap Hrate Hfull Hb Hnow.
  pose proof (cleanup_refilled rl tc identifier now Hcap Hrate Hfull Hb Hnow) as Hsame.
  split; [|split].
  - by rewrite !RateLimiter_isAllowed_decision, Hsame.
  - rewrite !RateLimiter_isAllowed_unfold. cbv zeta. rewrite Hsame.
    destruct (_ >=? _); simpl; by rewrite !lookup_insert_eq.
  - destruct (RateLimiter.buckets rl !! identifier) as [b|] eqn:Hl.
    + destruct (decide (tc - RateLimiter.lastRefill b > RateLimiter.windowMs rl * 2))
        as [Hold|Hkeep].
      * pose proof (cleanup_lookup_removed rl tc identifier b Hl Hold) as Hgone.
        pose proof (full_refill_after_two_windows rl b tc now Hrate Hfull Hold Hnow) as Hadd.
        pose proof (Hb b eq_refl) as Htok.
        unfold RateLimiter.getRemaining. rewrite Hgone, Hl. simpl. lia.
      * apply RateLimiter_getRemaining_same_bucket; [|done|done].
        rewrite Hl. by apply cleanup_lookup_kept.
    + apply RateLimiter_getRemaining_same_bucket; [|done|done].
      rewrite Hl. by apply cleanup_lookup_absent.
Qed.

(** X11.  [reset] gives the identifier a full bucket again, whatever it had
    used: right after it [getRemaining] answers the capacity, a request is
    let through exactly when its cost is at most the capacity, and the
    bucket that request leaves holds the capacity less the cost, stamped
    with the reading of the request. *)
Theorem RateLimiter_reset_restores_full_capacity :
  forall rl (identifier : string) (cost now : Z),
    let rl' := RateLimiter.reset rl identifier in
    RateLimiter.getRemaining rl' identifier now = RateLimiter.capacity rl
    /\ (RateLimiter.isAllowed rl' identifier cost now).1 = (RateLimiter.capacity rl >=? cost)
    /\ RateLimiter.buckets (RateLimiter.isAllowed rl' identifier cost now).2 !! identifier
       = Some (RateLimiter.mkBucket
                 (if RateLimiter.capacity rl >=? cost
                  then RateLimiter.capacity rl - cost else RateLimiter.capacity rl) now).
Proof.
  intros rl identifier cost now rl'.
  assert (Hgone : RateLimiter.buckets rl' !! identifier = None).
  { subst rl'. simpl. apply lookup_delete_eq. }
  assert (Hfresh : RateLimiter.refilled rl' identifier now
                   = RateLimiter.mkBucket (RateLimiter.capacity rl) now).
  { unfold RateLimiter.refilled. rewrite Hgone.
    unfold RateLimiter.tokensToAdd. simpl. by rewrite Z.sub_diag, Z.mul_0_l. }
  split; [|split].
  - unfold RateLimiter.getRemaining. by rewrite Hgone.
  - by rewrite RateLimiter_isAllowed_decision, Hfresh.
  - rewrite RateLimiter_isAllowed_unfold. cbv zeta. rewrite Hfresh. simpl.
    destruct (_ >=? _); simpl; by rewrite lookup_insert_eq.
Qed.

Lemma lastReading_cons t0 cost now rest :
  lastReading t0 ((cost, now) :: rest) = lastReading now rest.
Proof.
  unfold lastReading. rewrite last_cons. by destruct (last rest) as [[c t]|].
Qed.

Lemma lastReading_ge t0 reqs : nondecreasingFrom t0 reqs -> t0 <= lastReading t0 reqs.
Proof.
  revert t0. induction reqs as [|[cost now] rest IH]; intros t0 Hmono.
  - unfold lastReading. simpl. lia.
  - destruct Hmono as [Hle Hrest]. rewrite lastReading_cons.
    specialize (IH now Hrest). lia.
Qed.

Lemma floor_superadditive a b : a / 1000 + b / 1000 <= (a + b) / 1000.
Proof.
  apply Z.div_le_lower_bound; [lia|].
  pose proof (Z.mul_div_le a 1000). pose proof (Z.mul_div_le b 1000). lia.
Qed.

(** What a bucket can still hand out up to reading [tl]: its tokens plus
    what the refill rate adds since its last refill. *)
Lemma refilled_budget rl identifier b now tl :
  0 <= RateLimiter.capacity rl ->
  0 <= RateLimiter.refillRate rl ->
  RateLimiter.buckets rl !! identifier = Some b ->
  0 <= RateLimiter.tokens b ->
  RateLimiter.lastRefill b <= now ->
  now <= tl ->
  let bucket := RateLimiter.refilled rl identifier now in
  0 <= RateLimiter.tokens bucket
  /\ RateLimiter.lastRefill bucket <= now
  /\ RateLimiter.tokens bucket
     + ((tl - RateLimiter.lastRefill bucket) * RateLimiter.refillRate rl) / 1000
     <= RateLimiter.tokens b
        + ((tl - RateLimiter.lastRefill b) * RateLimiter.refillRate rl) / 1000.
Proof.
  intros Hcap Hrate Hl Htok Hlast Htl. unfold RateLimiter.refilled. rewrite Hl.
  destruct (Z.gtb_spec (RateLimiter.tokensToAdd rl b now) 0) as [Hpos|Hle]; simpl.
  - split; [lia|]. split; [lia|].
    unfold RateLimiter.tokensToAdd in *.
    pose proof (floor_superadditive ((now - RateLimiter.lastRefill b) * RateLimiter.refillRate rl)
                  ((tl - now) * RateLimiter.refillRate rl)) as Hsup.
    replace ((now - RateLimiter.lastRefill b) * RateLimiter.refillRate rl
             + (tl - now) * RateLimiter.refillRate rl)
      with ((tl - RateLimiter.lastRefill b) * RateLimiter.refillRate rl) in Hsup by lia.
    lia.
  - repeat split; lia.
Qed.

Lemma admittedCost_bucket_budget rl identifier b t0 reqs :
  0 <= RateLimiter.capacity rl ->
  0 <= RateLimiter.refillRate rl ->
  RateLimiter.buckets rl !! identifier = Some b ->
  0 <= RateLimiter.tokens b ->
  RateLimiter.lastRefill b <= t0 ->
  nondecreasingFrom t0 reqs ->
  Forall (fun r : Z * Z => 0 <= r.1) reqs ->
  (admittedCost rl identifier reqs).1
  <= RateLimiter.tokens b
     + ((lastReading t0 reqs - RateLimiter.lastRefill b) * RateLimiter.refillRate rl) / 1000.
Proof.
  revert rl b t0. induction reqs as [|[cost now] rest IH];
    intros rl b t0 Hcap Hrate Hl Htok Hlast Hmono Hcosts.
  - unfold lastReading. simpl.
    assert (0 <= (t0 - RateLimiter.lastRefill b) * RateLimiter.refillRate rl / 1000).
    { apply Z.div_pos; [|lia]. apply Z.mul_nonneg_nonneg; lia. }
    lia.
  - destruct Hmono as [Hle Hmono]. inversion Hcosts as [|? ? Hcost Hcosts']; subst.
    simpl in Hcost. rewrite lastReading_cons.
    pose proof (lastReading_ge now rest Hmono) as Htl.
    destruct (refilled_budget rl identifier b now (lastReading now rest) Hcap Hrate Hl Htok
                ltac:(lia) Htl) as (Hb0 & Hblast & Hbudget).
    simpl. rewrite RateLimiter_isAllowed_unfold. cbv zeta.
    set (bucket := RateLimiter.refilled rl identifier now) in *.
    destruct (Z.geb_spec (RateLimiter.tokens bucket) cost) as [Henough|Hshort].
    + match goal with
      | |- context [admittedCost ?rl' identifier rest] =>
          pose proof (IH rl' (RateLimiter.mkBucket (RateLimiter.tokens bucket - cost)
                                (RateLimiter.lastRefill bucket)) now) as IH';
          destruct (admittedCost rl' identifier rest) as [total rl'']
      end.
      simpl in IH'. rewrite lookup_insert_eq in IH'.
      specialize (IH' Hcap Hrate eq_refl ltac:(lia) Hblast Hmono Hcosts'). simpl. lia.
    + match goal with
      | |- context [admittedCost ?rl' identifier rest] =>
          pose proof (IH rl' bucket now) as IH';
          destruct (admittedCost rl' identifier rest) as [total rl'']
      end.
      simpl in IH'. rewrite lookup_insert_eq in IH'.
      specialize (IH' Hcap Hrate eq_refl Hb0 Hblast Hmono Hcosts'). simpl. lia.
Qed.

(** X12.  Conservation: for an identifier without a bucket (never seen, or
    just reset), a limiter of non-negative capacity and rate lets through,
    over any run of requests of non-negative cost at clock readings that do
    not go back, a total cost of at most the capacity plus what the refill
    rate yields between the first and the last request,
    [capacity + floor((t_last - t_first) * refillRate / 1000)]. *)
Theorem RateLimiter_admitted_cost_is_bounded :
  forall rl (identifier : string) (cost1 t1 : Z) (rest : list (Z * Z)),
    0 <= RateLimiter.capacity rl ->
    0 <= RateLimiter.refillRate rl ->
    RateLimiter.buckets rl !! identifier = None ->
    0 <= cost1 ->
    Forall (fun r : Z * Z => 0 <= r.1) rest ->
    nondecreasingFrom t1 rest ->
    (admittedCost rl identifier ((cost1, t1) :: rest)).1
    <= RateLimiter.capacity rl
       + ((lastReading t1 rest - t1) * RateLimiter.refillRate rl) / 1000.
Proof.
  intros rl identifier cost1 t1 rest Hcap Hrate Hnone Hcost Hcosts Hmono.
  assert (Hfresh : RateLimiter.refilled rl identifier t1
                   = RateLimiter.mkBucket (RateLimiter.capacity rl) t1).
  { unfold RateLimiter.refilled. rewrite Hnone.
    unfold RateLimiter.tokensToAdd. simpl. by rewrite Z.sub_diag, Z.mul_0_l. }
  simpl. rewrite RateLimiter_isAllowed_unfold. cbv zeta. rewrite Hfresh. simpl.
  destruct (Z.geb_spec (RateLimiter.capacity rl) cost1) as [Henough|Hshort].
  - match goal with
    | |- context [admittedCost ?rl' identifier rest] =>
        pose proof (admittedCost_bucket_budget rl'
                      identifier (RateLimiter.mkBucket (RateLimiter.capacity rl - cost1) t1)
                      t1 rest) as Hrest;
        destruct (admittedCost rl' identifier rest) as [total rl'']
    end.
    simpl in Hrest. rewrite lookup_insert_eq in Hrest.
    specialize (Hrest Hcap Hrate eq_refl ltac:(lia) ltac:(lia) Hmono Hcosts). simpl. lia.
  - match goal with
    | |- context [admittedCost ?rl' identifier rest] =>
        pose proof (admittedCost_bucket_budget rl'
                      identifier (RateLimiter.mkBucket (RateLimiter.capacity rl) t1)
                      t1 rest) as Hrest;
        destruct (admittedCost rl' identifier rest) as [total rl'']
    end.
    simpl in Hrest. rewrite lookup_insert_eq in Hrest.
    specialize (Hrest Hcap Hrate eq_refl ltac:(lia) ltac:(lia) Hmono Hcosts). simpl. lia.
Qed.
End RateLimiterMore2.

Lemma RateLimiter_identifiers_are_independent_witness :
  let rl := RateLimiter.mk ∅ 100 10 60000 in
  (RateLimiter.isAllowed (RateLimiter.isAllowed rl "user-1" 100 0).2 "user-2" 1 0).1
  = (RateLimiter.isAllowed rl "user-2" 1 0).1.
Proof.
  intros rl.
  destruct (RateLimiter_identifiers_are_independent rl "user-1" "user-2" 100 1 0 0)
    as (_ & Hdecision & _); [discriminate | exact Hdecision].
Defined.

Lemma RateLimiter_getRemaining_predicts_isAllowed_witness :
  let rl := RateLimiter.mk ∅ 100 10 60000 in
  RateLimiter.getRemaining (RateLimiter.isAllowed rl "user-1" 30 0).2 "user-1" 0
  = RateLimiter.getRemaining rl "user-1" 0
    - (if (RateLimiter.isAllowed rl "user-1" 30 0).1 then 30 else 0).
Proof.
  intros rl.
  apply (RateLimiter_getRemaining_predicts_isAllowed rl "user-1" 30 0);
    [simpl; lia | simpl; lia | lia |].
  intros b Hb. simpl in Hb. by rewrite lookup_empty in Hb.
Defined.

Lemma RateLimiter_cost_above_capacity_is_always_denied_witness :
  (RateLimiter.isAllowed
     (foldl RateLimiter.step (RateLimiter.mk ∅ 100 10 60000)
        [RateLimiter.OIsAllowed "user-1" 1 0; RateLimiter.OReset "user-1";
         RateLimiter.OCleanup 500000])
     "user-1" 101 900000).1 = false.
Proof.
  apply (RateLimiter_cost_above_capacity_is_always_denied 100 10 60000
           (RateLimiter.mk ∅ 100 10 60000)); [reflexivity | | lia].
  repeat constructor. simpl. lia.
Defined.

Lemma RateLimiter_cleanup_is_not_observable_witness :
  let rl := RateLimiter.mk {[ "user-1" := RateLimiter.mkBucket 0 0 ]} 100 10 60000 in
  RateLimiter.buckets (RateLimiter.cleanup rl 120001) !! "user-1" = None
  /\ (RateLimiter.isAllowed (RateLimiter.cleanup rl 120001) "user-1" 100 120001).1
     = (RateLimiter.isAllowed rl "user-1" 100 120001).1.
Proof.
  intros rl. split; [vm_compute; reflexivity|].
  apply (RateLimiter_cleanup_is_not_observable rl 120001 "user-1" 100 120001);
    [simpl; lia | simpl; lia | simpl; lia | | lia].
  intros b Hb. subst rl. simpl in Hb. rewrite lookup_singleton_eq in Hb.
  injection Hb as <-. simpl. lia.
Defined.

Lemma RateLimiter_admitted_cost_is_bounded_witness :
  (admittedCost (RateLimiter.mk ∅ 10 1 60000) "user-1"
     [(4, 0); (7, 500); (6, 1500); (3, 2999); (1, 3000)]).1
  <= 10 + ((lastReading 0 [(7, 500); (6, 1500); (3, 2999); (1, 3000)] - 0) * 1) / 1000.
Proof.
  apply (RateLimiter_admitted_cost_is_bounded (RateLimiter.mk ∅ 10 1 60000) "user-1" 4 0
           [(7, 500); (6, 1500); (3, 2999); (1, 3000)]);
    [simpl; lia | simpl; lia | apply lookup_empty | lia | | simpl; lia].
  repeat constructor; simpl; lia.
Defined.

(** ** The embedding gateway: what a call leaves behind *)

Section EmbeddingsMore.
Context `{Platform}.



Lemma generateEmbedding_frame (env : ProviderEnv) (g : Gateway) (text : string)
    (now later : Z) :
  providerCalls (generateEmbedding env g text now later).2 = providerCalls g
  /\ embeddingRateLimiter (generateEmbedding env g text now later).2 = embeddingRateLimiter g.
Proof.
  unfold generateEmbedding. destruct (OPENAI_API_KEY env); simpl; [|done].
  destruct (LRUCache.get (embeddingCache g) (hashText text) now) as [[v|] ec]; done.
Qed.

(** With no cached embedding, [generateEmbedding] fails (for want of the
    API key, or on the undefined binding) and caches nothing. *)
Lemma generateEmbedding_cold (env : ProviderEnv) (g : Gateway) (text : string) (now later : Z) :
  LRUCache.cache (embeddingCache g) = [] ->
  exists e g',
    generateEmbedding env g text now later = (Err e, g')
    /\ LRUCache.cache (embeddingCache g') = []
    /\ providerCalls g' = providerCalls g.
Proof.
  intros Hcold. unfold generateEmbedding.
  destruct (OPENAI_API_KEY env); simpl; [|by eexists _, _].
  rewrite LRUCache_get_miss by (by rewrite Hcold). by eexists _, _.
Qed.
Lemma generateEmbedding_result (env : ProviderEnv) (g : Gateway) (text : string)
    (now later : Z) :
  OPENAI_API_KEY env = true ->
  (generateEmbedding env g text now later).1
  = match cachedEmbedding g now text with
    | Some v => Ok v
    | None => Err undefined_isAllowed
    end.
Proof.
  intros Hkey. unfold generateEmbedding, cachedEmbedding. rewrite Hkey. simpl.
  destruct (LRUCache.get (embeddingCache g) (hashText text) now) as [[v|] ec]; done.
Qed.

Lemma generateEmbeddings_result (env : ProviderEnv) (g : Gateway) (texts : list string)
    (now later : Z) :
  OPENAI_API_KEY env = true ->
  (generateEmbeddings env g texts now later).1
  = match uncachedTexts g now texts with
    | [] => Ok (map (cachedEmbedding g now) texts)
    | _ :: _ => Err undefined_isAllowed
    end.
Proof.
  intros Hkey. destruct (generateEmbeddings_lookup g texts now) as [ec Hlookup].
  pose proof (missesOf_texts (cachedEmbedding g now) texts O) as Hmisses.
  fold (uncachedTexts g now texts) in Hmisses.
  unfold generateEmbeddings. rewrite Hkey, Hlookup. simpl negb. cbv iota.
  rewrite <- Hmisses.
  by destruct (missesOf (cachedEmbedding g now) texts 0).
Qed.

(** X15.  A batch succeeds exactly when each of its texts would succeed
    alone: with the API key configured, if [generateEmbedding] returns a
    vector for every text of the batch (from the same state, at the same
    clock reading), [generateEmbeddings] returns those vectors, one per
    input, in input order; if it fails for one of them, the whole batch
    fails with the [TypeError], also for the texts that are cached. *)
Theorem generateEmbeddings_agrees_with_generateEmbedding :
  forall (env : ProviderEnv) (g : Gateway) (texts : list string) (now later : Z),
    OPENAI_API_KEY env = true ->
    let single text := (generateEmbedding env g text now later).1 in
    let r := generateEmbeddings env g texts now later in
    ((forall text, text ∈ texts -> exists v, single text = Ok v) ->
       r.1 = Ok (map (fun text => match single text with
                                  | Ok v => Some v
                                  | Err _ => None
                                  end) texts))
    /\ (forall text, text ∈ texts -> (exists e, single text = Err e) ->
          r.1 = Err undefined_isAllowed).
Proof.
  intros env g texts now later Hkey single r. subst r.
  rewrite (generateEmbeddings_result env g texts now later Hkey).
  assert (Hsingle : forall text,
            single text = match cachedEmbedding g now text with
                          | Some v => Ok v
                          | None => Err undefined_isAllowed
                          end).
  { intros text. by apply generateEmbedding_result. }
  split.
  - intros Hall.
    assert (Hnone : uncachedTexts g now texts = []).
    { apply filter_none, Forall_forall. intros text Hin Hmiss.
      destruct (Hall text Hin) as [v Hv]. rewrite Hsingle, Hmiss in Hv. done. }
    rewrite Hnone. f_equal. apply map_ext_in. intros text Hin.
    rewrite Hsingle. by destruct (cachedEmbedding g now text).
  - intros text Hin [e He].
    assert (Hmiss : text ∈ uncachedTexts g now texts).
    { apply list_elem_of_filter. split; [|done].
      rewrite Hsingle in He. by destruct (cachedEmbedding g now text). }
    destruct (uncachedTexts g now texts); [by apply elem_of_nil in Hmiss | done].
Qed.
End EmbeddingsMore.


Lemma generateEmbeddings_agrees_with_generateEmbedding_witness :
  let g := mkGateway
             (LRUCache.mk [(@hashText samplePlatform "a", LRUCache.mkEntry [1 # 1]%Q 0 1)]
                500 86400000)
             (RateLimiter.mk ∅ 100 10 60000) [] in
  let ready := mkProviderEnv true (fun _ => Ok [[2 # 1]%Q]) in
  (@generateEmbedding samplePlatform ready g "a" 1000 1500).1 = Ok [1 # 1]%Q
  /\ (@generateEmbeddings samplePlatform ready g ["a"; "b"]%string 1000 1500).1
     = Err "Cannot read properties of undefined (reading 'isAllowed')".
Proof.
  intros g ready. split; [vm_compute; reflexivity|].
  destruct (@generateEmbeddings_agrees_with_generateEmbedding samplePlatform ready g
              ["a"; "b"]%string 1000 1500 eq_refl) as [_ Hfails].
  apply (Hfails "b"%string).
  - apply elem_of_cons. right. apply elem_of_cons. by left.
  - eexists. vm_compute. reflexivity.
Defined.

(** ** The rest of the memory store *)

Section StoreMore.
Context `{Platform}.

Lemma orderByCreatedAtDesc_snoc_newest (rows : list Memory) (x : Memory) :
  Forall (fun m => createdAt m <= createdAt x) rows ->
  orderByCreatedAtDesc (rows ++ [x]) = x :: orderByCreatedAtDesc rows.
Proof.
  unfold orderByCreatedAtDesc. induction 1 as [|r rows Hr Hrows IH]; simpl; [done|].
  rewrite IH. simpl. destruct (Z.ltb_spec (createdAt x) (createdAt r)); [lia | done].
Qed.

(** X16.  A stored memory is the first one listed: when the embedding is
    obtained and the insert runs, [storeMemory] appends exactly one row
    (the given owner and content, the obtained vector, metadata [{}] and
    importance ['medium'] unless given), and, every other memory of the
    owner being older, [getUserMemories] for the owner then lists that row first,
    followed by what it listed before; the lists of other users are
    unchanged. *)
Theorem storeMemory_row_is_listed_first :
  forall (env : StoreEnv) (w : World) (user newContent : string)
         (newMetadata newImportance : option string) (newId : string)
         (dbNow now later : Z) (v : Vec) (g : Gateway) (limit : Z),
    generateEmbedding (provider env) (gateway w) newContent now later = (Ok v, g) ->
    dbFailure env = None ->
    (forall m, m ∈ memoryTable w -> userId m = user -> createdAt m < dbNow) ->
    1 <= limit ->
    let stored := mkMemory newId user newContent (Some v) (default "{}"%string newMetadata)
                    (default "medium"%string newImportance) dbNow dbNow in
    let r := storeMemory env w user newContent newMetadata newImportance newId dbNow
               now later in
    r.1 = Ok stored
    /\ memoryTable r.2 = memoryTable w ++ [stored]
    /\ getUserMemories env r.2 user (Some limit)
       = Ok (stored :: selectRecent (memoryTable w) user (limit - 1))
    /\ forall other l,
         other ≠ user ->
         getUserMemories env r.2 other l = getUserMemories env w other l.
Proof.
  intros env w user newContent newMetadata newImportance newId dbNow now later v g limit
    Hemb Hdb Hnewest Hlimit stored r.
  subst r. unfold storeMemory. rewrite Hemb, Hdb. fold stored. simpl.
  split; [done|]. split; [done|]. split.
  - unfold getUserMemories. rewrite Hdb. simpl. f_equal.
    unfold selectRecent. rewrite filter_app.
    rewrite (filter_cons_True _ stored []) by done. rewrite filter_nil.
    rewrite orderByCreatedAtDesc_snoc_newest.
    + replace (Z.to_nat limit) with (S (Z.to_nat (limit - 1))) by lia. done.
    + apply Forall_forall. intros m Hm. apply list_elem_of_filter in Hm as [Hu Hm].
      simpl. specialize (Hnewest m Hm Hu). lia.
  - intros other l Hother. unfold getUserMemories. destruct (dbFailure env); [done|].
    simpl. f_equal. unfold selectRecent. rewrite filter_app.
    rewrite (filter_cons_False _ stored []) by (simpl; congruence).
    by rewrite filter_nil, app_nil_r.
Qed.

Lemma NoDup_fmap_filter {A B : Type} (f : A -> B) (P : A -> Prop)
    `{forall x, Decision (P x)} (l : list A) :
  NoDup (f <$> l) -> NoDup (f <$> filter P l).
Proof.
  induction l as [|a l IH]; csimpl; [done|]. intros Hnd.
  apply NoDup_cons in Hnd as [Ha Hnd].
  destruct (decide (P a)).
  - rewrite filter_cons_True by done. csimpl. apply NoDup_cons. split; [|by apply IH].
    intros Hin. apply Ha. apply list_elem_of_fmap in Hin as (y & Hy & Hin).
    apply list_elem_of_filter in Hin as [_ Hin]. rewrite Hy. by apply list_elem_of_fmap_2.
  - rewrite filter_cons_False by done. by apply IH.
Qed.

Lemma deleteMemory_own_row (env : StoreEnv) (w : World) (row : Memory) :
  dbFailure env = None ->
  NoDup (id <$> memoryTable w) ->
  row ∈ memoryTable w ->
  let r := deleteMemory env w (id row) (userId row) in
  r.1 = Ok true
  /\ (forall m, m ∈ memoryTable r.2 <-> m ∈ memoryTable w /\ m ≠ row)
  /\ NoDup (id <$> memoryTable r.2)
  /\ gateway r.2 = gateway w /\ queryCache r.2 = queryCache w
  /\ memoryRateLimiter r.2 = memoryRateLimiter w /\ indexQueries r.2 = indexQueries w.
Proof.
  intros Hdb Hnd Hrow r. subst r. unfold deleteMemory. rewrite Hdb. simpl.
  split; [|split; [|split; [|done]]].
  - assert (Hin : row ∈ filter (fun m => id m = id row /\ userId m = userId row) (memoryTable w)).
    { apply list_elem_of_filter. done. }
    destruct (filter _ (memoryTable w)); [by apply elem_of_nil in Hin | done].
  - intros m. rewrite list_elem_of_filter. split.
    + intros [Hnot Hm]. split; [done|]. intros ->. by apply Hnot.
    + intros [Hm Hne]. split; [|done]. intros [Hid _]. apply Hne.
      by apply (NoDup_fmap_eq id (memoryTable w)).
  - by apply NoDup_fmap_filter.
Qed.

(** X17.  Deleting one's own memory: in a table with unique ids, when the
    statement runs, [deleteMemory] for a row's id and owner answers [true]
    and removes exactly that row; a second [deleteMemory] of the same id
    answers [false] and changes nothing, and [getUserMemories] no longer
    lists the row. *)
Theorem deleteMemory_by_owner_removes_exactly_the_row :
  forall (env : StoreEnv) (w : World) (row : Memory),
    dbFailure env = None ->
    NoDup (id <$> memoryTable w) ->
    row ∈ memoryTable w ->
    let r := deleteMemory env w (id row) (userId row) in
    r.1 = Ok true
    /\ (forall m, m ∈ memoryTable r.2 <-> m ∈ memoryTable w /\ m ≠ row)
    /\ deleteMemory env r.2 (id row) (userId row) = (Ok false, r.2)
    /\ forall limit out,
         getUserMemories env r.2 (userId row) limit = Ok out -> row ∉ out.
Proof.
  intros env w row Hdb Hnd Hrow r.
  destruct (deleteMemory_own_row env w row Hdb Hnd Hrow) as (Hr & Htable & _).
  fold r in Hr, Htable. split; [exact Hr|]. split; [exact Htable|].
  assert (Hgone : Forall (fun m => ¬ (id m = id row /\ userId m = userId row)) (memoryTable r.2)).
  { apply Forall_forall. intros m Hm [Hid _]. apply Htable in Hm as [Hm Hne].
    apply Hne. by apply (NoDup_fmap_eq id (memoryTable w)). }
  split.
  - unfold deleteMemory at 1. rewrite Hdb.
    rewrite (filter_none _ _ Hgone). rewrite (filter_all _ _ Hgone).
    by rewrite with_memoryTable_same.
  - intros limit out. unfold getUserMemories. rewrite Hdb. intros [= <-] Hin.
    unfold selectRecent in Hin. apply elem_of_take in Hin as (i & Hin & _).
    apply list_elem_of_lookup_2 in Hin. rewrite orderByCreatedAtDesc_perm in Hin.
    apply list_elem_of_filter in Hin as [_ Hin]. apply Htable in Hin as [_ Hne]. done.
Qed.

(** X18.  [getUserMemories] lists the owner's memories only, newest first,
    at most [limit] of them (50 when no limit is given), taking the newest;
    these are exactly the memories the lexical fallback of a search scores,
    in the same order.  An error of the statement is rethrown. *)
Theorem getUserMemories_lists_the_most_recent_of_the_owner :
  forall (env : StoreEnv) (w : World) (user : string) (limit : option Z),
    (forall e, dbFailure env = Some e -> getUserMemories env w user limit = Err e)
    /\ (dbFailure env = None ->
          exists out,
            getUserMemories env w user limit = Ok out
            /\ mostRecentOf (memoryTable w) user (default 50 limit) out
            /\ (forall m, m ∈ out -> m ∈ memoryTable w /\ userId m = user)
            /\ (0 <= default 50 limit -> Z.of_nat (length out) <= default 50 limit)
            /\ forall query,
                 exists ranked,
                   fallbackTextSearch env w user query (default 50 limit) = Ok ranked
                   /\ memory <$> ranked = out).
Proof.
  intros env w user limit. unfold getUserMemories, fallbackTextSearch. split.
  - by intros e ->.
  - intros ->. eexists. split; [reflexivity|].
    pose proof (selectRecent_mostRecentOf (memoryTable w) user (default 50 limit)) as Hmost.
    split; [exact Hmost|]. split; [|split].
    + intros m Hm. unfold selectRecent in Hm. apply elem_of_take in Hm as (i & Hm & _).
      apply list_elem_of_lookup_2 in Hm. rewrite orderByCreatedAtDesc_perm in Hm.
      apply list_elem_of_filter in Hm as [Hu Hm]. done.
    + intros Hpos. destruct Hmost as (Hlen & _). rewrite Hlen. lia.
    + intros query. eexists. split; [reflexivity|]. apply textScore_memory.
Qed.
End StoreMore.

Section StoreMore2.
Context `{Platform}.

Lemma storeMemory_keeps_search_state env w user newContent newMetadata newImportance
    newId dbNow now later :
  let r := storeMemory env w user newContent newMetadata newImportance newId dbNow now later in
  queryCache r.2 = queryCache w /\ memoryRateLimiter r.2 = memoryRateLimiter w.
Proof.
  unfold storeMemory. destruct (generateEmbedding _ _ _ _ _) as [[v|e] g]; simpl; [|done].
  by destruct (dbFailure env).
Qed.

Lemma deleteMemory_keeps_search_state env w memoryId user :
  let r := deleteMemory env w memoryId user in
  queryCache r.2 = queryCache w /\ memoryRateLimiter r.2 = memoryRateLimiter w.
Proof. unfold deleteMemory. by destruct (dbFailure env). Qed.

Lemma updateMemory_keeps_search_state env w memoryId user newContent newMetadata
    newImportance now later updatedNow :
  let r := updateMemory env w memoryId user newContent newMetadata newImportance
             now later updatedNow in
  queryCache r.2 = queryCache w /\ memoryRateLimiter r.2 = memoryRateLimiter w.
Proof.
  unfold updateMemory. destruct (truthy newContent) as [c|].
  - destruct (generateEmbedding _ _ _ _ _) as [[v|e] g]; simpl; [|done].
    by destruct (dbFailure env).
  - by destruct (dbFailure env).
Qed.

Lemma searchMemories_hit_same_search_state env w w' user query limit threshold clk ranked :
  queryCache w' = queryCache w ->
  memoryRateLimiter w' = memoryRateLimiter w ->
  (RateLimiter.isAllowed (memoryRateLimiter w) user 1 (t_start clk)).1 = true ->
  (LRUCache.get (queryCache w)
     (hashQuery user query (default 5 limit) (default (7 # 10)%Q threshold)) (t_start clk)).1
  = Some ranked ->
  (searchMemories env w' user query limit threshold clk).1 = Ok ranked.
Proof.
  intros Hqc Hrl Hallowed Hhit.
  rewrite (searchMemories_hit env w' user query limit threshold clk ranked);
    [done | by rewrite Hrl | by rewrite Hqc].
Qed.

(** X19.  No write to the store invalidates a cached search: [storeMemory],
    [deleteMemory] and [updateMemory] leave the query cache and the memory
    limiter untouched, so a search that would be answered from the cache
    before the write is answered with the same ranked list after it; a
    deleted or rewritten memory keeps being returned until the entry
    expires. *)
Theorem memory_writes_do_not_invalidate_cached_searches :
  forall (env env' : StoreEnv) (w : World) (user query : string) (limit : option Z)
         (threshold : option Q) (clk : SearchClock) (ranked : list Scored)
         (memoryId owner newContent newId : string)
         (content' newMetadata newImportance : option string) (dbNow now later updatedNow : Z),
    (RateLimiter.isAllowed (memoryRateLimiter w) user 1 (t_start clk)).1 = true ->
    (LRUCache.get (queryCache w)
       (hashQuery user query (default 5 limit) (default (7 # 10)%Q threshold)) (t_start clk)).1
    = Some ranked ->
    (searchMemories env (deleteMemory env' w memoryId owner).2
       user query limit threshold clk).1 = Ok ranked
    /\ (searchMemories env
          (updateMemory env' w memoryId owner content' newMetadata newImportance
             now later updatedNow).2
          user query limit threshold clk).1 = Ok ranked
    /\ (searchMemories env
          (storeMemory env' w owner newContent newMetadata newImportance newId dbNow
             now later).2
          user query limit threshold clk).1 = Ok ranked.
Proof.
  intros env env' w user query limit threshold clk ranked memoryId owner newContent newId
    content' newMetadata newImportance dbNow now later updatedNow Hallowed Hhit.
  split; [|split].
  - destruct (deleteMemory_keeps_search_state env' w memoryId owner) as [Hqc Hrl].
    by apply (searchMemories_hit_same_search_state env w).
  - destruct (updateMemory_keeps_search_state env' w memoryId owner content' newMetadata
                newImportance now later updatedNow) as [Hqc Hrl].
    by apply (searchMemories_hit_same_search_state env w).
  - destruct (storeMemory_keeps_search_state env' w owner newContent newMetadata
                newImportance newId dbNow now later) as [Hqc Hrl].
    by apply (searchMemories_hit_same_search_state env w).
Qed.

Lemma fmap_patch_none (P : Memory -> Prop) `{forall m, Decision (P m)}
    (patch : Memory -> Memory) (rows : list Memory) :
  Forall (fun m => ¬ P m) rows ->
  (fun m => if decide (P m) then patch m else m) <$> rows = rows.
Proof.
  induction 1 as [|m rows Hm Hrows IH]; csimpl; [done|].
  rewrite IH. by destruct (decide (P m)).
Qed.

(** X20.  Updating a memory on behalf of another user changes nothing and
    never returns the row: in a table with unique ids, [updateMemory] for a
    row's id and a user who does not own it leaves the table as it was and
    answers [null] or an error, and no provider call is made.  The row is
    looked up only after the embedding step: when a non-empty content is
    given and embedding it fails (as it does whenever the cache has no live
    entry for it), the call fails with that error instead of answering
    [null]. *)
Theorem updateMemory_foreign_row_is_left_alone :
  forall (env : StoreEnv) (w : World) (row : Memory) (other : string)
         (newContent newMetadata newImportance : option string) (now later updatedNow : Z),
    NoDup (id <$> memoryTable w) ->
    row ∈ memoryTable w ->
    userId row ≠ other ->
    let r := updateMemory env w (id row) other newContent newMetadata newImportance
               now later updatedNow in
    memoryTable r.2 = memoryTable w
    /\ (r.1 = Ok None \/ exists e, r.1 = Err e)
    /\ (dbFailure env = None ->
        (forall c v g, truthy newContent = Some c ->
                       generateEmbedding (provider env) (gateway w) c now later = (Ok v, g) ->
                       r.1 = Ok None) /\
        (truthy newContent = None -> r.1 = Ok None))
    /\ (forall c e g, truthy newContent = Some c ->
                      generateEmbedding (provider env) (gateway w) c now later = (Err e, g) ->
                      r.1 = Err e)
    /\ providerCalls (gateway r.2) = providerCalls (gateway w).
Proof.
  intros env w row other newContent newMetadata newImportance now later updatedNow
    Hnd Hrow Hother r.
  assert (Hnone : forall rows, rows = memoryTable w ->
            Forall (fun m => ¬ (id m = id row /\ userId m = other)) rows).
  { intros rows ->. apply Forall_forall. intros m Hm [Hid Hu]. apply Hother.
    rewrite <- Hu. f_equal. symmetry. by apply (NoDup_fmap_eq id (memoryTable w)). }
  subst r. unfold updateMemory.
  destruct (truthy newContent) as [c|].
  - destruct (generateEmbedding_frame (provider env) (gateway w) c now later) as [Hlog _].
    destruct (generateEmbedding (provider env) (gateway w) c now later) as [[v|e] g] eqn:Hemb;
      simpl in *.
    + destruct (dbFailure env) as [msg|]; simpl.
      * split; [done|]. split; [right; by eexists|]. split; [done|].
        split; [|done]. intros c' e' g' [= <-] Herr. rewrite Hemb in Herr. done.
      * rewrite (fmap_patch_none _ _ _ (Hnone _ eq_refl)).
        rewrite (filter_none _ _ (Hnone _ eq_refl)). simpl.
        split; [done|]. split; [by left|]. split; [done|].
        split; [|done]. intros c' e' g' [= <-] Herr. rewrite Hemb in Herr. done.
    + split; [done|]. split; [right; by eexists|]. split.
      * intros _. split; [|done]. intros c' v' g' [= <-] Hok. rewrite Hemb in Hok. done.
      * split; [|done]. intros c' e' g' [= <-] Herr. rewrite Hemb in Herr.
        by injection Herr as <- _.
  - destruct (dbFailure env) as [msg|]; simpl.
    + split; [done|]. split; [right; by eexists|]. done.
    + rewrite (fmap_patch_none _ _ _ (Hnone _ eq_refl)).
      rewrite (filter_none _ _ (Hnone _ eq_refl)). simpl.
      split; [done|]. split; [by left|]. done.
Qed.

Lemma filter_unique_id (rows : list Memory) (row : Memory) :
  NoDup (id <$> rows) -> row ∈ rows ->
  filter (fun m => id m = id row /\ userId m = userId row) rows = [row].
Proof.
  induction rows as [|m rows IH]; csimpl; intros Hnd Hrow.
  - by apply elem_of_nil in Hrow.
  - apply NoDup_cons in Hnd as [Hm Hnd].
    apply elem_of_cons in Hrow as [->|Hrow].
    + rewrite filter_cons_True by done. f_equal. apply filter_none.
      apply Forall_forall. intros m' Hm' [Hid _]. apply Hm. rewrite <- Hid.
      by apply list_elem_of_fmap_2.
    + rewrite filter_cons_False.
      * by apply IH.
      * intros [Hid _]. apply Hm. rewrite Hid. by apply list_elem_of_fmap_2.
Qed.

(** X21.  Updating one's own memory rewrites that row only: in a table with
    unique ids, when the embedding step and the statement succeed,
    [updateMemory] returns the row with the given fields replaced (an absent
    or empty content or importance keeps the stored one, and then no
    embedding is requested), [updatedAt] set, and id, owner and [createdAt]
    kept; the table keeps its ids in their order, holds the returned row,
    and every other row is as it was. *)
Theorem updateMemory_rewrites_only_the_row :
  forall (env : StoreEnv) (w : World) (row : Memory)
         (newContent newMetadata newImportance : option string) (now later updatedNow : Z)
         (embeddingArray : option Vec) (g : Gateway),
    NoDup (id <$> memoryTable w) ->
    row ∈ memoryTable w ->
    dbFailure env = None ->
    match truthy newContent with
    | Some c =>
        exists v, generateEmbedding (provider env) (gateway w) c now later = (Ok v, g)
                  /\ embeddingArray = Some v
    | None => embeddingArray = None /\ g = gateway w
    end ->
    let patched := patchMemory row (truthy newContent) embeddingArray newMetadata
                     (truthy newImportance) updatedNow in
    let r := updateMemory env w (id row) (userId row) newContent newMetadata newImportance
               now later updatedNow in
    r.1 = Ok (Some patched)
    /\ gateway r.2 = g
    /\ id patched = id row /\ userId patched = userId row
    /\ createdAt patched = createdAt row /\ updatedAt patched = updatedNow
    /\ (truthy newContent = None ->
        content patched = content row /\ embedding patched = embedding row)
    /\ id <$> memoryTable r.2 = id <$> memoryTable w
    /\ patched ∈ memoryTable r.2
    /\ forall m, m ∈ memoryTable w -> m ≠ row -> m ∈ memoryTable r.2.
Proof.
  intros env w row newContent newMetadata newImportance now later updatedNow embeddingArray g
    Hnd Hrow Hdb Hstep patched r.
  assert (Hrun :
    r = (Ok (Some patched),
         with_memoryTable (with_gateway w g)
           ((fun m => if decide (id m = id row /\ userId m = userId row)
                      then patchMemory m (truthy newContent) embeddingArray newMetadata
                             (truthy newImportance) updatedNow
                      else m) <$> memoryTable w))).
  { subst r. unfold updateMemory.
    destruct (truthy newContent) as [c|].
    - destruct Hstep as (v & Hemb & ->). rewrite Hemb. simpl. rewrite Hdb.
      rewrite (filter_unique_id _ _ Hnd Hrow). done.
    - destruct Hstep as [-> ->]. rewrite Hdb. rewrite (filter_unique_id _ _ Hnd Hrow).
      simpl. by destruct w. }
  rewrite Hrun. simpl.
  split; [done|]. split; [done|]. split; [done|]. split; [done|]. split; [done|].
  split; [done|]. split.
  { intros Hnone. subst patched. rewrite Hnone in *. destruct Hstep as [-> _]. done. }
  split; [|split].
  - rewrite <- list_fmap_compose. apply list_fmap_ext. intros i m _. simpl.
    by destruct (decide _).
  - apply list_elem_of_fmap. exists row. split; [|done].
    by destruct (decide (id row = id row /\ userId row = userId row)) as [_|[]].
  - intros m Hm Hne. apply list_elem_of_fmap. exists m. split; [|done].
    destruct (decide (id m = id row /\ userId m = userId row)) as [[Hid _]|_]; [|done].
    exfalso. apply Hne. by apply (NoDup_fmap_eq id (memoryTable w)).
Qed.
End StoreMore2.

(** ** Cold start: the similarity path is never taken *)

Section ColdStart.
Context `{Platform}.

(** X14.  From a cold start (no cached embedding, no cached ranked list)
    the store never embeds anything and never queries the index, and it
    stays cold: [storeMemory] fails and stores nothing; [searchMemories]
    answers with the outcome of the lexical fallback, without provider call
    or index query; [updateMemory] with a non-empty content fails and
    changes nothing; and after each of them, and after [deleteMemory], both
    caches are still empty.  So no sequence of these calls ever leaves the
    cold start. *)
Theorem cold_start_has_no_similarity_path :
  forall (env : StoreEnv) (w : World),
    coldStart w ->
    (forall (user newContent : string) (newMetadata newImportance : option string)
            (newId : string) (dbNow now later : Z),
        let r := storeMemory env w user newContent newMetadata newImportance newId dbNow
                   now later in
        (exists e, r.1 = Err e) /\ memoryTable r.2 = memoryTable w /\ coldStart r.2)
    /\ (forall (user query : string) (limit : option Z) (threshold : option Q)
               (clk : SearchClock),
          let r := searchMemories env w user query limit threshold clk in
          r.1 = fallbackTextSearch env w user query (default 5 limit)
          /\ indexQueries r.2 = indexQueries w
          /\ providerCalls (gateway r.2) = providerCalls (gateway w)
          /\ memoryTable r.2 = memoryTable w
          /\ coldStart r.2)
    /\ (forall (memoryId user : string) (newContent newMetadata newImportance : option string)
               (now later updatedNow : Z),
          let r := updateMemory env w memoryId user newContent newMetadata newImportance
                     now later updatedNow in
          coldStart r.2
          /\ forall c, truthy newContent = Some c ->
                       (exists e, r.1 = Err e) /\ memoryTable r.2 = memoryTable w)
    /\ (forall memoryId user : string, coldStart (deleteMemory env w memoryId user).2).
Proof.
  intros env w [Hec Hqc]. split; [|split; [|split]].
  - intros user newContent newMetadata newImportance newId dbNow now later r.
    subst r. unfold storeMemory.
    destruct (generateEmbedding_cold (provider env) (gateway w) newContent now later Hec)
      as (e & g' & Hg & Hcold & _).
    rewrite Hg. simpl. split; [by eexists|]. split; [done|]. by split.
  - intros user query limit threshold clk r. subst r.
    destruct (RateLimiter.isAllowed (memoryRateLimiter w) user 1 (t_start clk)).1 eqn:Hadm.
    + assert (Hget : LRUCache.get (queryCache w)
                       (hashQuery user query (default 5 limit) (default (7 # 10)%Q threshold))
                       (t_start clk) = (None, queryCache w)).
      { apply LRUCache_get_miss. by rewrite Hqc. }
      unfold searchMemories.
      rewrite (searchMemories_try_miss env w user query (default 5 limit)
                 (default (7 # 10)%Q threshold) clk Hadm) by (by rewrite Hget).
      cbv zeta. rewrite Hget.
      destruct (generateEmbedding_cold (provider env) (gateway w) query (t_start clk)
                  (t_embedded clk) Hec) as (e & g' & Hg & Hcold & Hlog).
      rewrite Hg. simpl.
      split; [by apply fallbackTextSearch_table|]. split; [done|]. split; [done|].
      split; [done|]. by split.
    + rewrite (searchMemories_denied env w user query limit threshold clk Hadm). simpl.
      split; [done|]. split; [done|]. split; [done|]. split; [done|]. by split.
  - intros memoryId user newContent newMetadata newImportance now later updatedNow r.
    subst r. unfold updateMemory. destruct (truthy newContent) as [c|].
    + destruct (generateEmbedding_cold (provider env) (gateway w) c now later Hec)
        as (e & g' & Hg & Hcold & _).
      rewrite Hg. simpl. split; [by split|]. intros c' _. split; [by eexists | done].
    + split; [|done]. destruct (dbFailure env); simpl; by split.
  - intros memoryId user. unfold deleteMemory. destruct (dbFailure env); simpl; by split.
Qed.
End ColdStart.

Lemma storeMemory_row_is_listed_first_witness :
  let old := mkMemory "m1" "u1" "Buy milk" None "{}" "medium" 100 100 in
  let env := mkStoreEnv (mkProviderEnv true (fun _ => Err "unused"))
                        (fun _ _ _ _ _ => Err "unused") None in
  let embedded :=
    mkGateway
      (LRUCache.mk [(@hashText samplePlatform "Call Bob", LRUCache.mkEntry [1 # 2]%Q 0 1)]
         500 86400000)
      (RateLimiter.mk ∅ 100 10 60000) [] in
  let w := with_gateway (initialWorld [old]) embedded in
  let r := @storeMemory samplePlatform env w "u1" "Call Bob" None None "m2" 200 1000 1005 in
  getUserMemories env r.2 "u1" (Some 5)
  = Ok [mkMemory "m2" "u1" "Call Bob" (Some [1 # 2]%Q) "{}" "medium" 200 200; old].
Proof.
  intros old env embedded w r.
  destruct (@storeMemory_row_is_listed_first samplePlatform env w "u1" "Call Bob" None None
              "m2" 200 1000 1005 [1 # 2]%Q
              (@generateEmbedding samplePlatform (provider env) (gateway w) "Call Bob"
                 1000 1005).2 5)
    as (_ & _ & Hlist & _).
  - vm_compute. reflexivity.
  - reflexivity.
  - intros m Hm _. apply elem_of_cons in Hm as [->|Hm]; [simpl; lia|].
    by apply elem_of_nil in Hm.
  - lia.
  - exact Hlist.
Defined.

Lemma deleteMemory_by_owner_removes_exactly_the_row_witness :
  let mine := mkMemory "m1" "u1" "Buy milk" None "{}" "medium" 100 100 in
  let w := initialWorld [mine; mkMemory "m2" "u2" "Buy milk" None "{}" "medium" 200 200] in
  let env := mkStoreEnv (mkProviderEnv true (fun _ => Err "unused"))
                        (fun _ _ _ _ _ => Err "unused") None in
  (deleteMemory env w "m1" "u1").1 = Ok true
  /\ deleteMemory env (deleteMemory env w "m1" "u1").2 "m1" "u1"
     = (Ok false, (deleteMemory env w "m1" "u1").2).
Proof.
  intros mine w env.
  destruct (deleteMemory_by_owner_removes_exactly_the_row env w mine)
    as (Htrue & _ & Hagain & _).
  - reflexivity.
  - apply (bool_decide_unpack _). vm_compute. exact I.
  - simpl. left.
  - split; [exact Htrue | exact Hagain].
Defined.

Lemma getUserMemories_lists_the_most_recent_of_the_owner_witness :
  let old := mkMemory "m1" "u1" "Buy milk" None "{}" "medium" 100 100 in
  let new := mkMemory "m3" "u1" "Call Bob" None "{}" "high" 300 300 in
  let w := initialWorld [old; mkMemory "m2" "u2" "other" None "{}" "low" 200 200; new] in
  let env := mkStoreEnv (mkProviderEnv true (fun _ => Err "unused"))
                        (fun _ _ _ _ _ => Err "unused") None in
  exists out,
    getUserMemories env w "u1" None = Ok out
    /\ mostRecentOf (memoryTable w) "u1" 50 out.
Proof.
  intros old new w env.
  destruct (@getUserMemories_lists_the_most_recent_of_the_owner samplePlatform env w "u1" None)
    as [_ Hruns].
  destruct (Hruns eq_refl) as (out & Hget & Hmost & _).
  exists out. split; [exact Hget | exact Hmost].
Defined.

Lemma memory_writes_do_not_invalidate_cached_searches_witness :
  let row := mkMemory "m1" "u1" "Foo bar" None "{}" "medium" 100 100 in
  let cachedList := [mkScored row (9 # 10)%Q] in
  let cacheKey := @hashQuery samplePlatform "u1" "foo" 5 (7 # 10)%Q in
  let w := with_queryCache (initialWorld [row])
             (LRUCache.mk [(cacheKey, LRUCache.mkEntry cachedList 1000 1)] 200 1800000) in
  let env := mkStoreEnv (mkProviderEnv true (fun _ => Err "unused"))
                        (fun _ _ _ _ _ => Err "unused") None in
  memoryTable (deleteMemory env w "m1" "u1").2 = []
  /\ (@searchMemories samplePlatform env (deleteMemory env w "m1" "u1").2 "u1" "foo" None None
        (mkSearchClock 2000 2000 2000)).1 = Ok cachedList.
Proof.
  intros row cachedList cacheKey w env. split; [vm_compute; reflexivity|].
  destruct (@memory_writes_do_not_invalidate_cached_searches samplePlatform env env w
              "u1" "foo" None None (mkSearchClock 2000 2000 2000) cachedList
              "m1" "u1" "unused" "unused" None None None 0 0 0 0)
    as (Hdeleted & _).
  - vm_compute. reflexivity.
  - vm_compute. reflexivity.
  - exact Hdeleted.
Defined.

Lemma updateMemory_foreign_row_is_left_alone_witness :
  let victimRow := mkMemory "m1" "victim" "my secret" None "{}" "medium" 100 100 in
  let w := initialWorld
             [victimRow; mkMemory "m2" "attacker" "mine" None "{}" "medium" 200 200] in
  let env := mkStoreEnv (mkProviderEnv true (fun _ => Ok [[1 # 2]%Q]))
                        (fun _ _ _ _ _ => Err "unused") None in
  let r := @updateMemory samplePlatform env w "m1" "attacker" (Some "overwritten") None None
             0 5 9 in
  memoryTable r.2 = memoryTable w
  /\ r.1 = Err "Cannot read properties of undefined (reading 'isAllowed')"
  /\ providerCalls (gateway r.2) = [].
Proof.
  intros victimRow w env r.
  destruct (@updateMemory_foreign_row_is_left_alone samplePlatform env w victimRow "attacker"
              (Some "overwritten"%string) None None 0 5 9)
    as (Htable & _ & _ & Hfails & Hcalls).
  - apply (bool_decide_unpack _). vm_compute. exact I.
  - simpl. left.
  - simpl. discriminate.
  - split; [exact Htable|]. split; [|exact Hcalls].
    apply (Hfails "overwritten"%string _
             (@generateEmbedding samplePlatform (provider env) (gateway w) "overwritten" 0 5).2);
      [reflexivity | vm_compute; reflexivity].
Defined.

Lemma updateMemory_rewrites_only_the_row_witness :
  let mine := mkMemory "m1" "u1" "Buy milk" (Some [1 # 1]%Q) "{}" "medium" 100 100 in
  let w := initialWorld [mine; mkMemory "m2" "u2" "other" None "{}" "low" 200 200] in
  let env := mkStoreEnv (mkProviderEnv true (fun _ => Err "unused"))
                        (fun _ _ _ _ _ => Err "unused") None in
  (@updateMemory samplePlatform env w "m1" "u1" (Some ""%string) None (Some "high"%string)
     0 5 900).1
  = Ok (Some (mkMemory "m1" "u1" "Buy milk" (Some [1 # 1]%Q) "{}" "high" 100 900)).
Proof.
  intros mine w env.
  destruct (@updateMemory_rewrites_only_the_row samplePlatform env w mine (Some ""%string) None
              (Some "high"%string) 0 5 900 None (gateway w))
    as (Hr & _).
  - apply (bool_decide_unpack _). vm_compute. exact I.
  - simpl. left.
  - reflexivity.
  - simpl. done.
  - exact Hr.
Defined.

Lemma cold_start_has_no_similarity_path_witness :
  let old := mkMemory "m1" "u1" "Buy milk" None "{}" "medium" 100 100 in
  let new := mkMemory "m2" "u1" "Call FOO tomorrow" None "{}" "high" 200 200 in
  let env := mkStoreEnv (mkProviderEnv true (fun _ => Ok [[1 # 2]%Q]))
                        (fun rows _ _ _ _ => Ok [mkScored old (99 # 100)%Q]) None in
  let w := initialWorld [old; new] in
  (@searchMemories samplePlatform env w "u1" "foo" None None (mkSearchClock 1000 1001 1002)).1
  = Ok [mkScored new (8 # 10)%Q; mkScored old (5 # 10)%Q]
  /\ exists e,
       (@storeMemory samplePlatform env w "u1" "Call Bob" None None "m3" 300 1000 1001).1
       = Err e.
Proof.
  intros old new env w.
  destruct (@cold_start_has_no_similarity_path samplePlatform env w) as (Hstore & Hsearch & _).
  - split; reflexivity.
  - split.
    + destruct (Hsearch "u1"%string "foo"%string None None (mkSearchClock 1000 1001 1002))
        as (Hr & _).
      etransitivity; [exact Hr|]. vm_compute. reflexivity.
    + destruct (Hstore "u1"%string "Call Bob"%string None None "m3"%string 300 1000 1001)
        as (Hfails & _).
      exact Hfails.
Defined.

(** ** The memory tools *)

Section ToolsMore.
Context `{Platform}.

(** X22.  The list tool clamps the requested limit into 1..50: without a
    (non-empty) query, when the statement runs, it answers the
    [min(max(limit, 1), 50)] most recent memories of the user (limit 10
    when none is given) and changes nothing; so at most 50 memories are
    listed whatever limit is asked for, and a user who has a memory gets at
    least one even for a limit of 0 or less. *)
Theorem createListMemories_clamps_the_limit :
  forall (user : string) (env : StoreEnv) (w : World) (query : option string)
         (limit : option Z) (clk : SearchClock),
    truthy query = None ->
    dbFailure env = None ->
    let safeLimit := Z.min (Z.max (default 10 limit) 1) 50 in
    exists out,
      createListMemories user env w query limit clk
      = (ListMemoriesOk (viewMemory <$> out) (length out) None, w)
      /\ mostRecentOf (memoryTable w) user safeLimit out
      /\ (length out <= 50)%nat
      /\ ((exists m, m ∈ memoryTable w /\ userId m = user) -> (1 <= length out)%nat).
Proof.
  intros user env w query limit clk Hquery Hdb safeLimit.
  unfold createListMemories. rewrite Hquery. unfold getUserMemories. rewrite Hdb. simpl.
  fold safeLimit. eexists. split; [reflexivity|].
  pose proof (selectRecent_mostRecentOf (memoryTable w) user safeLimit) as Hmost.
  split; [exact Hmost|]. destruct Hmost as (Hlen & _). rewrite Hlen. split; [lia|].
  intros (m & Hm & Hu).
  assert (Hin : m ∈ filter (fun m => userId m = user) (memoryTable w)).
  { by apply list_elem_of_filter. }
  destruct (filter _ (memoryTable w)); [by apply elem_of_nil in Hin|]. simpl. lia.
Qed.

Lemma deleteEach_own_rows (env : StoreEnv) (user : string) (ms : list Memory) :
  forall w,
    dbFailure env = None ->
    NoDup (id <$> memoryTable w) ->
    NoDup ms ->
    (forall m, m ∈ ms -> m ∈ memoryTable w /\ userId m = user) ->
    (deleteEach env w user ms).1 = (fun _ => Ok true) <$> ms
    /\ forall m, m ∈ memoryTable (deleteEach env w user ms).2 <-> m ∈ memoryTable w /\ m ∉ ms.
Proof.
  induction ms as [|m ms IH]; intros w Hdb Hnd Hms Hown; simpl.
  - split; [done|]. intros m. split; [|tauto]. intros Hm. split; [done|]. apply not_elem_of_nil.
  - apply NoDup_cons in Hms as [Hm Hms].
    destruct (Hown m) as [Hin Hu]; [apply elem_of_cons; by left|].
    destruct (deleteMemory_own_row env w m Hdb Hnd Hin) as (Hr & Htable & Hnd' & _).
    rewrite Hu in Hr, Htable, Hnd'.
    destruct (deleteMemory env w (id m) user) as [r w'] eqn:Hdel. simpl in Hr, Htable, Hnd'.
    destruct (IH w' Hdb Hnd' Hms) as [IHr IHtable].
    { intros m' Hm'. destruct (Hown m') as [Hin' Hu']; [apply elem_of_cons; by right|].
      split; [|done]. apply Htable. split; [done|]. intros ->. done. }
    destruct (deleteEach env w' user ms) as [rs w''] eqn:Heach. simpl in IHr, IHtable. simpl.
    split; [by rewrite Hr, IHr|].
    intros m'. rewrite IHtable, Htable, not_elem_of_cons. tauto.
Qed.

Lemma promiseAll_all_true {A : Type} (ms : list A) :
  promiseAll ((fun _ => Ok true) <$> ms) = Ok ((fun _ => true) <$> ms).
Proof. induction ms as [|m ms IH]; csimpl; [done|]. by rewrite IH. Qed.

Lemma filter_true_const {A : Type} (ms : list A) :
  length (filter (fun b : bool => b = true) ((fun _ => true) <$> ms)) = length ms.
Proof.
  induction ms as [|m ms IH]; [done|].
  rewrite fmap_cons, filter_cons_True by done. simpl. by rewrite IH.
Qed.

(** X23.  Forgetting by content: with no memory id, a non-empty text, unique
    ids and the statements running, the forget tool looks only at the 20
    most recent memories of the user.  If none of them contains the text
    (letter case ignored) it deletes nothing and suggests at most 5
    memories; otherwise it deletes exactly those that contain it, reports
    as many deleted as found, and leaves every other row (older memories of
    the user that match, and all rows of other users) in the table. *)
Theorem createForget_by_content_deletes_the_recent_matches :
  forall (user : string) (env : StoreEnv) (w : World) (memoryId searched : option string)
         (c : string),
    truthy memoryId = None ->
    truthy searched = Some c ->
    dbFailure env = None ->
    NoDup (id <$> memoryTable w) ->
    let memories := selectRecent (memoryTable w) user 20 in
    let matching :=
      filter (fun m => includes (toLowerCase (content m)) (toLowerCase c) = true) memories in
    let r := createForget user env w memoryId searched in
    (forall m, m ∈ matching -> m ∈ memoryTable w /\ userId m = user)
    /\ (matching = [] ->
          exists suggestions,
            r = (ForgetNoMatch c suggestions, w) /\ (length suggestions <= 5)%nat)
    /\ (matching ≠ [] ->
          r.1 = ForgetDeletedMatching (length matching) (length matching)
          /\ forall m, m ∈ memoryTable r.2 <-> m ∈ memoryTable w /\ m ∉ matching).
Proof.
  intros user env w memoryId searched c Hid Hsearched Hdb Hnd memories matching r.
  assert (Hown : forall m, m ∈ matching -> m ∈ memoryTable w /\ userId m = user).
  { intros m Hm. apply list_elem_of_filter in Hm as [_ Hm].
    apply elem_of_take in Hm as (i & Hm & _). apply list_elem_of_lookup_2 in Hm.
    rewrite orderByCreatedAtDesc_perm in Hm. apply list_elem_of_filter in Hm as [Hu Hm]. done. }
  assert (Hdistinct : NoDup matching).
  { apply NoDup_filter. eapply sublist_NoDup; [|apply sublist_take].
    rewrite orderByCreatedAtDesc_perm. apply NoDup_filter. by apply (NoDup_fmap_1 id). }
  split; [exact Hown|].
  subst r. unfold createForget. rewrite Hid, Hsearched. unfold getUserMemories. rewrite Hdb.
  simpl. fold memories. fold matching. split.
  - intros ->. simpl. eexists. split; [reflexivity|].
    rewrite length_fmap, length_take. lia.
  - intros Hsome.
    destruct (Nat.eqb_spec (length matching) 0) as [Hz|_].
    { destruct matching; [done | discriminate]. }
    destruct (deleteEach_own_rows env user matching w Hdb Hnd Hdistinct Hown) as [Hrs Htable].
    destruct (deleteEach env w user matching) as [rs w']. simpl in Hrs, Htable. subst rs.
    rewrite promiseAll_all_true. simpl. by rewrite filter_true_const.
Qed.

Lemma no_row_for_other_user (rows : list Memory) (row : Memory) (other : string) :
  NoDup (id <$> rows) -> row ∈ rows -> userId row ≠ other ->
  Forall (fun m => ¬ (id m = id row /\ userId m = other)) rows.
Proof.
  intros Hnd Hrow Hother. apply Forall_forall. intros m Hm [Hid Hu]. apply Hother.
  rewrite <- Hu. f_equal. symmetry. by apply (NoDup_fmap_eq id rows).
Qed.

(** X24.  Forgetting by id respects ownership: in a table with unique ids,
    when the statement runs, the forget tool given the (non-empty) id of a
    row answers "deleted" for the owner and removes exactly that row, and
    answers "not found" for any other user and changes nothing; the content
    argument is ignored as soon as an id is given. *)
Theorem createForget_by_id_respects_ownership :
  forall (env : StoreEnv) (w : World) (row : Memory) (other : string)
         (searched : option string),
    dbFailure env = None ->
    NoDup (id <$> memoryTable w) ->
    row ∈ memoryTable w ->
    id row ≠ ""%string ->
    userId row ≠ other ->
    createForget other env w (Some (id row)) searched = (ForgetNotFound (id row), w)
    /\ (createForget (userId row) env w (Some (id row)) searched).1 = ForgetDeleted (id row)
    /\ forall m,
         m ∈ memoryTable (createForget (userId row) env w (Some (id row)) searched).2
         <-> m ∈ memoryTable w /\ m ≠ row.
Proof.
  intros env w row other searched Hdb Hnd Hrow Hid Hother.
  assert (Htruthy : truthy (Some (id row)) = Some (id row)).
  { simpl. destruct (String.eqb_spec (id row) ""); [done | done]. }
  unfold createForget. rewrite Htruthy. split.
  - pose proof (no_row_for_other_user _ _ _ Hnd Hrow Hother) as Hnone.
    unfold deleteMemory. rewrite Hdb.
    rewrite (filter_none _ _ Hnone), (filter_all _ _ Hnone). simpl.
    by rewrite with_memoryTable_same.
  - destruct (deleteMemory_own_row env w row Hdb Hnd Hrow) as (Hr & Htable & _).
    destruct (deleteMemory env w (id row) (userId row)) as [r w']. simpl in Hr, Htable.
    subst r. done.
Qed.

End ToolsMore.

Lemma createListMemories_clamps_the_limit_witness :
  let mine := mkMemory "m1" "u1" "Buy milk" None "{}" "medium" 100 100 in
  let w := initialWorld [mine] in
  let env := mkStoreEnv (mkProviderEnv true (fun _ => Err "unused"))
                        (fun _ _ _ _ _ => Err "unused") None in
  exists out,
    @createListMemories samplePlatform "u1" env w None (Some 0) (mkSearchClock 0 0 0)
    = (ListMemoriesOk (viewMemory <$> out) (length out) None, w)
    /\ (1 <= length out)%nat.
Proof.
  intros mine w env.
  destruct (@createListMemories_clamps_the_limit samplePlatform "u1" env w None (Some 0)
              (mkSearchClock 0 0 0) eq_refl eq_refl) as (out & Hr & _ & _ & Hone).
  exists out. split; [exact Hr|]. apply Hone. exists mine. split; [simpl; left | reflexivity].
Defined.

Lemma createForget_by_content_deletes_the_recent_matches_witness :
  let w := initialWorld
             [mkMemory "m1" "u1" "Buy MILK" None "{}" "medium" 100 100;
              mkMemory "m2" "u1" "Call Bob" None "{}" "medium" 200 200;
              mkMemory "m3" "u2" "milk run" None "{}" "medium" 300 300] in
  let env := mkStoreEnv (mkProviderEnv true (fun _ => Err "unused"))
                        (fun _ _ _ _ _ => Err "unused") None in
  (@createForget samplePlatform "u1" env w None (Some "milk"%string)).1
  = ForgetDeletedMatching 1 1.
Proof.
  intros w env.
  destruct (@createForget_by_content_deletes_the_recent_matches samplePlatform "u1" env w
              None (Some "milk"%string) "milk" eq_refl eq_refl eq_refl)
    as (_ & _ & Hsome).
  - apply (bool_decide_unpack _). vm_compute. exact I.
  - destruct Hsome as [Hr _]; [vm_compute; discriminate | exact Hr].
Defined.

Lemma createForget_by_id_respects_ownership_witness :
  let victimRow := mkMemory "m1" "victim" "my secret" None "{}" "medium" 100 100 in
  let w := initialWorld
             [victimRow; mkMemory "m2" "attacker" "mine" None "{}" "medium" 200 200] in
  let env := mkStoreEnv (mkProviderEnv true (fun _ => Err "unused"))
                        (fun _ _ _ _ _ => Err "unused") None in
  @createForget samplePlatform "attacker" env w (Some "m1"%string) (Some "secret"%string)
  = (ForgetNotFound "m1", w).
Proof.
  intros victimRow w env.
  destruct (@createForget_by_id_respects_ownership samplePlatform env w victimRow "attacker"
              (Some "secret"%string)) as (Hforeign & _).
  - reflexivity.
  - apply (bool_decide_unpack _). vm_compute. exact I.
  - simpl. left.
  - simpl. discriminate.
  - simpl. discriminate.
  - exact Hforeign.
Defined.


(** ** The API middleware's limiter *)

Section MiddlewareMore.
Context `{Platform}.

Lemma rateLimit_unfold registry request route capacity refillRate now now' :
  rateLimit registry request route capacity refillRate now now' =
    let cap := default 100 capacity in
    let rate := default 10 refillRate in
    let found := getRateLimiter registry route cap rate in
    let clientId := getClientId request in
    let r := RateLimiter.isAllowed found.1.2 clientId 1 now in
    let registry' := <[found.1.1 := r.2]> found.2 in
    if negb r.1 then
      let remaining := RateLimiter.getRemaining r.2 clientId now' in
      (Some (mkTooManyRequests (ceilDiv (cap - remaining) rate) cap remaining), registry')
    else (None, registry').
Proof.
  unfold rateLimit. cbv zeta.
  destruct (getRateLimiter registry route (default 100 capacity) (default 10 refillRate))
    as [[key limiter] registry1].
  simpl. by destruct (RateLimiter.isAllowed limiter (getClientId request) 1 now).
Qed.

Lemma getRateLimiter_found registry route capacity refillRate :
  let found := getRateLimiter registry route capacity refillRate in
  (registry !! found.1.1 = Some found.1.2 /\ found.2 = registry)
  \/ (registry !! found.1.1 = None
      /\ found.1.2 = RateLimiter.mk ∅ capacity refillRate 60000
      /\ found.2 = <[found.1.1 := found.1.2]> registry).
Proof.
  unfold getRateLimiter. cbv zeta.
  set (key := (route ++ ":" ++ Number_toString (inject_Z capacity)
                     ++ ":" ++ Number_toString (inject_Z refillRate))%string).
  destruct (registry !! key) as [limiter|] eqn:Hl; simpl; [by left | by right].
Qed.

Lemma getRateLimiter_again registry route capacity refillRate limiter :
  let found := getRateLimiter registry route capacity refillRate in
  getRateLimiter (<[found.1.1 := limiter]> found.2) route capacity refillRate
  = (found.1.1, limiter, <[found.1.1 := limiter]> found.2).
Proof.
  unfold getRateLimiter. cbv zeta.
  set (key := (route ++ ":" ++ Number_toString (inject_Z capacity)
                     ++ ":" ++ Number_toString (inject_Z refillRate))%string).
  destruct (registry !! key) as [limiter0|] eqn:Hl; simpl; by rewrite lookup_insert_eq.
Qed.

Lemma RateLimiter_denied_nothing_remaining rl identifier now :
  0 <= RateLimiter.capacity rl ->
  0 <= RateLimiter.refillRate rl ->
  (forall b, RateLimiter.buckets rl !! identifier = Some b ->
             0 <= RateLimiter.tokens b /\ RateLimiter.lastRefill b <= now) ->
  (RateLimiter.isAllowed rl identifier 1 now).1 = false ->
  RateLimiter.getRemaining (RateLimiter.isAllowed rl identifier 1 now).2 identifier now = 0.
Proof.
  intros Hcap Hrate Hb Hdenied.
  destruct (RateLimiter_isAllowed_denied rl identifier 1 now Hdenied) as [Hl Hlt].
  pose proof (refilled_lower rl identifier now Hcap (fun b Hb' => proj1 (Hb b Hb'))) as Hlo.
  pose proof (fun tok => refilled_no_more rl identifier now tok Hrate
                (fun b Hb' => proj2 (Hb b Hb'))) as Hmore.
  destruct (RateLimiter_isAllowed_config rl identifier 1 now) as (Hc & Hr & _).
  unfold RateLimiter.getRemaining. rewrite Hl.
  unfold RateLimiter.tokensToAdd in *. rewrite Hc, Hr.
  destruct (RateLimiter.refilled rl identifier now) as [tok last]. simpl in *.
  rewrite (Hmore tok). lia.
Qed.

(** X26.  What a 429 tells the client: when the middleware denies a request
    (limiter and remaining tokens read at the same clock reading, capacity
    and rate non-negative, the client's bucket not negative), the reported
    remaining tokens are 0 and [Retry-After] is
    [ceil(capacity / refillRate)] seconds, the time to refill the whole
    bucket, however soon the next token arrives. *)
Theorem rateLimit_denial_asks_to_wait_for_a_full_refill :
  forall (registry registry' : gmap string RateLimiter.t) (request : Request) (route : string)
         (capacity refillRate : option Z) (now : Z) (resp : TooManyRequests),
    let cap := default 100 capacity in
    let rate := default 10 refillRate in
    0 <= cap ->
    0 <= rate ->
    (forall limiter,
       registry !! (getRateLimiter registry route cap rate).1.1 = Some limiter ->
       RateLimiter.capacity limiter = cap
       /\ RateLimiter.refillRate limiter = rate
       /\ forall b, RateLimiter.buckets limiter !! getClientId request = Some b ->
                    0 <= RateLimiter.tokens b /\ RateLimiter.lastRefill b <= now) ->
    rateLimit registry request route capacity refillRate now now = (Some resp, registry') ->
    rateLimitRemaining resp = 0
    /\ rateLimitLimit resp = cap
    /\ retryAfter resp = ceilDiv cap rate.
Proof.
  intros registry registry' request route capacity refillRate now resp cap rate
    Hcap Hrate Hreg Hdenied.
  rewrite rateLimit_unfold in Hdenied. cbv zeta in Hdenied. fold cap rate in Hdenied.
  set (found := getRateLimiter registry route cap rate) in *.
  assert (Hlimiter : RateLimiter.capacity found.1.2 = cap
                     /\ RateLimiter.refillRate found.1.2 = rate
                     /\ forall b, RateLimiter.buckets found.1.2 !! getClientId request = Some b ->
                                  0 <= RateLimiter.tokens b /\ RateLimiter.lastRefill b <= now).
  { destruct (getRateLimiter_found registry route cap rate) as [[Hl _]|(_ & Hfresh & _)];
      fold found in Hl || fold found in Hfresh.
    - by apply Hreg.
    - rewrite Hfresh. simpl. split; [done|]. split; [done|]. intros b Hb.
      by rewrite lookup_empty in Hb. }
  destruct Hlimiter as (Hc & Hr & Hb).
  destruct (RateLimiter.isAllowed found.1.2 (getClientId request) 1 now) as [allowed limiter]
    eqn:Hadm.
  destruct allowed; simpl in Hdenied; [discriminate|].
  injection Hdenied as <- _. simpl.
  pose proof (RateLimiter_denied_nothing_remaining found.1.2 (getClientId request) now) as Hzero.
  rewrite Hadm in Hzero. simpl in Hzero.
  rewrite Hzero; [| by rewrite Hc | by rewrite Hr | exact Hb | done].
  split; [done|]. split; [done|]. by rewrite Z.sub_0_r.
Qed.

(** X27.  Clients are limited separately: a request of one client, let
    through or denied, does not change what the middleware answers to a
    later request of a client with a different client id on the same
    route. *)
Theorem rateLimit_clients_are_limited_separately :
  forall (registry : gmap string RateLimiter.t) (request1 request2 : Request) (route : string)
         (capacity refillRate : option Z) (t1 t1' t2 t2' : Z),
    getClientId request1 ≠ getClientId request2 ->
    (rateLimit (rateLimit registry request1 route capacity refillRate t1 t1').2
       request2 route capacity refillRate t2 t2').1
    = (rateLimit registry request2 route capacity refillRate t2 t2').1.
Proof.
  intros registry request1 request2 route capacity refillRate t1 t1' t2 t2' Hne.
  rewrite !rateLimit_unfold. cbv zeta.
  set (cap := default 100 capacity). set (rate := default 10 refillRate).
  set (found := getRateLimiter registry route cap rate).
  set (c1 := getClientId request1) in *. set (c2 := getClientId request2) in *.
  set (first := RateLimiter.isAllowed found.1.2 c1 1 t1).
  assert (Hregistry1 : (if negb first.1
                        then (Some (mkTooManyRequests
                                      (ceilDiv (cap - RateLimiter.getRemaining first.2 c1 t1') rate)
                                      cap (RateLimiter.getRemaining first.2 c1 t1')),
                              <[found.1.1 := first.2]> found.2)
                        else (None, <[found.1.1 := first.2]> found.2)).2
                       = <[found.1.1 := first.2]> found.2).
  { by destruct (negb first.1). }
  rewrite Hregistry1. subst found. rewrite getRateLimiter_again.
  set (found := getRateLimiter registry route cap rate) in *. simpl.
  pose proof (RateLimiter_isAllowed_other found.1.2 c1 c2 1 t1 Hne) as Hbucket.
  destruct (RateLimiter_isAllowed_config found.1.2 c1 1 t1) as (Hc & Hr & _).
  fold first in Hbucket, Hc, Hr.
  pose proof (refilled_same_bucket found.1.2 first.2 c2 t2 Hbucket Hc Hr) as Hrefilled.
  assert (Hdecision : (RateLimiter.isAllowed first.2 c2 1 t2).1
                      = (RateLimiter.isAllowed found.1.2 c2 1 t2).1).
  { by rewrite !RateLimiter_isAllowed_decision, Hrefilled. }
  assert (Hremaining : RateLimiter.getRemaining (RateLimiter.isAllowed first.2 c2 1 t2).2 c2 t2'
                       = RateLimiter.getRemaining (RateLimiter.isAllowed found.1.2 c2 1 t2).2
                           c2 t2').
  { destruct (RateLimiter_isAllowed_config first.2 c2 1 t2) as (Hc2 & Hr2 & _).
    destruct (RateLimiter_isAllowed_config found.1.2 c2 1 t2) as (Hc0 & Hr0 & _).
    apply RateLimiter_getRemaining_same_bucket; [|congruence|congruence].
    rewrite !RateLimiter_isAllowed_unfold. cbv zeta. rewrite Hrefilled.
    destruct (_ >=? _); simpl; by rewrite !lookup_insert_eq. }
  rewrite Hdecision, Hremaining.
  by destruct ((RateLimiter.isAllowed found.1.2 c2 1 t2).1).
Qed.
End MiddlewareMore.

(** X28.  Client ids keep users and addresses apart: a request with a
    non-empty [x-user-id] header is identified by that header alone,
    whatever its address headers say; two such requests share a client id
    exactly when the headers are equal, and such a request never shares a
    client id with a request identified by address. *)
Theorem getClientId_keeps_users_and_addresses_apart :
  forall (request1 request2 : Request) (user1 : string),
    truthy (x_user_id request1) = Some user1 ->
    getClientId request1 = ("user:" ++ user1)%string
    /\ (forall user2, truthy (x_user_id request2) = Some user2 ->
                      (getClientId request1 = getClientId request2 <-> user1 = user2))
    /\ (truthy (x_user_id request2) = None -> getClientId request1 ≠ getClientId request2).
Proof.
  intros request1 request2 user1 Hu1. unfold getClientId. rewrite Hu1.
  split; [done|]. split.
  - intros user2 ->. split; [|by intros ->].
    intros Heq. cbv [String.append] in Heq. by injection Heq.
  - intros ->. intros Heq. cbv [String.append] in Heq. discriminate.
Qed.

Lemma rateLimit_denial_asks_to_wait_for_a_full_refill_witness :
  let registry : gmap string RateLimiter.t :=
    {[ "/api/chat:100:10"%string :=
         RateLimiter.mk {[ "user:alice"%string := RateLimiter.mkBucket 0 1000 ]} 100 10 60000 ]} in
  let request := mkRequest (Some "alice"%string) None None None in
  let r := @rateLimit samplePlatform registry request "/api/chat" None None 1050 1050 in
  exists resp, r.1 = Some resp /\ rateLimitRemaining resp = 0 /\ retryAfter resp = Some 10.
Proof.
  intros registry request r.
  exists (mkTooManyRequests (Some 10) 100 0). split; [vm_compute; reflexivity|].
  destruct (@rateLimit_denial_asks_to_wait_for_a_full_refill samplePlatform registry r.2
              request "/api/chat" None None 1050 (mkTooManyRequests (Some 10) 100 0))
    as (Hremaining & _ & Hretry).
  - simpl. lia.
  - simpl. lia.
  - intros limiter Hl. vm_compute in Hl. injection Hl as <-.
    split; [reflexivity|]. split; [reflexivity|].
    intros b Hb. vm_compute in Hb. injection Hb as <-. simpl. lia.
  - vm_compute. reflexivity.
  - split; [exact Hremaining | exact Hretry].
Defined.

Lemma rateLimit_clients_are_limited_separately_witness :
  let alice := mkRequest (Some "alice"%string) None None (Some "10.0.0.1"%string) in
  let bob := mkRequest (Some "bob"%string) None None (Some "10.0.0.1"%string) in
  (@rateLimit samplePlatform
     (@rateLimit samplePlatform ∅ alice "/api/chat" (Some 1) (Some 1) 0 0).2
     bob "/api/chat" (Some 1) (Some 1) 0 0).1 = None.
Proof.
  intros alice bob.
  etransitivity;
    [apply (@rateLimit_clients_are_limited_separately samplePlatform ∅ alice bob "/api/chat"
              (Some 1) (Some 1) 0 0 0 0)|].
  - intros Heq. vm_compute in Heq. discriminate.
  - vm_compute. reflexivity.
Defined.

Lemma getClientId_keeps_users_and_addresses_apart_witness :
  getClientId (mkRequest (Some "alice"%string) (Some "10.0.0.1"%string) None None)
  ≠ getClientId (mkRequest None (Some "10.0.0.1, 10.0.0.2"%string) None None).
Proof.
  destruct (getClientId_keeps_users_and_addresses_apart
              (mkRequest (Some "alice"%string) (Some "10.0.0.1"%string) None None)
              (mkRequest None (Some "10.0.0.1, 10.0.0.2"%string) None None)
              "alice" eq_refl) as (_ & _ & Hapart).
  apply Hapart. reflexivity.
Defined.
